(** * Petri net core of bmo1177/vfdtp1

    A shallow embedding of the domain logic of the three applications of the
    repository:

    - [petrinetsimple.py] and [tp101.py]: the classes [Place], [Transition]
      and [PetriNet] (construction, [is_enabled], [is_bounded],
      [has_live_transitions]);
    - [tp1test.py]: the class [PetriNetAnalyzer] ([load_network],
      [_validate_network], [_build_graph], [analyze_boundedness],
      [analyze_liveness], [get_enabled_transitions]);
    - the windows around them: [generate_network], [load_net_file] and
      [_update_form_fields] of the two [PetriNetApp] classes, [_parse_inputs]
      and [_analyze] of [PetriNetGUI], and the graph that
      [get_networkx_graph] hands to [_draw_network].

    Conventions of the embedding.

    - A Python [str] is a [string]; its characters are code points below 256.
    - A Python [int] is a [Z].
    - A Python [dict] keyed by strings is an association list in insertion
      order whose keys are pairwise distinct (module [Dict]).
    - A method that mutates [self] is a computation in the monad [M]: it takes
      the object's state and gives back the state it leaves behind together
      with what the call did, [Returns v] or [Raises e].  A raised exception
      keeps the assignments made before it, as in Python.
    - A read-only method that can raise gives an [outcome]; one that cannot is
      a plain function.
    - The quotient of two integers computed by [/] is kept as the exact
      rational number of type [Q]. *)

From Stdlib Require Import List String Ascii ZArith QArith Bool Lia DecimalString.
Import ListNotations.

Open Scope string_scope.
Open Scope Z_scope.

(** ** Python runtime: exceptions, outcomes, a state and exception monad *)

Inductive exn : Type :=
| KeyError (key : string)
| ValueError (msg : string).

Inductive outcome (A : Type) : Type :=
| Returns (v : A)
| Raises (e : exn).

Arguments Returns {A} v.
Arguments Raises {A} e.

Definition M (S A : Type) : Type := S -> S * outcome A.

Definition ret {S A : Type} (v : A) : M S A := fun s => (s, Returns v).

Definition bind {S A B : Type} (c : M S A) (k : A -> M S B) : M S B :=
  fun s =>
    match c s with
    | (s', Returns v) => k v s'
    | (s', Raises e) => (s', Raises e)
    end.

Definition modify {S : Type} (f : S -> S) : M S unit := fun s => (f s, Returns tt).

Definition gets {S A : Type} (f : S -> A) : M S A := fun s => (s, Returns (f s)).

Definition lift {S A : Type} (f : S -> outcome A) : M S A := fun s => (s, f s).

Declare Scope py_scope.
Delimit Scope py_scope with py.

Notation "x <- c ;; k" := (bind c (fun x => k))
  (at level 61, c at next level, right associativity) : py_scope.
Notation "c ;; k" := (bind c (fun _ => k))
  (at level 61, right associativity) : py_scope.

(** ** Python dictionaries with string keys *)

Module Dict.

Definition t (V : Type) : Type := list (string * V).

Definition empty {V : Type} : t V := [].

(** [d.get(k)] *)
Fixpoint get {V : Type} (k : string) (d : t V) : option V :=
  match d with
  | [] => None
  | (k', v) :: rest => if String.eqb k k' then Some v else get k rest
  end.

(** [k in d] *)
Definition mem {V : Type} (k : string) (d : t V) : bool :=
  match get k d with
  | Some _ => true
  | None => false
  end.

(** [d[k] = v]: an existing key keeps its position, a new key goes last. *)
Fixpoint set {V : Type} (k : string) (v : V) (d : t V) : t V :=
  match d with
  | [] => [(k, v)]
  | (k', v') :: rest =>
      if String.eqb k k' then (k', v) :: rest else (k', v') :: set k v rest
  end.

(** [d.get(k, default)] *)
Definition get_default {V : Type} (k : string) (default : V) (d : t V) : V :=
  match get k d with
  | Some v => v
  | None => default
  end.

Definition keys {V : Type} (d : t V) : list string := map fst d.

Definition values {V : Type} (d : t V) : list V := map snd d.

Definition items {V : Type} (d : t V) : list (string * V) := d.

(** [d.update(other)] *)
Definition update {V : Type} (d other : t V) : t V :=
  fold_left (fun acc kv => set (fst kv) (snd kv) acc) other d.

End Dict.

(** ** What the caller passes to a net under construction

    Both applications build their net by calls to [add_place],
    [add_transition] and [add_arc].  [add_place] and [add_transition] store a
    layout position drawn with [np.random.rand(2) * 2 - 1]; the two numbers
    drawn are an argument of the call here. *)

Inductive Pos : Type := mkPos (x y : Q).

Inductive call : Type :=
| AddPlace (name : string) (tokens : Z) (rnd : Pos)
| AddTransition (name : string) (rnd : Pos)
| AddArc (source target : string) (weight : Z).

(** ** petrinetsimple.py *)

Module PetriNetSimple.

Record Place : Type := mkPlace { p_name : string; tokens : Z }.

Record Transition : Type := mkTransition {
  t_name : string;
  input_arcs : Dict.t Z;
  output_arcs : Dict.t Z
}.

(** [Transition.__init__] *)
Definition new_transition (name : string) : Transition :=
  {| t_name := name; input_arcs := Dict.empty; output_arcs := Dict.empty |}.

Definition add_input_arc (t : Transition) (place : Place) (weight : Z) : Transition :=
  {| t_name := t_name t;
     input_arcs := Dict.set (p_name place) weight (input_arcs t);
     output_arcs := output_arcs t |}.

Definition add_output_arc (t : Transition) (place : Place) (weight : Z) : Transition :=
  {| t_name := t_name t;
     input_arcs := input_arcs t;
     output_arcs := Dict.set (p_name place) weight (output_arcs t) |}.

(** [all(places[name].tokens >= weight for name, weight in items)]: the
    generator is consumed from the left, [all] stops at the first false
    element, and a missing key raises [KeyError] when it is reached. *)
Fixpoint all_supplied (items : list (string * Z)) (places : Dict.t Place) : outcome bool :=
  match items with
  | [] => Returns true
  | (name, weight) :: rest =>
      match Dict.get name places with
      | None => Raises (KeyError name)
      | Some p => if tokens p >=? weight then all_supplied rest places else Returns false
      end
  end.

Definition is_enabled (t : Transition) (places : Dict.t Place) : outcome bool :=
  all_supplied (Dict.items (input_arcs t)) places.

Record PetriNet : Type := mkPetriNet {
  places : Dict.t Place;
  transitions : Dict.t Transition;
  arcs : list (string * string * Z);
  pos : Dict.t Pos
}.

(** [PetriNet.__init__] *)
Definition new_net : PetriNet :=
  {| places := Dict.empty; transitions := Dict.empty; arcs := []; pos := Dict.empty |}.

Definition set_places (f : Dict.t Place -> Dict.t Place) (net : PetriNet) : PetriNet :=
  {| places := f (places net); transitions := transitions net;
     arcs := arcs net; pos := pos net |}.

Definition set_transitions (f : Dict.t Transition -> Dict.t Transition) (net : PetriNet) : PetriNet :=
  {| places := places net; transitions := f (transitions net);
     arcs := arcs net; pos := pos net |}.

Definition set_arcs (f : list (string * string * Z) -> list (string * string * Z))
  (net : PetriNet) : PetriNet :=
  {| places := places net; transitions := transitions net;
     arcs := f (arcs net); pos := pos net |}.

Definition set_pos (f : Dict.t Pos -> Dict.t Pos) (net : PetriNet) : PetriNet :=
  {| places := places net; transitions := transitions net;
     arcs := arcs net; pos := f (pos net) |}.

Definition add_place (name : string) (tokens : Z) (rnd : Pos) : M PetriNet unit :=
  (modify (set_places (Dict.set name (mkPlace name tokens))) ;;
   modify (set_pos (Dict.set name rnd)))%py.

Definition add_transition (name : string) (rnd : Pos) : M PetriNet unit :=
  (modify (set_transitions (Dict.set name (new_transition name))) ;;
   modify (set_pos (Dict.set name rnd)))%py.

(** The object stored under a key is updated in place: the key keeps its
    position in the dictionary.  In each branch both lookups succeed because
    the test of the branch has just found the keys. *)
Definition add_arc (source target : string) (weight : Z) : M PetriNet unit :=
  (modify (set_arcs (fun l => (l ++ [(source, target, weight)])%list)) ;;
   ps <- gets places ;;
   ts <- gets transitions ;;
   if Dict.mem source ps && Dict.mem target ts then
     match Dict.get target ts, Dict.get source ps with
     | Some t, Some p =>
         modify (set_transitions (Dict.set target (add_input_arc t p weight)))
     | _, _ => ret tt
     end
   else if Dict.mem source ts && Dict.mem target ps then
     match Dict.get source ts, Dict.get target ps with
     | Some t, Some p =>
         modify (set_transitions (Dict.set source (add_output_arc t p weight)))
     | _, _ => ret tt
     end
   else ret tt)%py.

(** [all(p.tokens >= 0 for p in self.places.values())] *)
Definition is_bounded (net : PetriNet) : bool :=
  forallb (fun p => tokens p >=? 0) (Dict.values (places net)).

(** [any(t.is_enabled(places) for t in ts)]: [any] stops at the first true
    element; an exception raised by an element ends the call. *)
Fixpoint any_enabled (ts : list Transition) (places : Dict.t Place) : outcome bool :=
  match ts with
  | [] => Returns false
  | t :: rest =>
      match is_enabled t places with
      | Raises e => Raises e
      | Returns true => Returns true
      | Returns false => any_enabled rest places
      end
  end.

Definition has_live_transitions (net : PetriNet) : outcome bool :=
  any_enabled (Dict.values (transitions net)) (places net).

(** One call of the caller on the net. *)
Definition perform (c : call) : M PetriNet unit :=
  match c with
  | AddPlace name tokens rnd => add_place name tokens rnd
  | AddTransition name rnd => add_transition name rnd
  | AddArc source target weight => add_arc source target weight
  end.

(** A sequence of calls, stopped by the first exception. *)
Fixpoint perform_all (cs : list call) : M PetriNet unit :=
  match cs with
  | [] => ret tt
  | c :: rest => (perform c ;; perform_all rest)%py
  end.

(** The net left by a sequence of calls on a fresh [PetriNet()]. *)
Definition build (cs : list call) : PetriNet := fst (perform_all cs new_net).

End PetriNetSimple.

(** ** tp101.py *)

Module TP101.

Record Place : Type := mkPlace { p_name : string; tokens : Z }.

Record Transition : Type := mkTransition {
  t_name : string;
  input_arcs : Dict.t Z;
  output_arcs : Dict.t Z
}.

(** [Transition.__init__] *)
Definition new_transition (name : string) : Transition :=
  {| t_name := name; input_arcs := Dict.empty; output_arcs := Dict.empty |}.

Definition add_input_arc (t : Transition) (place : Place) (weight : Z) : Transition :=
  {| t_name := t_name t;
     input_arcs := Dict.set (p_name place) weight (input_arcs t);
     output_arcs := output_arcs t |}.

Definition add_output_arc (t : Transition) (place : Place) (weight : Z) : Transition :=
  {| t_name := t_name t;
     input_arcs := input_arcs t;
     output_arcs := Dict.set (p_name place) weight (output_arcs t) |}.

(** [all(places[name].tokens >= weight for name, weight in items)]: the
    generator is consumed from the left, [all] stops at the first false
    element, and a missing key raises [KeyError] when it is reached. *)
Fixpoint all_supplied (items : list (string * Z)) (places : Dict.t Place) : outcome bool :=
  match items with
  | [] => Returns true
  | (name, weight) :: rest =>
      match Dict.get name places with
      | None => Raises (KeyError name)
      | Some p => if tokens p >=? weight then all_supplied rest places else Returns false
      end
  end.

Definition is_enabled (t : Transition) (places : Dict.t Place) : outcome bool :=
  all_supplied (Dict.items (input_arcs t)) places.

Record PetriNet : Type := mkPetriNet {
  places : Dict.t Place;
  transitions : Dict.t Transition;
  arcs : list (string * string * Z);
  pos : Dict.t Pos
}.

(** [PetriNet.__init__] *)
Definition new_net : PetriNet :=
  {| places := Dict.empty; transitions := Dict.empty; arcs := []; pos := Dict.empty |}.

Definition set_places (f : Dict.t Place -> Dict.t Place) (net : PetriNet) : PetriNet :=
  {| places := f (places net); transitions := transitions net;
     arcs := arcs net; pos := pos net |}.

Definition set_transitions (f : Dict.t Transition -> Dict.t Transition) (net : PetriNet) : PetriNet :=
  {| places := places net; transitions := f (transitions net);
     arcs := arcs net; pos := pos net |}.

Definition set_arcs (f : list (string * string * Z) -> list (string * string * Z))
  (net : PetriNet) : PetriNet :=
  {| places := places net; transitions := transitions net;
     arcs := f (arcs net); pos := pos net |}.

Definition set_pos (f : Dict.t Pos -> Dict.t Pos) (net : PetriNet) : PetriNet :=
  {| places := places net; transitions := transitions net;
     arcs := arcs net; pos := f (pos net) |}.

Definition add_place (name : string) (tokens : Z) (rnd : Pos) : M PetriNet unit :=
  (modify (set_places (Dict.set name (mkPlace name tokens))) ;;
   modify (set_pos (Dict.set name rnd)))%py.

Definition add_transition (name : string) (rnd : Pos) : M PetriNet unit :=
  (modify (set_transitions (Dict.set name (new_transition name))) ;;
   modify (set_pos (Dict.set name rnd)))%py.

(** The object stored under a key is updated in place: the key keeps its
    position in the dictionary.  In each branch both lookups succeed because
    the test of the branch has just found the keys. *)
Definition add_arc (source target : string) (weight : Z) : M PetriNet unit :=
  (modify (set_arcs (fun l => (l ++ [(source, target, weight)])%list)) ;;
   ps <- gets places ;;
   ts <- gets transitions ;;
   if Dict.mem source ps && Dict.mem target ts then
     match Dict.get target ts, Dict.get source ps with
     | Some t, Some p =>
         modify (set_transitions (Dict.set target (add_input_arc t p weight)))
     | _, _ => ret tt
     end
   else if Dict.mem source ts && Dict.mem target ps then
     match Dict.get source ts, Dict.get target ps with
     | Some t, Some p =>
         modify (set_transitions (Dict.set source (add_output_arc t p weight)))
     | _, _ => ret tt
     end
   else ret tt)%py.

(** [all(p.tokens >= 0 for p in self.places.values())] *)
Definition is_bounded (net : PetriNet) : bool :=
  forallb (fun p => tokens p >=? 0) (Dict.values (places net)).

(** [any(t.is_enabled(places) for t in ts)]: [any] stops at the first true
    element; an exception raised by an element ends the call. *)
Fixpoint any_enabled (ts : list Transition) (places : Dict.t Place) : outcome bool :=
  match ts with
  | [] => Returns false
  | t :: rest =>
      match is_enabled t places with
      | Raises e => Raises e
      | Returns true => Returns true
      | Returns false => any_enabled rest places
      end
  end.

Definition has_live_transitions (net : PetriNet) : outcome bool :=
  any_enabled (Dict.values (transitions net)) (places net).

(** One call of the caller on the net. *)
Definition perform (c : call) : M PetriNet unit :=
  match c with
  | AddPlace name tokens rnd => add_place name tokens rnd
  | AddTransition name rnd => add_transition name rnd
  | AddArc source target weight => add_arc source target weight
  end.

(** A sequence of calls, stopped by the first exception. *)
Fixpoint perform_all (cs : list call) : M PetriNet unit :=
  match cs with
  | [] => ret tt
  | c :: rest => (perform c ;; perform_all rest)%py
  end.

(** The net left by a sequence of calls on a fresh [PetriNet()]. *)
Definition build (cs : list call) : PetriNet := fst (perform_all cs new_net).

End TP101.
(** ** tp1test.py *)

Module TP1Test.

(** [str.strip()]: the characters removed at both ends are those for which
    [str.isspace] holds; among the code points below 256 these are 9 to 13,
    28 to 32, 133 and 160. *)
Definition is_space (c : ascii) : bool :=
  let n := nat_of_ascii c in
  ((9 <=? n) && (n <=? 13) || (28 <=? n) && (n <=? 32) || (n =? 133) || (n =? 160))%nat.

Fixpoint lstrip (s : string) : string :=
  match s with
  | EmptyString => EmptyString
  | String c rest => if is_space c then lstrip rest else s
  end.

Fixpoint rstrip (s : string) : string :=
  match s with
  | EmptyString => EmptyString
  | String c rest =>
      match rstrip rest with
      | EmptyString => if is_space c then EmptyString else String c EmptyString
      | kept => String c kept
      end
  end.

Definition strip (s : string) : string := rstrip (lstrip s).

(** The part of [networkx.DiGraph] that [_build_graph] touches: the node
    table with each node's attribute dictionary, and for each node the
    targets of its outgoing edges in insertion order. *)
Inductive attr : Type :=
| AInt (z : Z)
| AStr (s : string).

Record DiGraph : Type := mkDiGraph {
  node : Dict.t (Dict.t attr);
  succ : Dict.t (list string)
}.

Definition new_graph : DiGraph := {| node := Dict.empty; succ := Dict.empty |}.

(** [G.clear()] *)
Definition clear (g : DiGraph) : DiGraph := new_graph.

(** One step of [G.add_nodes_from(ns, **attrs)] *)
Definition add_node (attrs : Dict.t attr) (g : DiGraph) (n : string) : DiGraph :=
  let g :=
    if Dict.mem n (node g) then g
    else {| node := Dict.set n Dict.empty (node g); succ := Dict.set n [] (succ g) |} in
  {| node := Dict.set n (Dict.update (Dict.get_default n Dict.empty (node g)) attrs) (node g);
     succ := succ g |}.

Definition add_nodes_from (ns : list string) (attrs : Dict.t attr) (g : DiGraph) : DiGraph :=
  fold_left (add_node attrs) ns g.

(** One step of [G.add_edges_from(es)] for edges given as pairs *)
Definition add_edge (g : DiGraph) (e : string * string) : DiGraph :=
  let '(u, v) := e in
  let g := if Dict.mem u (node g) then g else add_node Dict.empty g u in
  let g := if Dict.mem v (node g) then g else add_node Dict.empty g v in
  let out := Dict.get_default u [] (succ g) in
  {| node := node g;
     succ := if existsb (String.eqb v) out then succ g
             else Dict.set u (out ++ [v])%list (succ g) |}.

Definition add_edges_from (es : list (string * string)) (g : DiGraph) : DiGraph :=
  fold_left add_edge es g.

(** The fields of a [PetriNetAnalyzer].  A set of strings is the list of its
    elements in the order in which Python iterates over it.  The five display
    constants set by [__init__] are never read by the methods below and are
    not kept. *)
Record PetriNetAnalyzer : Type := mkAnalyzer {
  places : list string;
  transitions : list string;
  arcs : list (string * string);
  marking : Dict.t Z;
  graph : DiGraph
}.

(** [PetriNetAnalyzer.__init__] *)
Definition new_analyzer : PetriNetAnalyzer :=
  {| places := []; transitions := []; arcs := []; marking := Dict.empty;
     graph := new_graph |}.

Definition set_places (v : list string) (a : PetriNetAnalyzer) : PetriNetAnalyzer :=
  {| places := v; transitions := transitions a; arcs := arcs a;
     marking := marking a; graph := graph a |}.

Definition set_transitions (v : list string) (a : PetriNetAnalyzer) : PetriNetAnalyzer :=
  {| places := places a; transitions := v; arcs := arcs a;
     marking := marking a; graph := graph a |}.

Definition set_arcs (v : list (string * string)) (a : PetriNetAnalyzer) : PetriNetAnalyzer :=
  {| places := places a; transitions := transitions a; arcs := v;
     marking := marking a; graph := graph a |}.

Definition set_marking (v : Dict.t Z) (a : PetriNetAnalyzer) : PetriNetAnalyzer :=
  {| places := places a; transitions := transitions a; arcs := arcs a;
     marking := v; graph := graph a |}.

Definition set_graph (f : DiGraph -> DiGraph) (a : PetriNetAnalyzer) : PetriNetAnalyzer :=
  {| places := places a; transitions := transitions a; arcs := arcs a;
     marking := marking a; graph := f (graph a) |}.

(** [x in s] for a set [s] *)
Definition set_mem (x : string) (s : list string) : bool := existsb (String.eqb x) s.

(** Truth value of a collection: it is true when not empty. *)
Definition truthy {A : Type} (l : list A) : bool :=
  match l with
  | [] => false
  | _ :: _ => true
  end.

(** The first loop of [_validate_network] *)
Fixpoint validate_arcs (ps ts : list string) (arcs : list (string * string)) : outcome unit :=
  match arcs with
  | [] => Returns tt
  | (src, dest) :: rest =>
      if negb (set_mem src ps) && negb (set_mem src ts) then
        Raises (ValueError ("Invalid source node in arc: " ++ src))
      else if negb (set_mem dest ps) && negb (set_mem dest ts) then
        Raises (ValueError ("Invalid destination node in arc: " ++ dest))
      else validate_arcs ps ts rest
  end.

(** The second loop of [_validate_network], over the keys of the marking *)
Fixpoint validate_marking (ps : list string) (keys : list string) : outcome unit :=
  match keys with
  | [] => Returns tt
  | place :: rest =>
      if negb (set_mem place ps) then
        Raises (ValueError ("Marking specified for non-existent place: " ++ place))
      else validate_marking ps rest
  end.

Definition _validate_network : M PetriNetAnalyzer unit :=
  (lift (fun a => validate_arcs (places a) (transitions a) (arcs a)) ;;
   lift (fun a => validate_marking (places a) (Dict.keys (marking a))))%py.

Definition place_attrs : Dict.t attr := [("bipartite", AInt 0); ("node_type", AStr "place")].

Definition transition_attrs : Dict.t attr :=
  [("bipartite", AInt 1); ("node_type", AStr "transition")].

Definition _build_graph : M PetriNetAnalyzer unit :=
  (modify (set_graph clear) ;;
   ps <- gets places ;;
   modify (set_graph (add_nodes_from ps place_attrs)) ;;
   ts <- gets transitions ;;
   modify (set_graph (add_nodes_from ts transition_attrs)) ;;
   es <- gets arcs ;;
   modify (set_graph (add_edges_from es)))%py.

(** [{p.strip(): int(v) for p, v in marking.items()}]; the values are
    integers already, on which [int] is the identity. *)
Definition stripped_marking (marking : list (string * Z)) : Dict.t Z :=
  fold_left (fun d pv => Dict.set (strip (fst pv)) (snd pv) d) marking Dict.empty.

(** [[(src.strip(), dest.strip()) for src, dest in arcs]] *)
Definition stripped_arcs (arcs : list (string * string)) : list (string * string) :=
  map (fun sd => (strip (fst sd), strip (snd sd))) arcs.

(** [all(self.marking.get(p, 0) > 0 for p in inputs)] *)
Definition all_marked (a : PetriNetAnalyzer) (inputs : list string) : bool :=
  forallb (fun p => Dict.get_default p 0 (marking a) >? 0) inputs.

(** [[src for src, dest in self.arcs if dest == t]] *)
Definition sources_into (a : PetriNetAnalyzer) (t : string) : list string :=
  map fst (filter (fun sd => String.eqb (snd sd) t) (arcs a)).

(** [[dest for src, dest in self.arcs if src == t]] *)
Definition targets_from (a : PetriNetAnalyzer) (t : string) : list string :=
  map snd (filter (fun sd => String.eqb (fst sd) t) (arcs a)).

Definition get_enabled_transitions (a : PetriNetAnalyzer) : list string :=
  fold_left
    (fun enabled t =>
       let inputs := sources_into a t in
       if truthy inputs && all_marked a inputs then (enabled ++ [t])%list else enabled)
    (transitions a) [].

(** [all(isinstance(m, int) and m >= 0 for m in self.marking.values())] *)
(** The analyzer after [_build_graph] *)
Definition with_graph_built (a : PetriNetAnalyzer) : PetriNetAnalyzer :=
  set_graph
    (fun g =>
       add_edges_from (arcs a)
         (add_nodes_from (transitions a) transition_attrs
            (add_nodes_from (places a) place_attrs (clear g))))
    a.

Definition analyze_boundedness (a : PetriNetAnalyzer) : bool :=
  forallb (fun m => m >=? 0) (Dict.values (marking a)).

Section SetOrder.

(** [set_of xs] is [set(xs)], or the set built by a comprehension that
    yields [xs], listed in the order in which Python iterates over it.  The
    order depends on the hashes of the strings and is left open. *)
Variable set_of : list string -> list string.

Definition load_network (places transitions : list string)
  (arcs : list (string * string)) (marking : list (string * Z)) : M PetriNetAnalyzer unit :=
  (modify (set_places (set_of places)) ;;
   modify (set_transitions (set_of transitions)) ;;
   modify (set_arcs (stripped_arcs arcs)) ;;
   modify (set_marking (stripped_marking marking)) ;;
   _validate_network ;;
   _build_graph)%py.

(** The analyzer after the four assignments that open [load_network] *)
Definition assigned (places transitions : list string)
  (arcs : list (string * string)) (marking : list (string * Z))
  (a : PetriNetAnalyzer) : PetriNetAnalyzer :=
  {| TP1Test.places := set_of places;
     TP1Test.transitions := set_of transitions;
     TP1Test.arcs := stripped_arcs arcs;
     TP1Test.marking := stripped_marking marking;
     graph := graph a |}.

(** The test of the loop body of [analyze_liveness] *)
Definition counted_live (a : PetriNetAnalyzer) (t : string) : bool :=
  let inputs := set_of (sources_into a t) in
  let outputs := set_of (targets_from a t) in
  truthy inputs && truthy outputs && all_marked a inputs.

Definition analyze_liveness (a : PetriNetAnalyzer) : Q :=
  let live_count :=
    fold_left (fun live_count t => if counted_live a t then live_count + 1 else live_count)
      (transitions a) 0 in
  if truthy (transitions a)
  then (inject_Z live_count / inject_Z (Z.of_nat (List.length (transitions a))))%Q
  else 0%Q.

End SetOrder.

(** *** The analyzer's operations as the specification words them *)

(** Tokens held by [p] under the analyzer's marking, 0 when the marking has
    no entry for it. *)
Definition held (a : PetriNetAnalyzer) (p : string) : Z := Dict.get_default p 0 (marking a).

(** [p] is an input of [t]: some arc leads from [p] to [t]. *)
Definition input_of (a : PetriNetAnalyzer) (t p : string) : Prop := In (p, t) (arcs a).

(** [q] is an output of [t]: some arc leads from [t] to [q]. *)
Definition output_of (a : PetriNetAnalyzer) (t q : string) : Prop := In (t, q) (arcs a).

(** The analyzer's enabling rule: a non-empty input set, each input holding
    strictly more than 0 tokens; arcs carry no weight here. *)
Definition enabled_by_rule (a : PetriNetAnalyzer) (t : string) : Prop :=
  (exists p, input_of a t p) /\ (forall p, input_of a t p -> 0 < held a p).

(** Structurally live: at least one input, at least one output, each input
    holding strictly more than 0 tokens. *)
Definition structurally_live (a : PetriNetAnalyzer) (t : string) : Prop :=
  (exists p, input_of a t p) /\ (exists q, output_of a t q) /\
  (forall p, input_of a t p -> 0 < held a p).

(** The scenario of the specification's section 8 *)
Definition scenario_places : list string := ["p1"; "p2"; "p3"].
Definition scenario_transitions : list string := ["t1"; "t2"].
Definition scenario_arcs : list (string * string) := [("p1", "t1"); ("t1", "p2"); ("p2", "t2")].
Definition scenario_marking : list (string * Z) := [("p1", 1); ("p2", 0); ("p3", 2)].

(** A concrete iteration order for sets: first occurrences, in order. *)
Fixpoint first_occurrences (xs : list string) : list string :=
  match xs with
  | [] => []
  | x :: rest => x :: filter (fun y => negb (String.eqb y x)) (first_occurrences rest)
  end.

(** The analyzer after the scenario is loaded into a fresh one. *)
Definition scenario_loaded : PetriNetAnalyzer :=
  fst (load_network first_occurrences scenario_places scenario_transitions
         scenario_arcs scenario_marking new_analyzer).

End TP1Test.

(** ** Comparing the two variants of the net classes *)

(** Two calls with the same arguments; the random draws may differ. *)
Definition same_call (c1 c2 : call) : Prop :=
  match c1, c2 with
  | AddPlace n1 k1 _, AddPlace n2 k2 _ => n1 = n2 /\ k1 = k2
  | AddTransition n1 _, AddTransition n2 _ => n1 = n2
  | AddArc s1 t1 w1, AddArc s2 t2 w2 => s1 = s2 /\ t1 = t2 /\ w1 = w2
  | _, _ => False
  end.

(** A call that passes no negative token count. *)
Definition nonneg_call (c : call) : Prop :=
  match c with
  | AddPlace _ tokens _ => 0 <= tokens
  | _ => True
  end.

(** The same dictionary with each value translated. *)
Definition map_values {A B : Type} (f : A -> B) (d : Dict.t A) : Dict.t B :=
  map (fun kv => (fst kv, f (snd kv))) d.

Definition as_tp101_place (p : PetriNetSimple.Place) : TP101.Place :=
  {| TP101.p_name := PetriNetSimple.p_name p; TP101.tokens := PetriNetSimple.tokens p |}.

Definition as_tp101_transition (t : PetriNetSimple.Transition) : TP101.Transition :=
  {| TP101.t_name := PetriNetSimple.t_name t;
     TP101.input_arcs := PetriNetSimple.input_arcs t;
     TP101.output_arcs := PetriNetSimple.output_arcs t |}.

(** The three components that the two variants are compared on. *)
Definition same_net (n1 : PetriNetSimple.PetriNet) (n2 : TP101.PetriNet) : Prop :=
  TP101.places n2 = map_values as_tp101_place (PetriNetSimple.places n1) /\
  TP101.transitions n2 = map_values as_tp101_transition (PetriNetSimple.transitions n1) /\
  TP101.arcs n2 = PetriNetSimple.arcs n1.

(** ** Invariants of a net under construction *)

Module SimpleInv.
Import PetriNetSimple.

(** Each place is stored under its own name. *)
Definition named (net : PetriNet) : Prop :=
  forall k p, In (k, p) (Dict.items (places net)) -> p_name p = k.

(** Each place named by an arc map of a transition of the net is a place of
    the net. *)
Definition closed (net : PetriNet) : Prop :=
  forall k t, In (k, t) (Dict.items (transitions net)) ->
  forall pn, In pn (Dict.keys (input_arcs t)) \/ In pn (Dict.keys (output_arcs t)) ->
  In pn (Dict.keys (places net)).

(** No place holds a negative number of tokens. *)
Definition nonneg (net : PetriNet) : Prop :=
  forall k p, In (k, p) (Dict.items (places net)) -> 0 <= tokens p.

End SimpleInv.

(** ** Sample inputs *)

Definition origin : Pos := mkPos 0 0.

Definition corner : Pos := mkPos (1 # 2) (-1 # 4).

(** Two places and nothing else. *)
Definition two_places : list call :=
  [AddPlace "p1" 1 origin; AddPlace "p2" 0 origin].

(** Places [p1] with one token and [p2] with none, transition [t1], arcs
    from [p1] to [t1] and from [t1] to [p2], each of weight 1. *)
Definition small_net (r : Pos) : list call :=
  [AddPlace "p1" 1 r; AddPlace "p2" 0 r; AddTransition "t1" r;
   AddArc "p1" "t1" 1; AddArc "t1" "p2" 1].

(** ** What a sequence of calls is expected to leave in the net *)

Module Expected.

(** The arcs passed to [add_arc], in the order of the calls. *)
Fixpoint arc_calls (cs : list call) : list (string * string * Z) :=
  match cs with
  | [] => []
  | AddArc source target weight :: rest => (source, target, weight) :: arc_calls rest
  | _ :: rest => arc_calls rest
  end.

(** The token count passed by the last [add_place] under [name], if any;
    [seen] is the count found so far. *)
Fixpoint last_tokens (name : string) (cs : list call) (seen : option Z) : option Z :=
  match cs with
  | [] => seen
  | AddPlace n k _ :: rest =>
      last_tokens name rest (if String.eqb name n then Some k else seen)
  | _ :: rest => last_tokens name rest seen
  end.

End Expected.

(** Each entry of an arc map of a transition was passed to [add_arc] with
    the key under which the transition is stored. *)
Definition maps_within_arcs (net : PetriNetSimple.PetriNet) : Prop :=
  forall k t, In (k, t) (Dict.items (PetriNetSimple.transitions net)) ->
  forall pn w,
    (In (pn, w) (Dict.items (PetriNetSimple.input_arcs t)) ->
     In (pn, k, w) (PetriNetSimple.arcs net)) /\
    (In (pn, w) (Dict.items (PetriNetSimple.output_arcs t)) ->
     In (k, pn, w) (PetriNetSimple.arcs net)).

(** The layout has a position for the nodes of the net and for nothing
    else. *)
Definition positions_cover (net : PetriNetSimple.PetriNet) : Prop :=
  forall name,
    In name (Dict.keys (PetriNetSimple.pos net)) <->
    In name (Dict.keys (PetriNetSimple.places net)) \/
    In name (Dict.keys (PetriNetSimple.transitions net)).

(** ** Reading the analyzer's graph *)

Module GraphView.
Import TP1Test.

(** [g.has_edge(u, v)] *)
Definition has_edge (g : DiGraph) (u v : string) : Prop :=
  exists out, Dict.get u (succ g) = Some out /\ In v out.

(** [g.nodes[n].get(key)] for a node [n] of the graph *)
Definition node_attr (g : DiGraph) (n key : string) : option attr :=
  match Dict.get n (node g) with
  | Some attrs => Dict.get key attrs
  | None => None
  end.

(** Each node with outgoing edges is in the node table. *)
Definition adjacency_within_nodes (g : DiGraph) : Prop :=
  forall n, In n (Dict.keys (succ g)) -> In n (Dict.keys (node g)).

(** A string that does not begin with white space. *)
Definition starts_clean (s : string) : Prop :=
  match s with
  | EmptyString => True
  | String c _ => is_space c = false
  end.

(** The marking entries with their names stripped. *)
Definition stripped_entries (marking : list (string * Z)) : list (string * Z) :=
  map (fun pv => (strip (fst pv), snd pv)) marking.

End GraphView.

(** ** Python strings *)

Module PyStr.

Definition strip : string -> string := TP1Test.strip.

(** [s.split(sep)] for a separator [sep] that is not empty.  The string is
    read from the left; [skip] counts the characters of a separator just
    found that are still to be passed over.  The head of the result is the
    piece being read. *)
Fixpoint split_from (sep s : string) (skip : nat) : list string :=
  match s with
  | EmptyString => [EmptyString]
  | String c rest =>
      match skip with
      | S k => split_from sep rest k
      | O =>
          if String.prefix sep s then
            EmptyString :: split_from sep rest (String.length sep - 1)
          else
            match split_from sep rest 0 with
            | piece :: more => String c piece :: more
            | [] => [String c EmptyString]
            end
      end
  end.

Definition split (sep s : string) : list string := split_from sep s 0.

(** [s.split()]: the maximal runs of characters that are not white space.
    The first component is the run that begins the string, empty when the
    string begins with white space. *)
Fixpoint words_from (s : string) : string * list string :=
  match s with
  | EmptyString => (EmptyString, [])
  | String c rest =>
      let (w, ws) := words_from rest in
      if TP1Test.is_space c then
        (EmptyString, match w with EmptyString => ws | _ => w :: ws end)
      else (String c w, ws)
  end.

Definition split_ws (s : string) : list string :=
  let (w, ws) := words_from s in
  match w with
  | EmptyString => ws
  | _ => w :: ws
  end.

(** [sep.join(pieces)] *)
Definition join (sep : string) (pieces : list string) : string :=
  String.concat sep pieces.

End PyStr.

(** ** The applications around the net and the analyzer

    The three files wrap their classes in a window.  What follows models the
    methods of the windows that read the entry fields or a file and drive the
    net or the analyzer; drawing, dialogs and dragging are left out.

    - An exception raised here is identified by its class; the text shown in
      the error dialog is not kept.
    - An entry field is the string that it shows.
    - [int] applied to a string and [str] applied to an integer belong to
      the interpreter and are parameters: [int_of_str s] is [None] when
      [int(s)] raises [ValueError], and [str_of_int n] is [None] when
      [str(n)] does.
    - The layout positions come from a generator: [rnd i] is its [i]-th
      draw, and the state counts the draws made. *)

Module AppRuntime.

Inductive error_class : Type :=
| ValueErrorClass
| IndexErrorClass
| KeyErrorClass.

Inductive attempt (A : Type) : Type :=
| Done (v : A)
| Failed (k : error_class).

Arguments Done {A} v.
Arguments Failed {A} k.

Definition class_of (e : exn) : error_class :=
  match e with
  | KeyError _ => KeyErrorClass
  | ValueError _ => ValueErrorClass
  end.

Definition G (S A : Type) : Type := S -> S * attempt A.

Definition unit_ {S A : Type} (v : A) : G S A := fun s => (s, Done v).

Definition then_ {S A B : Type} (c : G S A) (k : A -> G S B) : G S B :=
  fun s =>
    match c s with
    | (s', Done v) => k v s'
    | (s', Failed e) => (s', Failed e)
    end.

Definition update {S : Type} (f : S -> S) : G S unit := fun s => (f s, Done tt).

Definition read {S A : Type} (f : S -> A) : G S A := fun s => (s, Done (f s)).

Definition try_ {S A : Type} (r : attempt A) : G S A := fun s => (s, r).

Declare Scope app_scope.
Delimit Scope app_scope with app.

Notation "x <- c ;; k" := (then_ c (fun x => k))
  (at level 61, c at next level, right associativity) : app_scope.
Notation "c ;; k" := (then_ c (fun _ => k))
  (at level 61, right associativity) : app_scope.

(** [for x in xs: body(x)] *)
Fixpoint for_each {S A : Type} (xs : list A) (body : A -> G S unit) : G S unit :=
  match xs with
  | [] => unit_ tt
  | x :: rest => (body x ;; for_each rest body)%app
  end.

(** A string or an integer, as [markings.get(name, 0)] gives. *)
Inductive pyval : Type :=
| VInt (z : Z)
| VStr (s : string).

(** Truth value of a string: it is true when not empty. *)
Definition nonempty (s : string) : bool :=
  match s with
  | EmptyString => false
  | String _ _ => true
  end.

(** [parts[i]] *)
Definition item (parts : list string) (i : nat) : attempt string :=
  match nth_error parts i with
  | Some x => Done x
  | None => Failed IndexErrorClass
  end.

(** [a, b = parts] *)
Definition unpack2 (parts : list string) : attempt (string * string) :=
  match parts with
  | [a; b] => Done (a, b)
  | _ => Failed ValueErrorClass
  end.

(** [dict(pairs)] for a sequence of lists of strings: each list must have
    two elements, and a key met again takes the later value. *)
Fixpoint dict_from (pairs : list (list string)) (d : Dict.t string) : attempt (Dict.t string) :=
  match pairs with
  | [] => Done d
  | [k; v] :: rest => dict_from rest (Dict.set k v d)
  | _ :: _ => Failed ValueErrorClass
  end.

Definition dict_of_pairs (pairs : list (list string)) : attempt (Dict.t string) :=
  dict_from pairs Dict.empty.

(** [markings.get(name, 0)] *)
Definition get_or_zero (name : string) (markings : Dict.t string) : pyval :=
  match Dict.get name markings with
  | Some s => VStr s
  | None => VInt 0
  end.

Section Builtins.

Variable int_of_str : string -> option Z.

(** [int(v)] *)
Definition py_int (v : pyval) : attempt Z :=
  match v with
  | VInt z => Done z
  | VStr s =>
      match int_of_str s with
      | Some z => Done z
      | None => Failed ValueErrorClass
      end
  end.

End Builtins.

End AppRuntime.

(** ** petrinetsimple.py: the window *)

Module PetriNetSimpleApp.
Import AppRuntime.

Record PetriNetApp : Type := mkApp {
  petri_net : PetriNetSimple.PetriNet;
  places_entry : string;
  transitions_entry : string;
  arcs_entry : string;
  marking_entry : string;
  drawn : nat
}.

Definition set_petri_net (f : PetriNetSimple.PetriNet -> PetriNetSimple.PetriNet)
  (app : PetriNetApp) : PetriNetApp :=
  {| petri_net := f (petri_net app);
     places_entry := places_entry app;
     transitions_entry := transitions_entry app;
     arcs_entry := arcs_entry app;
     marking_entry := marking_entry app;
     drawn := drawn app |}.

Definition count_draw (app : PetriNetApp) : PetriNetApp :=
  {| petri_net := petri_net app;
     places_entry := places_entry app;
     transitions_entry := transitions_entry app;
     arcs_entry := arcs_entry app;
     marking_entry := marking_entry app;
     drawn := S (drawn app) |}.

(** A method of the net called on [self.petri_net]. *)
Definition on_net (c : M PetriNetSimple.PetriNet unit) : G PetriNetApp unit :=
  fun app =>
    match c (petri_net app) with
    | (net, Returns v) => (set_petri_net (fun _ => net) app, Done v)
    | (net, Raises e) => (set_petri_net (fun _ => net) app, Failed (class_of e))
    end.

Section Builtins.

Variable int_of_str : string -> option Z.
Variable rnd : nat -> Pos.

Definition add_place (name : string) (tokens : Z) : G PetriNetApp unit :=
  (i <- read drawn ;;
   update count_draw ;;
   on_net (PetriNetSimple.add_place name tokens (rnd i)))%app.

Definition add_transition (name : string) : G PetriNetApp unit :=
  (i <- read drawn ;;
   update count_draw ;;
   on_net (PetriNetSimple.add_transition name (rnd i)))%app.

(** [add_arc(src, dst)]: the weight is left to its default. *)
Definition add_arc (source target : string) : G PetriNetApp unit :=
  on_net (PetriNetSimple.add_arc source target 1).

(** The body of the [try] of [generate_network], up to the drawing. *)
Definition generate_network : G PetriNetApp unit :=
  (update (set_petri_net (fun _ => PetriNetSimple.new_net)) ;;
   marking_input <- read (fun app => PyStr.strip (marking_entry app)) ;;
   markings <-
     (if nonempty marking_input
      then try_ (dict_of_pairs (map (PyStr.split "=") (PyStr.split "," marking_input)))
      else unit_ Dict.empty) ;;
   places_input <- read (fun app => PyStr.strip (places_entry app)) ;;
   (if nonempty places_input
    then for_each (PyStr.split "," places_input)
           (fun place =>
              let name := PyStr.strip place in
              tokens <-
                (if Dict.mem name markings
                 then try_ (py_int int_of_str (get_or_zero name markings))
                 else unit_ 0) ;;
              add_place name tokens)
    else unit_ tt) ;;
   transitions_input <- read (fun app => PyStr.strip (transitions_entry app)) ;;
   (if nonempty transitions_input
    then for_each (PyStr.split "," transitions_input)
           (fun transition => add_transition (PyStr.strip transition))
    else unit_ tt) ;;
   arcs_input <- read (fun app => PyStr.strip (arcs_entry app)) ;;
   (if nonempty arcs_input
    then for_each (PyStr.split "," arcs_input)
           (fun arc =>
              sd <- try_ (unpack2 (PyStr.split "->" (PyStr.strip arc))) ;;
              add_arc (PyStr.strip (fst sd)) (PyStr.strip (snd sd)))
    else unit_ tt))%app.

End Builtins.

End PetriNetSimpleApp.

(** ** tp101.py: the window *)

Module TP101App.
Import AppRuntime.

Record PetriNetApp : Type := mkApp {
  petri_net : TP101.PetriNet;
  places_entry : string;
  transitions_entry : string;
  arcs_entry : string;
  marking_entry : string;
  drawn : nat
}.

Definition set_petri_net (f : TP101.PetriNet -> TP101.PetriNet)
  (app : PetriNetApp) : PetriNetApp :=
  {| petri_net := f (petri_net app);
     places_entry := places_entry app;
     transitions_entry := transitions_entry app;
     arcs_entry := arcs_entry app;
     marking_entry := marking_entry app;
     drawn := drawn app |}.

Definition count_draw (app : PetriNetApp) : PetriNetApp :=
  {| petri_net := petri_net app;
     places_entry := places_entry app;
     transitions_entry := transitions_entry app;
     arcs_entry := arcs_entry app;
     marking_entry := marking_entry app;
     drawn := S (drawn app) |}.

(** [entry.delete(0, tk.END)] followed by [entry.insert(0, text)], for each
    of the four entries *)
Definition set_places_entry (text : string) (app : PetriNetApp) : PetriNetApp :=
  {| petri_net := petri_net app;
     places_entry := text;
     transitions_entry := transitions_entry app;
     arcs_entry := arcs_entry app;
     marking_entry := marking_entry app;
     drawn := drawn app |}.

Definition set_transitions_entry (text : string) (app : PetriNetApp) : PetriNetApp :=
  {| petri_net := petri_net app;
     places_entry := places_entry app;
     transitions_entry := text;
     arcs_entry := arcs_entry app;
     marking_entry := marking_entry app;
     drawn := drawn app |}.

Definition set_arcs_entry (text : string) (app : PetriNetApp) : PetriNetApp :=
  {| petri_net := petri_net app;
     places_entry := places_entry app;
     transitions_entry := transitions_entry app;
     arcs_entry := text;
     marking_entry := marking_entry app;
     drawn := drawn app |}.

Definition set_marking_entry (text : string) (app : PetriNetApp) : PetriNetApp :=
  {| petri_net := petri_net app;
     places_entry := places_entry app;
     transitions_entry := transitions_entry app;
     arcs_entry := arcs_entry app;
     marking_entry := text;
     drawn := drawn app |}.

(** A method of the net called on [self.petri_net]. *)
Definition on_net (c : M TP101.PetriNet unit) : G PetriNetApp unit :=
  fun app =>
    match c (petri_net app) with
    | (net, Returns v) => (set_petri_net (fun _ => net) app, Done v)
    | (net, Raises e) => (set_petri_net (fun _ => net) app, Failed (class_of e))
    end.

Section Builtins.

Variable int_of_str : string -> option Z.
Variable str_of_int : Z -> option string.
Variable rnd : nat -> Pos.

Definition add_place (name : string) (tokens : Z) : G PetriNetApp unit :=
  (i <- read drawn ;;
   update count_draw ;;
   on_net (TP101.add_place name tokens (rnd i)))%app.

Definition add_transition (name : string) : G PetriNetApp unit :=
  (i <- read drawn ;;
   update count_draw ;;
   on_net (TP101.add_transition name (rnd i)))%app.

Definition add_arc (source target : string) (weight : Z) : G PetriNetApp unit :=
  on_net (TP101.add_arc source target weight).

(** The body of the [try] of [generate_network], up to the drawing. *)
Definition generate_network : G PetriNetApp unit :=
  (update (set_petri_net (fun _ => TP101.new_net)) ;;
   marking_input <- read (fun app => PyStr.strip (marking_entry app)) ;;
   markings <-
     (if nonempty marking_input
      then try_ (dict_of_pairs (map (PyStr.split "=") (PyStr.split "," marking_input)))
      else unit_ Dict.empty) ;;
   places_input <- read (fun app => PyStr.strip (places_entry app)) ;;
   (if nonempty places_input
    then for_each (PyStr.split "," places_input)
           (fun place =>
              let name := PyStr.strip place in
              tokens <- try_ (py_int int_of_str (get_or_zero name markings)) ;;
              add_place name tokens)
    else unit_ tt) ;;
   transitions_input <- read (fun app => PyStr.strip (transitions_entry app)) ;;
   (if nonempty transitions_input
    then for_each (PyStr.split "," transitions_input)
           (fun transition => add_transition (PyStr.strip transition))
    else unit_ tt) ;;
   arcs_input <- read (fun app => PyStr.strip (arcs_entry app)) ;;
   (if nonempty arcs_input
    then for_each (PyStr.split "," arcs_input)
           (fun arc =>
              sd <- try_ (unpack2 (PyStr.split "->" (PyStr.strip arc))) ;;
              add_arc (PyStr.strip (fst sd)) (PyStr.strip (snd sd)) 1)
    else unit_ tt))%app.

(** [int(parts[3]) if len(parts) > 3 else default] *)
Definition fourth_or (parts : list string) (default : Z) : attempt Z :=
  if (3 <? List.length parts)%nat
  then match item parts 3 with
       | Done s => py_int int_of_str (VStr s)
       | Failed k => Failed k
       end
  else Done default.

(** The body of the loop of [load_net_file] for one line of the file *)
Definition load_line (line : string) : G PetriNetApp unit :=
  let parts := PyStr.split_ws (PyStr.strip line) in
  match parts with
  | [] => unit_ tt
  | keyword :: _ =>
      if String.eqb keyword "PLACE" then
        (name <- try_ (item parts 1) ;;
         tokens <- try_ (fourth_or parts 0) ;;
         add_place name tokens)%app
      else if String.eqb keyword "TRANSITION" then
        (name <- try_ (item parts 1) ;;
         add_transition name)%app
      else if String.eqb keyword "ARC" then
        (src <- try_ (item parts 1) ;;
         dst <- try_ (item parts 2) ;;
         weight <- try_ (fourth_or parts 1) ;;
         add_arc src dst weight)%app
      else unit_ tt
  end.

(** [f"{name}={p.tokens}"] for each place, in the order of the dictionary *)
Fixpoint marking_texts (items : list (string * TP101.Place)) : attempt (list string) :=
  match items with
  | [] => Done []
  | (name, p) :: rest =>
      match str_of_int (TP101.tokens p) with
      | None => Failed ValueErrorClass
      | Some digits =>
          match marking_texts rest with
          | Done texts => Done ((name ++ "=" ++ digits) :: texts)
          | Failed k => Failed k
          end
      end
  end.

Definition _update_form_fields : G PetriNetApp unit :=
  (net <- read petri_net ;;
   update (set_places_entry "") ;;
   update (set_places_entry (PyStr.join ", " (Dict.keys (TP101.places net)))) ;;
   update (set_transitions_entry "") ;;
   update (set_transitions_entry (PyStr.join ", " (Dict.keys (TP101.transitions net)))) ;;
   update (set_arcs_entry "") ;;
   update (set_arcs_entry
             (PyStr.join ", "
                (map (fun a => fst (fst a) ++ "->" ++ snd (fst a)) (TP101.arcs net)))) ;;
   update (set_marking_entry "") ;;
   texts <- try_ (marking_texts (Dict.items (TP101.places net))) ;;
   update (set_marking_entry (PyStr.join ", " texts)))%app.

(** [load_net_file] once a file is chosen, given the lines of the file, up
    to the drawing *)
Definition load_net_file (lines : list string) : G PetriNetApp unit :=
  (update (set_petri_net (fun _ => TP101.new_net)) ;;
   for_each lines load_line ;;
   _update_form_fields)%app.

End Builtins.

End TP101App.

(** ** What the windows keep *)

Module AppView.
Import AppRuntime.

(** A call that leaves the weight of an arc at 1. *)
Definition unit_weight (c : call) : Prop :=
  match c with
  | AddArc _ _ weight => weight = 1
  | _ => True
  end.

(** A computation keeps [P]: from a state with [P] it ends in a state with
    [P], whether it fails or not. *)
Definition keeps {S A : Type} (P : S -> Prop) (c : G S A) : Prop :=
  forall s, P s -> P (fst (c s)).

(** The net of the window of petrinetsimple.py is the net of some sequence
    of calls on a fresh net. *)
Definition simple_net_built (Q : call -> Prop) (app : PetriNetSimpleApp.PetriNetApp) : Prop :=
  exists cs, Forall Q cs /\ PetriNetSimpleApp.petri_net app = PetriNetSimple.build cs.

(** The same for the window of tp101.py. *)
Definition tp101_net_built (Q : call -> Prop) (app : TP101App.PetriNetApp) : Prop :=
  exists cs, Forall Q cs /\ TP101App.petri_net app = TP101.build cs.

(** The two windows show the same entries around the same net. *)
Definition same_app (a1 : PetriNetSimpleApp.PetriNetApp) (a2 : TP101App.PetriNetApp) : Prop :=
  same_net (PetriNetSimpleApp.petri_net a1) (TP101App.petri_net a2) /\
  TP101App.places_entry a2 = PetriNetSimpleApp.places_entry a1 /\
  TP101App.transitions_entry a2 = PetriNetSimpleApp.transitions_entry a1 /\
  TP101App.arcs_entry a2 = PetriNetSimpleApp.arcs_entry a1 /\
  TP101App.marking_entry a2 = PetriNetSimpleApp.marking_entry a1.

(** Two computations, one in each window, go along: from states that agree
    they end in states that agree, with the same result. *)
Definition along {A : Type} (c1 : G PetriNetSimpleApp.PetriNetApp A)
  (c2 : G TP101App.PetriNetApp A) : Prop :=
  forall a1 a2, same_app a1 a2 ->
    same_app (fst (c1 a1)) (fst (c2 a2)) /\ snd (c1 a1) = snd (c2 a2).

End AppView.

(** ** Names that the entry fields can carry *)

Module Plain.

(** No character of [s] is [c]. *)
Fixpoint free_of (c : ascii) (s : string) : bool :=
  match s with
  | EmptyString => true
  | String x rest => negb (Ascii.eqb x c) && free_of c rest
  end.

(** No character of [s] is white space. *)
Fixpoint spaceless (s : string) : bool :=
  match s with
  | EmptyString => true
  | String x rest => negb (TP1Test.is_space x) && spaceless rest
  end.

(** A text without white space and without the marks that the entry fields
    use between their items: the comma, [=] and [>]; and not empty. *)
Definition plain (s : string) : Prop :=
  s <> EmptyString /\
  spaceless s = true /\
  free_of "," s = true /\ free_of "=" s = true /\ free_of ">" s = true.

(** A text that is not empty and that [strip] leaves alone at both ends. *)
Definition tidy (s : string) : Prop :=
  s <> EmptyString /\ GraphView.starts_clean s /\ TP1Test.rstrip s = s.

(** What [generate_network] makes of the places that the entries were
    filled from: the first keeps its count, the others have none. *)
Definition regenerated_places (items : list (string * TP101.Place)) : Dict.t TP101.Place :=
  match items with
  | [] => []
  | (name, p) :: rest =>
      (name, TP101.mkPlace name (TP101.tokens p)) ::
      map (fun np => (fst np, TP101.mkPlace (fst np) 0)) rest
  end.

(** The pieces that splitting at the commas gives back from items joined
    with a comma and a space: each but the first begins with the space. *)
Definition spaced (items : list string) : list string :=
  match items with
  | [] => []
  | x :: rest => x :: map (String " ") rest
  end.

(** The same pieces, each with the item that it was made from. *)
Definition spaced_jobs {A : Type} (text : A -> string) (items : list A) : list (string * A) :=
  match items with
  | [] => []
  | x :: rest => (text x, x) :: map (fun y => (String " " (text y), y)) rest
  end.

(** The names and token counts that [generate_network] is expected to pass
    to [add_place]. *)
Definition expected_places (items : list (string * TP101.Place)) : list (string * Z) :=
  match items with
  | [] => []
  | (name, p) :: rest => (name, TP101.tokens p) :: map (fun np => (fst np, 0)) rest
  end.

(** The four entries of the window of tp101.py. *)
Definition entries (app : TP101App.PetriNetApp) : string * string * string * string :=
  (TP101App.places_entry app, TP101App.transitions_entry app,
   TP101App.arcs_entry app, TP101App.marking_entry app).

(** The token count of each place prints to a plain text that reads back
    as the same count, as [str] and [int] do. *)
Definition printable (int_of_str : string -> option Z) (str_of_int : Z -> option string)
  (items : list (string * TP101.Place)) : Prop :=
  forall n p, In (n, p) items ->
  exists v, str_of_int (TP101.tokens p) = Some v /\ plain v /\
            int_of_str v = Some (TP101.tokens p).

(** The text of a place in the marking entry, given the digits of its
    token count. *)
Definition row_text (row : string * string) : string := fst row ++ "=" ++ snd row.

(** The text of an arc in the arcs entry. *)
Definition arc_text (a : string * string * Z) : string :=
  fst (fst a) ++ "->" ++ snd (fst a).

(** The arcs with their weights set to 1. *)
Definition unit_arcs (arcs : list (string * string * Z)) : list (string * string * Z) :=
  map (fun a => (fst (fst a), snd (fst a), 1)) arcs.

End Plain.

(** ** Sample data for the windows *)

Module Samples.

(** Plain decimal numerals, read and printed: a stand-in for [int] and
    [str] where they have to be run. *)
Definition read_decimal (s : string) : option Z :=
  option_map Z.of_int (NilZero.int_of_string s).

Definition print_decimal (z : Z) : option string :=
  Some (NilZero.string_of_int (Z.to_int z)).

Definition fixed_draws : nat -> Pos := fun _ => origin.

Definition other_draws : nat -> Pos := fun _ => corner.

(** Two marked places, a transition and two arcs, one of weight 2. *)
Definition marked_calls : list call :=
  [AddPlace "p1" 5 origin; AddPlace "p2" 3 origin; AddTransition "t1" origin;
   AddArc "p1" "t1" 2; AddArc "t1" "p2" 1].

(** The window of tp101.py around that net, its entries still empty. *)
Definition marked_window : TP101App.PetriNetApp :=
  TP101App.mkApp (TP101.build marked_calls) "" "" "" "" 3.

(** The two windows with the entries as a user types them. *)
Definition typed_simple : PetriNetSimpleApp.PetriNetApp :=
  PetriNetSimpleApp.mkApp PetriNetSimple.new_net
    "p1, p2" "t1" "p1->t1, t1->p2" "p1=1,p2=0" 0.

Definition typed_tp101 : TP101App.PetriNetApp :=
  TP101App.mkApp (TP101.build marked_calls)
    "p1, p2" "t1" "p1->t1, t1->p2" "p1=1,p2=0" 3.

(** The lines of a net file. *)
Definition sample_lines : list string :=
  ["PLACE p1 at 5"; "PLACE p2 3"; ""; "# a remark"; "TRANSITION t1";
   "ARC p1 t1 2"; "ARC t1 p2"].

End Samples.

(** ** tp1test.py: the window *)

Module TP1TestGui.
Import AppRuntime.

(** The analyzer of the window and the text of its four entries. *)
Record PetriNetGUI : Type := mkGUI {
  analyzer : TP1Test.PetriNetAnalyzer;
  places_entry : string;
  transitions_entry : string;
  arcs_entry : string;
  marking_entry : string
}.

Definition set_analyzer (a : TP1Test.PetriNetAnalyzer) (gui : PetriNetGUI) : PetriNetGUI :=
  {| analyzer := a;
     places_entry := places_entry gui;
     transitions_entry := transitions_entry gui;
     arcs_entry := arcs_entry gui;
     marking_entry := marking_entry gui |}.

(** The pieces between the commas that are not blank:
    [p for p in text.split(',') if p.strip()] *)
Definition pieces (text : string) : list string :=
  filter (fun p => nonempty (PyStr.strip p)) (PyStr.split "," text).

(** What [_parse_inputs] returns: places, transitions, arcs, marking. *)
Definition inputs : Type :=
  (list string * list string * list (list string) * Dict.t string)%type.

(** The body of the [try] of [_parse_inputs] *)
Definition _parse_inputs (gui : PetriNetGUI) : attempt inputs :=
  let places := map PyStr.strip (pieces (places_entry gui)) in
  let transitions := map PyStr.strip (pieces (transitions_entry gui)) in
  let arcs := map (fun a => PyStr.split "->" (PyStr.strip a)) (pieces (arcs_entry gui)) in
  match dict_of_pairs (map (PyStr.split "=") (pieces (marking_entry gui))) with
  | Failed k => Failed k
  | Done marking =>
      match places with
      | [] => Failed ValueErrorClass
      | _ :: _ =>
          match transitions with
          | [] => Failed ValueErrorClass
          | _ :: _ =>
              match arcs with
              | [] => Failed ValueErrorClass
              | _ :: _ => Done (places, transitions, arcs, marking)
              end
          end
      end
  end.

(** [[(src.strip(), dest.strip()) for src, dest in arcs]] for arcs given as
    lists *)
Fixpoint unpack_arcs (arcs : list (list string)) : attempt (list (string * string)) :=
  match arcs with
  | [] => Done []
  | arc :: rest =>
      match unpack2 arc with
      | Failed k => Failed k
      | Done (src, dest) =>
          match unpack_arcs rest with
          | Failed k => Failed k
          | Done more => Done ((PyStr.strip src, PyStr.strip dest) :: more)
          end
      end
  end.

Section Builtins.

Variable int_of_str : string -> option Z.
Variable set_of : list string -> list string.

(** [{p.strip(): int(v) for p, v in marking.items()}] for values given as
    strings; [d] is the dictionary built so far. *)
Fixpoint int_marking (items : list (string * string)) (d : Dict.t Z) : attempt (Dict.t Z) :=
  match items with
  | [] => Done d
  | (p, v) :: rest =>
      match py_int int_of_str (VStr v) with
      | Failed k => Failed k
      | Done z => int_marking rest (Dict.set (PyStr.strip p) z d)
      end
  end.

(** A method of the analyzer, with its exceptions kept by class. *)
Definition of_analyzer (c : M TP1Test.PetriNetAnalyzer unit) : G TP1Test.PetriNetAnalyzer unit :=
  fun a =>
    match c a with
    | (a', Returns v) => (a', Done v)
    | (a', Raises e) => (a', Failed (class_of e))
    end.

(** [load_network] as the window calls it: the arcs are lists of strings
    and the values of the marking are strings. *)
Definition load_network (places transitions : list string)
  (arcs : list (list string)) (marking : Dict.t string) : G TP1Test.PetriNetAnalyzer unit :=
  (update (TP1Test.set_places (set_of places)) ;;
   update (TP1Test.set_transitions (set_of transitions)) ;;
   pairs <- try_ (unpack_arcs arcs) ;;
   update (TP1Test.set_arcs pairs) ;;
   values <- try_ (int_marking (Dict.items marking) Dict.empty) ;;
   update (TP1Test.set_marking values) ;;
   of_analyzer TP1Test._validate_network ;;
   of_analyzer TP1Test._build_graph)%app.

(** [_analyze], up to the drawing: nothing is loaded when the entries do
    not parse, and the error of either step is the outcome. *)
Definition _analyze : G PetriNetGUI unit :=
  fun gui =>
    match _parse_inputs gui with
    | Failed k => (gui, Failed k)
    | Done (places, transitions, arcs, marking) =>
        let (a, r) := load_network places transitions arcs marking (analyzer gui) in
        (set_analyzer a gui, r)
    end.

End Builtins.

End TP1TestGui.

(** ** Typed data and the text that the analyzer window reads *)

Module GuiView.
Import AppRuntime.

(** An arc as the list that splitting at [->] gives. *)
Definition as_list (arc : string * string) : list string := [fst arc; snd arc].

(** The text of an arc in the arcs entry. *)
Definition pair_text (arc : string * string) : string := fst arc ++ "->" ++ snd arc.

(** The marking reads as [typed]: the same names in the same order, up to
    the white space around them, each value the integer that [int] makes of
    the text. *)
Definition reads_as (int_of_str : string -> option Z)
  (items : list (string * string)) (typed : list (string * Z)) : Prop :=
  Forall2 (fun kv kz => TP1Test.strip (fst kz) = TP1Test.strip (fst kv) /\
                        int_of_str (snd kv) = Some (snd kz))
    items typed.

(** A piece of an entry that holds the item [x]: the item, alone or behind
    a space. *)
Definition holds (piece x : string) : Prop := piece = x \/ piece = String " " x.

(** The four entries that list the given data with the separator [sep]. *)
Definition typed_entries (sep : string) (places transitions : list string)
  (arcs : list (string * string)) (rows : list (string * string)) :
  string * string * string * string :=
  (PyStr.join sep places, PyStr.join sep transitions,
   PyStr.join sep (map pair_text arcs), PyStr.join sep (map Plain.row_text rows)).

(** What the typed [load_network] gives, with its exception kept by
    class. *)
Definition typed_load (set_of : list string -> list string)
  (places transitions : list string) (arcs : list (string * string))
  (marking : list (string * Z)) : G TP1Test.PetriNetAnalyzer unit :=
  TP1TestGui.of_analyzer (TP1Test.load_network set_of places transitions arcs marking).

(** The analyzer after the first two assignments of [load_network]. *)
Definition with_nodes (set_of : list string -> list string)
  (places transitions : list string) (a : TP1Test.PetriNetAnalyzer) : TP1Test.PetriNetAnalyzer :=
  TP1Test.set_transitions (set_of transitions) (TP1Test.set_places (set_of places) a).

(** The entries of the window. *)
Definition gui_entries (gui : TP1TestGui.PetriNetGUI) : string * string * string * string :=
  (TP1TestGui.places_entry gui, TP1TestGui.transitions_entry gui,
   TP1TestGui.arcs_entry gui, TP1TestGui.marking_entry gui).

(** The window with the data that it opens with, typed with a space after
    each comma. *)
Definition spaced_window : TP1TestGui.PetriNetGUI :=
  TP1TestGui.mkGUI TP1Test.new_analyzer
    "p1, p2, p3" "t1, t2, t3" "p1->t1, t1->p2, p2->t2" "p1=1, p2=0, p3=2".

End GuiView.

(** ** petrinetsimple.py: the graph that is drawn *)

Module NetGraph.
Import PetriNetSimple.

(** The part of [networkx.DiGraph] that [get_networkx_graph] fills: for
    each node the value of its attribute [pos], when it has one; and for each
    node its successors in insertion order, each with the attribute [weight]
    of the edge. *)
Record DiGraph : Type := mkDiGraph {
  node : Dict.t (option Pos);
  adj : Dict.t (Dict.t Z)
}.

(** [nx.DiGraph()] *)
Definition new_graph : DiGraph := {| node := Dict.empty; adj := Dict.empty |}.

(** [G.add_node(node, pos=pos)]: a new node goes last, a node already
    there has its attribute replaced. *)
Definition add_node (g : DiGraph) (np : string * Pos) : DiGraph :=
  {| node := Dict.set (fst np) (Some (snd np)) (node g);
     adj := if Dict.mem (fst np) (adj g) then adj g
            else Dict.set (fst np) Dict.empty (adj g) |}.

(** What [add_edge] does first with each of its ends: an end that is not a
    node yet becomes one, without attributes. *)
Definition touch (n : string) (g : DiGraph) : DiGraph :=
  if Dict.mem n (adj g) then g
  else {| node := Dict.set n None (node g); adj := Dict.set n Dict.empty (adj g) |}.

(** [G.add_edge(src, dst, weight=weight)]: an edge already there keeps its
    place among the successors and has its attribute replaced. *)
Definition add_edge (g : DiGraph) (a : string * string * Z) : DiGraph :=
  let '(u, v, w) := a in
  let g := touch v (touch u g) in
  {| node := node g;
     adj := Dict.set u (Dict.set v w (Dict.get_default u Dict.empty (adj g))) (adj g) |}.

Definition get_networkx_graph (net : PetriNet) : DiGraph :=
  fold_left add_edge (arcs net) (fold_left add_node (Dict.items (pos net)) new_graph).

(** [G.nodes()] *)
Definition nodes (g : DiGraph) : list string := Dict.keys (node g).

(** [G.edges()] *)
Definition edges (g : DiGraph) : list (string * string) :=
  flat_map (fun uo => map (fun vw => (fst uo, fst vw)) (snd uo)) (adj g).

(** [G[u][v]['weight']], when [G] has the edge *)
Definition weight (g : DiGraph) (u v : string) : option Z :=
  match Dict.get u (adj g) with
  | Some out => Dict.get v out
  | None => None
  end.

(** [nx.get_node_attributes(G, 'pos')] *)
Definition get_node_attributes_pos (g : DiGraph) : Dict.t Pos :=
  flat_map (fun na => match snd na with
                      | Some p => [(fst na, p)]
                      | None => []
                      end) (node g).

(** In [_draw_network]:
    [[node for node in G.nodes() if node in self.petri_net.places]] *)
Definition place_nodes (net : PetriNet) (g : DiGraph) : list string :=
  filter (fun n => Dict.mem n (places net)) (nodes g).

(** [[node for node in G.nodes() if node in self.petri_net.transitions]] *)
Definition transition_nodes (net : PetriNet) (g : DiGraph) : list string :=
  filter (fun n => Dict.mem n (transitions net)) (nodes g).

End NetGraph.

(** ** Reading the drawn graph *)

Module NetGraphView.
Import PetriNetSimple.

(** [name] is an end of a recorded arc. *)
Definition arc_end (net : PetriNet) (name : string) : Prop :=
  exists a, In a (arcs net) /\ (name = fst (fst a) \/ name = snd (fst a)).

(** The weight of the last arc from [u] to [v] in the list, after [acc]. *)
Definition last_weight_from (u v : string) (acc : option Z)
  (arcs : list (string * string * Z)) : option Z :=
  fold_left (fun acc a =>
               if String.eqb u (fst (fst a)) && String.eqb v (snd (fst a))
               then Some (snd a) else acc) arcs acc.

Definition last_weight (u v : string) (arcs : list (string * string * Z)) : option Z :=
  last_weight_from u v None arcs.

(** The tables of a graph have the same keys, each once, and so has each
    table of successors. *)
Definition well_kept (g : NetGraph.DiGraph) : Prop :=
  NoDup (Dict.keys (NetGraph.node g)) /\
  NoDup (Dict.keys (NetGraph.adj g)) /\
  (forall u out, In (u, out) (NetGraph.adj g) -> NoDup (Dict.keys out)) /\
  (forall n, In n (Dict.keys (NetGraph.node g)) <-> In n (Dict.keys (NetGraph.adj g))).

End NetGraphView.

(** * Properties *)

(** ** Dictionaries *)

Module DictFacts.

Lemma get_set_same {V : Type} (k : string) (v : V) (d : Dict.t V) :
  Dict.get k (Dict.set k v d) = Some v.
Proof.
  induction d as [|[k' v'] rest IH]; simpl.
  - now rewrite String.eqb_refl.
  - destruct (String.eqb k k') eqn:E; simpl; rewrite E; auto.
Qed.

Lemma get_set_other {V : Type} (k k' : string) (v : V) (d : Dict.t V) :
  k <> k' -> Dict.get k' (Dict.set k v d) = Dict.get k' d.
Proof.
  intros Hne. induction d as [|[k0 v0] rest IH]; simpl.
  - destruct (String.eqb k' k) eqn:E; auto.
    apply String.eqb_eq in E. congruence.
  - destruct (String.eqb k k0) eqn:E; simpl.
    + apply String.eqb_eq in E. subst k0.
      destruct (String.eqb k' k) eqn:E'; auto.
      apply String.eqb_eq in E'. congruence.
    + now rewrite IH.
Qed.

Lemma get_In {V : Type} (k : string) (v : V) (d : Dict.t V) :
  Dict.get k d = Some v -> In (k, v) d.
Proof.
  induction d as [|[k' v'] rest IH]; simpl; [discriminate|].
  destruct (String.eqb k k') eqn:E.
  - apply String.eqb_eq in E. intros [= ->]. left. now subst.
  - auto.
Qed.

Lemma mem_keys {V : Type} (k : string) (d : Dict.t V) :
  Dict.mem k d = true <-> In k (Dict.keys d).
Proof.
  unfold Dict.mem. induction d as [|[k' v'] rest IH]; simpl.
  - split; [discriminate | tauto].
  - destruct (String.eqb k k') eqn:E.
    + apply String.eqb_eq in E. split; auto.
    + apply String.eqb_neq in E. rewrite IH. split; [auto|].
      intros [H|H]; [congruence | assumption].
Qed.

Lemma mem_get {V : Type} (k : string) (d : Dict.t V) :
  Dict.mem k d = true <-> exists v, Dict.get k d = Some v.
Proof.
  unfold Dict.mem. destruct (Dict.get k d) as [v|].
  - split; eauto.
  - split; [discriminate | intros [v H]; discriminate].
Qed.

Lemma In_set {V : Type} (k k' : string) (v v' : V) (d : Dict.t V) :
  In (k', v') (Dict.set k v d) -> (k' = k /\ v' = v) \/ In (k', v') d.
Proof.
  induction d as [|[k0 v0] rest IH]; simpl.
  - intros [[= <- <-]|[]]. auto.
  - destruct (String.eqb k k0) eqn:E; simpl.
    + apply String.eqb_eq in E. subst k0.
      intros [[= <- <-]|H]; auto.
    + intros [H|H]; auto. destruct (IH H); auto.
Qed.

Lemma keys_set {V : Type} (k k' : string) (v : V) (d : Dict.t V) :
  In k' (Dict.keys (Dict.set k v d)) <-> k' = k \/ In k' (Dict.keys d).
Proof.
  unfold Dict.keys. induction d as [|[k0 v0] rest IH]; simpl.
  - intuition.
  - destruct (String.eqb k k0) eqn:E; simpl.
    + apply String.eqb_eq in E. subst k0. intuition.
    + rewrite IH. intuition.
Qed.

Lemma mem_set {V : Type} (k k' : string) (v : V) (d : Dict.t V) :
  Dict.mem k' (Dict.set k v d) = String.eqb k' k || Dict.mem k' d.
Proof.
  unfold Dict.mem. destruct (String.eqb k' k) eqn:E; simpl.
  - apply String.eqb_eq in E. subst k'. now rewrite get_set_same.
  - apply String.eqb_neq in E. rewrite get_set_other; auto.
Qed.

Lemma In_values {V : Type} (v : V) (d : Dict.t V) :
  In v (Dict.values d) <-> exists k, In (k, v) d.
Proof.
  unfold Dict.values. rewrite in_map_iff. split.
  - intros [[k v'] [E H]]. simpl in E. subst. eauto.
  - intros [k H]. exists (k, v). auto.
Qed.

Lemma get_map_values {A B : Type} (f : A -> B) (k : string) (d : Dict.t A) :
  Dict.get k (map_values f d) = option_map f (Dict.get k d).
Proof.
  induction d as [|[k' v'] rest IH]; simpl; auto.
  destruct (String.eqb k k'); auto.
Qed.

Lemma mem_map_values {A B : Type} (f : A -> B) (k : string) (d : Dict.t A) :
  Dict.mem k (map_values f d) = Dict.mem k d.
Proof.
  unfold Dict.mem. rewrite get_map_values. now destruct (Dict.get k d).
Qed.

Lemma set_map_values {A B : Type} (f : A -> B) (k : string) (v : A) (d : Dict.t A) :
  Dict.set k (f v) (map_values f d) = map_values f (Dict.set k v d).
Proof.
  induction d as [|[k' v'] rest IH]; simpl; auto.
  destruct (String.eqb k k'); simpl; auto. now rewrite IH.
Qed.

Lemma values_map_values {A B : Type} (f : A -> B) (d : Dict.t A) :
  Dict.values (map_values f d) = map f (Dict.values d).
Proof.
  unfold Dict.values, map_values. rewrite !map_map. reflexivity.
Qed.

End DictFacts.

(** ** The net of petrinetsimple.py *)

Module SimpleFacts.
Import PetriNetSimple SimpleInv.

Lemma add_place_eq (name : string) (k : Z) (r : Pos) (net : PetriNet) :
  add_place name k r net =
  ({| places := Dict.set name (mkPlace name k) (places net);
      transitions := transitions net;
      arcs := arcs net;
      pos := Dict.set name r (pos net) |}, Returns tt).
Proof. reflexivity. Qed.

Lemma add_transition_eq (name : string) (r : Pos) (net : PetriNet) :
  add_transition name r net =
  ({| places := places net;
      transitions := Dict.set name (new_transition name) (transitions net);
      arcs := arcs net;
      pos := Dict.set name r (pos net) |}, Returns tt).
Proof. reflexivity. Qed.

(** The three ways in which [add_arc] ends. *)
Lemma add_arc_cases (source target : string) (w : Z) (net : PetriNet) :
  let appended := (arcs net ++ [(source, target, w)])%list in
  (exists t p,
      Dict.get target (transitions net) = Some t /\
      Dict.get source (places net) = Some p /\
      add_arc source target w net =
      ({| places := places net;
          transitions := Dict.set target (add_input_arc t p w) (transitions net);
          arcs := appended; pos := pos net |}, Returns tt)) \/
  (exists t p,
      Dict.get source (transitions net) = Some t /\
      Dict.get target (places net) = Some p /\
      add_arc source target w net =
      ({| places := places net;
          transitions := Dict.set source (add_output_arc t p w) (transitions net);
          arcs := appended; pos := pos net |}, Returns tt)) \/
  (Dict.mem source (places net) && Dict.mem target (transitions net) = false /\
   Dict.mem source (transitions net) && Dict.mem target (places net) = false /\
   add_arc source target w net =
   ({| places := places net; transitions := transitions net;
       arcs := appended; pos := pos net |}, Returns tt)).
Proof.
  intros appended. unfold add_arc, bind, modify, gets, ret. simpl.
  destruct (Dict.mem source (places net) && Dict.mem target (transitions net)) eqn:E1.
  - left. apply andb_prop in E1. destruct E1 as [Hs Ht].
    apply DictFacts.mem_get in Hs. apply DictFacts.mem_get in Ht.
    destruct Hs as [p Hp]. destruct Ht as [t Ht].
    exists t, p. rewrite Hp, Ht. auto.
  - right.
    destruct (Dict.mem source (transitions net) && Dict.mem target (places net)) eqn:E2.
    + left. apply andb_prop in E2. destruct E2 as [Hs Ht].
      apply DictFacts.mem_get in Hs. apply DictFacts.mem_get in Ht.
      destruct Hs as [t Ht']. destruct Ht as [p Hp].
      exists t, p. rewrite Hp, Ht'. auto.
    + right. auto.
Qed.

Lemma perform_returns (c : call) (net : PetriNet) :
  snd (perform c net) = Returns tt.
Proof.
  destruct c as [name k r|name r|source target w]; simpl; auto.
  destruct (add_arc_cases source target w net)
    as [(t & p & _ & _ & E)|[(t & p & _ & _ & E)|(_ & _ & E)]];
    now rewrite E.
Qed.

Lemma perform_all_cons (c : call) (cs : list call) (net : PetriNet) :
  perform_all (c :: cs) net = perform_all cs (fst (perform c net)).
Proof.
  simpl. unfold bind. pose proof (perform_returns c net) as H.
  destruct (perform c net) as [net' o]. simpl in *. now subst o.
Qed.

Lemma perform_all_returns (cs : list call) (net : PetriNet) :
  snd (perform_all cs net) = Returns tt.
Proof.
  revert net. induction cs as [|c cs IH]; intros net; [reflexivity|].
  rewrite perform_all_cons. apply IH.
Qed.

(** A property kept by each admitted call holds of the net after all of
    them. *)
Lemma perform_all_keeps (Q : call -> Prop) (P : PetriNet -> Prop) :
  (forall c net, Q c -> P net -> P (fst (perform c net))) ->
  forall cs net, Forall Q cs -> P net -> P (fst (perform_all cs net)).
Proof.
  intros step cs. induction cs as [|c cs IH]; intros net HQ HP; [exact HP|].
  rewrite perform_all_cons. inversion HQ; subst. apply IH; auto.
Qed.

Lemma build_keeps (P : PetriNet -> Prop) :
  P new_net ->
  (forall c net, P net -> P (fst (perform c net))) ->
  forall cs, P (build cs).
Proof.
  intros H0 step cs. unfold build.
  apply (perform_all_keeps (fun _ => True)); auto.
  apply Forall_forall. auto.
Qed.

Lemma perform_named (c : call) (net : PetriNet) :
  named net -> named (fst (perform c net)).
Proof.
  unfold named. intros H.
  destruct c as [name k r|name r|source target w]; simpl.
  - intros k' p Hin. apply DictFacts.In_set in Hin.
    destruct Hin as [[-> ->]|Hin]; auto.
  - exact H.
  - destruct (add_arc_cases source target w net)
      as [(t & p & _ & _ & E)|[(t & p & _ & _ & E)|(_ & _ & E)]];
      rewrite E; exact H.
Qed.

Lemma add_arc_input_closed (source target : string) (w : Z) (net : PetriNet)
  (t : Transition) (p : Place) :
  named net -> closed net ->
  Dict.get target (transitions net) = Some t ->
  Dict.get source (places net) = Some p ->
  forall k t', In (k, t') (Dict.set target (add_input_arc t p w) (transitions net)) ->
  forall pn, In pn (Dict.keys (input_arcs t')) \/ In pn (Dict.keys (output_arcs t')) ->
  In pn (Dict.keys (places net)).
Proof.
  intros Hn Hc Ht Hp k t' Hin pn Hpn.
  apply DictFacts.get_In in Ht. pose proof (DictFacts.get_In _ _ _ Hp) as Hp'.
  apply DictFacts.In_set in Hin. destruct Hin as [[-> ->]|Hin].
  - simpl in Hpn. rewrite DictFacts.keys_set in Hpn.
    destruct Hpn as [[->|Hpn]|Hpn].
    + rewrite (Hn _ _ Hp'). apply DictFacts.mem_keys, DictFacts.mem_get. eauto.
    + apply (Hc _ _ Ht). auto.
    + apply (Hc _ _ Ht). auto.
  - apply (Hc _ _ Hin). exact Hpn.
Qed.

Lemma add_arc_output_closed (source target : string) (w : Z) (net : PetriNet)
  (t : Transition) (p : Place) :
  named net -> closed net ->
  Dict.get source (transitions net) = Some t ->
  Dict.get target (places net) = Some p ->
  forall k t', In (k, t') (Dict.set source (add_output_arc t p w) (transitions net)) ->
  forall pn, In pn (Dict.keys (input_arcs t')) \/ In pn (Dict.keys (output_arcs t')) ->
  In pn (Dict.keys (places net)).
Proof.
  intros Hn Hc Ht Hp k t' Hin pn Hpn.
  apply DictFacts.get_In in Ht. pose proof (DictFacts.get_In _ _ _ Hp) as Hp'.
  apply DictFacts.In_set in Hin. destruct Hin as [[-> ->]|Hin].
  - simpl in Hpn. rewrite DictFacts.keys_set in Hpn.
    destruct Hpn as [Hpn|[->|Hpn]].
    + apply (Hc _ _ Ht). auto.
    + rewrite (Hn _ _ Hp'). apply DictFacts.mem_keys, DictFacts.mem_get. eauto.
    + apply (Hc _ _ Ht). auto.
  - apply (Hc _ _ Hin). exact Hpn.
Qed.

Lemma perform_closed (c : call) (net : PetriNet) :
  named net -> closed net -> closed (fst (perform c net)).
Proof.
  intros Hn Hc.
  destruct c as [name k r|name r|source target w]; simpl.
  - intros k' t Hin pn Hpn. simpl in *.
    apply DictFacts.keys_set. right. apply (Hc _ _ Hin). exact Hpn.
  - intros k' t Hin pn Hpn. simpl in *.
    apply DictFacts.In_set in Hin. destruct Hin as [[-> ->]|Hin].
    + simpl in Hpn. tauto.
    + apply (Hc _ _ Hin). exact Hpn.
  - destruct (add_arc_cases source target w net)
      as [(t & p & Ht & Hp & E)|[(t & p & Ht & Hp & E)|(_ & _ & E)]];
      rewrite E; unfold closed; simpl.
    + now apply (add_arc_input_closed source target w net t p).
    + now apply (add_arc_output_closed source target w net t p).
    + exact Hc.
Qed.

(** Both invariants hold of every net built from a fresh one. *)
Lemma build_named_closed (cs : list call) :
  named (build cs) /\ closed (build cs).
Proof.
  apply (build_keeps (fun net => named net /\ closed net)).
  - split; intros k x H; destruct H.
  - intros c net [Hn Hc]. split.
    + now apply perform_named.
    + now apply perform_closed.
Qed.

Lemma all_supplied_true (items : list (string * Z)) (ps : Dict.t Place) :
  all_supplied items ps = Returns true <->
  (forall name w, In (name, w) items ->
     exists p, Dict.get name ps = Some p /\ tokens p >= w).
Proof.
  induction items as [|[name w] rest IH]; simpl.
  - split; [intros _ n w []|reflexivity].
  - destruct (Dict.get name ps) as [p|] eqn:G.
    + destruct (tokens p >=? w) eqn:C.
      * rewrite IH. split.
        -- intros H n w' [[= <- <-]|Hin]; [|now apply H].
           exists p. split; [assumption|lia].
        -- intros H n w' Hin. apply H. now right.
      * split; [discriminate|].
        intros H. destruct (H name w (or_introl eq_refl)) as (p' & G' & Hge).
        rewrite G in G'. injection G' as <-. lia.
    + split; [discriminate|].
      intros H. destruct (H name w (or_introl eq_refl)) as (p' & G' & _).
      rewrite G in G'. discriminate.
Qed.

Lemma all_supplied_returns (items : list (string * Z)) (ps : Dict.t Place) :
  (forall name, In name (Dict.keys items) -> In name (Dict.keys ps)) ->
  exists b, all_supplied items ps = Returns b.
Proof.
  induction items as [|[name w] rest IH]; simpl; intros H; [eauto|].
  assert (Hm : Dict.mem name ps = true) by (apply DictFacts.mem_keys, H; auto).
  apply DictFacts.mem_get in Hm. destruct Hm as [p ->].
  destruct (tokens p >=? w); eauto.
Qed.

Lemma any_enabled_spec (ts : list Transition) (ps : Dict.t Place) :
  (forall t, In t ts -> exists b, is_enabled t ps = Returns b) ->
  exists b, any_enabled ts ps = Returns b /\
            (b = true <-> exists t, In t ts /\ is_enabled t ps = Returns true).
Proof.
  induction ts as [|t rest IH]; simpl; intros H.
  - exists false. split; [reflexivity|].
    split; [discriminate|intros (t & [] & _)].
  - destruct (H t (or_introl eq_refl)) as [b Hb]. rewrite Hb.
    destruct b.
    + exists true. split; [reflexivity|]. split; eauto.
    + destruct IH as (b & E & Hiff); [intros t' Hin; apply H; now right|].
      exists b. split; [exact E|]. rewrite Hiff. split.
      * intros (t' & Hin & Ht'). eauto.
      * intros (t' & [<-|Hin] & Ht'); [congruence|eauto].
Qed.

(** In a net that satisfies the invariants every enabling test returns. *)
Lemma closed_is_enabled_returns (net : PetriNet) (t : Transition) :
  closed net -> In t (Dict.values (transitions net)) ->
  exists b, is_enabled t (places net) = Returns b.
Proof.
  intros Hc Hin. apply DictFacts.In_values in Hin. destruct Hin as [k Hin].
  apply all_supplied_returns. intros name Hname.
  apply (Hc _ _ Hin). now left.
Qed.

Lemma is_bounded_true (net : PetriNet) :
  is_bounded net = true <-> nonneg net.
Proof.
  unfold is_bounded, nonneg. rewrite forallb_forall. split.
  - intros H k p Hin.
    assert (Hv : In p (Dict.values (places net))) by (apply DictFacts.In_values; eauto).
    apply H in Hv. lia.
  - intros H p Hin. apply DictFacts.In_values in Hin. destruct Hin as [k Hin].
    apply H in Hin. lia.
Qed.

Lemma perform_nonneg (c : call) (net : PetriNet) :
  nonneg_call c -> nonneg net -> nonneg (fst (perform c net)).
Proof.
  unfold nonneg. intros Hc H.
  destruct c as [name k r|name r|source target w]; simpl in *.
  - intros k' p Hin. apply DictFacts.In_set in Hin.
    destruct Hin as [[-> ->]|Hin]; [exact Hc|eauto].
  - exact H.
  - destruct (add_arc_cases source target w net)
      as [(t & p & _ & _ & E)|[(t & p & _ & _ & E)|(_ & _ & E)]];
      rewrite E; exact H.
Qed.

End SimpleFacts.

(** ** The net of tp101.py *)

Module TP101Facts.
Import TP101.

Lemma tp101_add_arc_cases (source target : string) (w : Z) (net : PetriNet) :
  let appended := (arcs net ++ [(source, target, w)])%list in
  (exists t p,
      Dict.get target (transitions net) = Some t /\
      Dict.get source (places net) = Some p /\
      add_arc source target w net =
      ({| places := places net;
          transitions := Dict.set target (add_input_arc t p w) (transitions net);
          arcs := appended; pos := pos net |}, Returns tt)) \/
  (exists t p,
      Dict.get source (transitions net) = Some t /\
      Dict.get target (places net) = Some p /\
      add_arc source target w net =
      ({| places := places net;
          transitions := Dict.set source (add_output_arc t p w) (transitions net);
          arcs := appended; pos := pos net |}, Returns tt)) \/
  (Dict.mem source (places net) && Dict.mem target (transitions net) = false /\
   Dict.mem source (transitions net) && Dict.mem target (places net) = false /\
   add_arc source target w net =
   ({| places := places net; transitions := transitions net;
       arcs := appended; pos := pos net |}, Returns tt)).
Proof.
  intros appended. unfold add_arc, bind, modify, gets, ret. simpl.
  destruct (Dict.mem source (places net)) eqn:Sp;
    destruct (Dict.mem target (transitions net)) eqn:Tt; simpl;
    try (left;
         apply DictFacts.mem_get in Sp; destruct Sp as [p Hp];
         apply DictFacts.mem_get in Tt; destruct Tt as [t Ht];
         exists t, p; rewrite Hp, Ht; now auto);
    right;
    (destruct (Dict.mem source (transitions net)) eqn:St;
     destruct (Dict.mem target (places net)) eqn:Tp; simpl;
     try (left;
          apply DictFacts.mem_get in St; destruct St as [t Ht];
          apply DictFacts.mem_get in Tp; destruct Tp as [p Hp];
          exists t, p; rewrite Hp, Ht; now auto);
     right; auto).
Qed.

Lemma tp101_perform_returns (c : call) (net : PetriNet) :
  snd (perform c net) = Returns tt.
Proof.
  destruct c as [name k r|name r|source target w]; simpl; auto.
  destruct (tp101_add_arc_cases source target w net)
    as [(t & p & _ & _ & E)|[(t & p & _ & _ & E)|(_ & _ & E)]];
    now rewrite E.
Qed.

Lemma tp101_perform_all_cons (c : call) (cs : list call) (net : PetriNet) :
  perform_all (c :: cs) net = perform_all cs (fst (perform c net)).
Proof.
  simpl. unfold bind. pose proof (tp101_perform_returns c net) as H.
  destruct (perform c net) as [net' o]. simpl in *. now subst o.
Qed.

End TP101Facts.

(** ** The two variants side by side *)

Module Variants.

Module S := PetriNetSimple.
Module T := TP101.

Lemma same_net_new : same_net S.new_net T.new_net.
Proof. repeat split. Qed.

Lemma same_net_add_place (name : string) (k : Z) (r1 r2 : Pos)
  (n1 : S.PetriNet) (n2 : T.PetriNet) :
  same_net n1 n2 ->
  same_net (fst (S.add_place name k r1 n1)) (fst (T.add_place name k r2 n2)).
Proof.
  intros (Hp & Ht & Ha). repeat split; simpl; auto.
  rewrite Hp. apply (DictFacts.set_map_values as_tp101_place name (S.mkPlace name k)).
Qed.

Lemma same_net_add_transition (name : string) (r1 r2 : Pos)
  (n1 : S.PetriNet) (n2 : T.PetriNet) :
  same_net n1 n2 ->
  same_net (fst (S.add_transition name r1 n1)) (fst (T.add_transition name r2 n2)).
Proof.
  intros (Hp & Ht & Ha). repeat split; simpl; auto.
  rewrite Ht.
  apply (DictFacts.set_map_values as_tp101_transition name (S.new_transition name)).
Qed.

Lemma same_net_add_arc (source target : string) (w : Z)
  (n1 : S.PetriNet) (n2 : T.PetriNet) :
  same_net n1 n2 ->
  same_net (fst (S.add_arc source target w n1)) (fst (T.add_arc source target w n2)).
Proof.
  destruct n2 as [ps2 ts2 arcs2 pos2]. intros (Hp & Ht & Ha). simpl in Hp, Ht, Ha.
  subst ps2 ts2 arcs2.
  unfold same_net, S.add_arc, T.add_arc, bind, modify, gets, ret. simpl.
  rewrite !DictFacts.mem_map_values, !DictFacts.get_map_values.
  destruct (Dict.mem source (S.places n1) && Dict.mem target (S.transitions n1)).
  - destruct (Dict.get target (S.transitions n1)) as [t|];
      destruct (Dict.get source (S.places n1)) as [p|]; simpl; auto.
    repeat split.
    apply (DictFacts.set_map_values as_tp101_transition target (S.add_input_arc t p w)).
  - destruct (Dict.mem source (S.transitions n1) && Dict.mem target (S.places n1));
      simpl; auto.
    destruct (Dict.get source (S.transitions n1)) as [t|];
      destruct (Dict.get target (S.places n1)) as [p|]; simpl; auto.
    repeat split.
    apply (DictFacts.set_map_values as_tp101_transition source (S.add_output_arc t p w)).
Qed.

Lemma same_net_perform (c1 c2 : call) (n1 : S.PetriNet) (n2 : T.PetriNet) :
  same_call c1 c2 -> same_net n1 n2 ->
  same_net (fst (S.perform c1 n1)) (fst (T.perform c2 n2)).
Proof.
  destruct c1 as [a1 k1 r1|a1 r1|s1 t1 w1], c2 as [a2 k2 r2|a2 r2|s2 t2 w2];
    simpl; try tauto.
  - intros [-> ->]. apply same_net_add_place.
  - intros ->. apply same_net_add_transition.
  - intros (-> & -> & ->). apply same_net_add_arc.
Qed.

Lemma same_net_perform_all (cs1 cs2 : list call) :
  Forall2 same_call cs1 cs2 ->
  forall n1 n2, same_net n1 n2 ->
  same_net (fst (S.perform_all cs1 n1)) (fst (T.perform_all cs2 n2)).
Proof.
  induction 1 as [|c1 c2 cs1 cs2 Hc Hcs IH]; intros n1 n2 Hn; [exact Hn|].
  rewrite SimpleFacts.perform_all_cons, TP101Facts.tp101_perform_all_cons.
  apply IH. now apply same_net_perform.
Qed.

Lemma all_supplied_same (items : list (string * Z)) (ps : Dict.t S.Place) :
  T.all_supplied items (map_values as_tp101_place ps) = S.all_supplied items ps.
Proof.
  induction items as [|[name w] rest IH]; simpl; auto.
  rewrite DictFacts.get_map_values.
  destruct (Dict.get name ps) as [p|]; simpl; auto.
  destruct (S.tokens p >=? w); auto.
Qed.

Lemma is_enabled_same (t : S.Transition) (ps : Dict.t S.Place) :
  T.is_enabled (as_tp101_transition t) (map_values as_tp101_place ps) = S.is_enabled t ps.
Proof. apply all_supplied_same. Qed.

Lemma any_enabled_same (ts : list S.Transition) (ps : Dict.t S.Place) :
  T.any_enabled (map as_tp101_transition ts) (map_values as_tp101_place ps) =
  S.any_enabled ts ps.
Proof.
  induction ts as [|t rest IH]; simpl; auto.
  rewrite is_enabled_same. destruct (S.is_enabled t ps) as [[|]|e]; auto.
Qed.

Lemma is_bounded_same (n1 : S.PetriNet) (n2 : T.PetriNet) :
  same_net n1 n2 -> T.is_bounded n2 = S.is_bounded n1.
Proof.
  intros (Hp & _ & _). unfold T.is_bounded, S.is_bounded. rewrite Hp.
  rewrite DictFacts.values_map_values.
  induction (Dict.values (S.places n1)) as [|p rest IH]; simpl; auto.
  now rewrite IH.
Qed.

Lemma has_live_transitions_same (n1 : S.PetriNet) (n2 : T.PetriNet) :
  same_net n1 n2 -> T.has_live_transitions n2 = S.has_live_transitions n1.
Proof.
  intros (Hp & Ht & _). unfold T.has_live_transitions, S.has_live_transitions.
  rewrite Hp, Ht, DictFacts.values_map_values. apply any_enabled_same.
Qed.

End Variants.

(** ** Construction of a net: arcs *)

Section Arcs.
Import PetriNetSimple.

(** C1, as it holds of the code.  [add_arc] never raises, in either variant.
    When the pair (source, target) is neither a place followed by a
    transition nor a transition followed by a place (two names known only as
    places, two known only as transitions, or an unknown endpoint), the call
    returns normally, appends (source, target, weight) to the arc list, and
    leaves the places and every transition, hence every input and output map,
    as they were. *)
Theorem add_arc_unmatched_pair (source target : string) (w : Z)
  (n1 : PetriNet) (n2 : TP101.PetriNet) :
  (snd (add_arc source target w n1) = Returns tt /\
   snd (TP101.add_arc source target w n2) = Returns tt) /\
  (Dict.mem source (places n1) && Dict.mem target (transitions n1) = false ->
   Dict.mem source (transitions n1) && Dict.mem target (places n1) = false ->
   exists n1',
     add_arc source target w n1 = (n1', Returns tt) /\
     arcs n1' = (arcs n1 ++ [(source, target, w)])%list /\
     List.length (arcs n1') = S (List.length (arcs n1)) /\
     transitions n1' = transitions n1 /\
     places n1' = places n1) /\
  (Dict.mem source (TP101.places n2) && Dict.mem target (TP101.transitions n2) = false ->
   Dict.mem source (TP101.transitions n2) && Dict.mem target (TP101.places n2) = false ->
   exists n2',
     TP101.add_arc source target w n2 = (n2', Returns tt) /\
     TP101.arcs n2' = (TP101.arcs n2 ++ [(source, target, w)])%list /\
     List.length (TP101.arcs n2') = S (List.length (TP101.arcs n2)) /\
     TP101.transitions n2' = TP101.transitions n2 /\
     TP101.places n2' = TP101.places n2).
Proof.
  split; [split|split].
  - exact (SimpleFacts.perform_returns (AddArc source target w) n1).
  - exact (TP101Facts.tp101_perform_returns (AddArc source target w) n2).
  - intros H1 H2.
    destruct (SimpleFacts.add_arc_cases source target w n1)
      as [(t & p & Gt & Gp & _)|[(t & p & Gt & Gp & _)|(_ & _ & E)]].
    + assert (Dict.mem source (places n1) = true)
        by (apply DictFacts.mem_get; eauto).
      assert (Dict.mem target (transitions n1) = true)
        by (apply DictFacts.mem_get; eauto).
      rewrite H, H0 in H1. discriminate.
    + assert (Dict.mem source (transitions n1) = true)
        by (apply DictFacts.mem_get; eauto).
      assert (Dict.mem target (places n1) = true)
        by (apply DictFacts.mem_get; eauto).
      rewrite H, H0 in H2. discriminate.
    + eexists. split; [exact E|]. simpl. repeat split.
      rewrite length_app. simpl. lia.
  - intros H1 H2.
    destruct (TP101Facts.tp101_add_arc_cases source target w n2)
      as [(t & p & Gt & Gp & _)|[(t & p & Gt & Gp & _)|(_ & _ & E)]].
    + assert (Dict.mem source (TP101.places n2) = true)
        by (apply DictFacts.mem_get; eauto).
      assert (Dict.mem target (TP101.transitions n2) = true)
        by (apply DictFacts.mem_get; eauto).
      rewrite H, H0 in H1. discriminate.
    + assert (Dict.mem source (TP101.transitions n2) = true)
        by (apply DictFacts.mem_get; eauto).
      assert (Dict.mem target (TP101.places n2) = true)
        by (apply DictFacts.mem_get; eauto).
      rewrite H, H0 in H2. discriminate.
    + eexists. split; [exact E|]. simpl. repeat split.
      rewrite length_app. simpl. lia.
Qed.

(** An arc between the two places of [two_places] is recorded without a
    change to the rest of the net. *)
Lemma add_arc_unmatched_pair_witness :
  exists n1',
    add_arc "p1" "p2" 1 (build two_places) = (n1', Returns tt) /\
    arcs n1' = (arcs (build two_places) ++ [("p1", "p2", 1)])%list /\
    List.length (arcs n1') = S (List.length (arcs (build two_places))) /\
    transitions n1' = transitions (build two_places) /\
    places n1' = places (build two_places).
Proof.
  apply (proj1 (proj2 (add_arc_unmatched_pair "p1" "p2" 1 (build two_places) TP101.new_net)));
    reflexivity.
Defined.

(** C1 as stated fails: with [p1] and [p2] both places, [add_arc] returns
    normally instead of raising, and the arc list grows from 0 to 1. *)
Lemma add_arc_between_places_is_recorded :
  let net := build two_places in
  Dict.mem "p1" (places net) = true /\
  Dict.mem "p2" (places net) = true /\
  snd (add_arc "p1" "p2" 1 net) = Returns tt /\
  List.length (arcs net) = 0%nat /\
  List.length (arcs (fst (add_arc "p1" "p2" 1 net))) = 1%nat /\
  List.length (arcs (fst (add_arc "p1" "p2" 1 net))) <> List.length (arcs net).
Proof.
  repeat split. simpl. discriminate.
Qed.

End Arcs.

(** ** Construction of a net: places and transitions *)

Section Nodes.
Import PetriNetSimple.

(** C3, as it holds of the code.  [add_place] and [add_transition] never
    raise, in either variant.  [add_place] stores a new place under the name,
    in place of a place that had it: the token count read under the name is
    the one just passed.  [add_transition] stores a transition with empty arc
    maps under the name.  Places and transitions are two name spaces: neither
    call touches the other dictionary, and both leave the nodes stored under
    other names and the arc list as they were. *)
Theorem add_node_overwrites (name other : string) (k : Z) (r : Pos)
  (n1 : PetriNet) (n2 : TP101.PetriNet) :
  (snd (add_place name k r n1) = Returns tt /\
   Dict.get name (places (fst (add_place name k r n1))) = Some (mkPlace name k) /\
   transitions (fst (add_place name k r n1)) = transitions n1 /\
   arcs (fst (add_place name k r n1)) = arcs n1 /\
   (other <> name ->
    Dict.get other (places (fst (add_place name k r n1))) = Dict.get other (places n1))) /\
  (snd (add_transition name r n1) = Returns tt /\
   Dict.get name (transitions (fst (add_transition name r n1))) =
     Some (new_transition name) /\
   places (fst (add_transition name r n1)) = places n1 /\
   arcs (fst (add_transition name r n1)) = arcs n1 /\
   (other <> name ->
    Dict.get other (transitions (fst (add_transition name r n1))) =
    Dict.get other (transitions n1))) /\
  (snd (TP101.add_place name k r n2) = Returns tt /\
   Dict.get name (TP101.places (fst (TP101.add_place name k r n2))) =
     Some (TP101.mkPlace name k) /\
   TP101.transitions (fst (TP101.add_place name k r n2)) = TP101.transitions n2 /\
   TP101.arcs (fst (TP101.add_place name k r n2)) = TP101.arcs n2 /\
   (other <> name ->
    Dict.get other (TP101.places (fst (TP101.add_place name k r n2))) =
    Dict.get other (TP101.places n2))) /\
  (snd (TP101.add_transition name r n2) = Returns tt /\
   Dict.get name (TP101.transitions (fst (TP101.add_transition name r n2))) =
     Some (TP101.new_transition name) /\
   TP101.places (fst (TP101.add_transition name r n2)) = TP101.places n2 /\
   TP101.arcs (fst (TP101.add_transition name r n2)) = TP101.arcs n2 /\
   (other <> name ->
    Dict.get other (TP101.transitions (fst (TP101.add_transition name r n2))) =
    Dict.get other (TP101.transitions n2))).
Proof.
  repeat split; simpl;
    try apply DictFacts.get_set_same;
    intros Hne; apply DictFacts.get_set_other; congruence.
Qed.

(** In [small_net], adding a place named [p1] again leaves [p2] alone. *)
Lemma add_node_overwrites_witness :
  Dict.get "p2" (places (fst (add_place "p1" 5 corner (build (small_net origin))))) =
  Dict.get "p2" (places (build (small_net origin))).
Proof.
  destruct (add_node_overwrites "p1" "p2" 5 corner (build (small_net origin)) TP101.new_net)
    as [(_ & _ & _ & _ & H) _].
  apply H. discriminate.
Defined.

(** C3 as stated fails: a second [add_place] under the name [p1] returns
    normally and the token count of [p1] goes from 1 to 5; [add_transition]
    under the name of the place [p1] returns normally too. *)
Lemma add_place_twice_overwrites :
  let net := build [AddPlace "p1" 1 origin] in
  Dict.get "p1" (places net) = Some (mkPlace "p1" 1) /\
  snd (add_place "p1" 5 origin net) = Returns tt /\
  Dict.get "p1" (places (fst (add_place "p1" 5 origin net))) = Some (mkPlace "p1" 5) /\
  Dict.get "p1" (places (fst (add_place "p1" 5 origin net))) <> Dict.get "p1" (places net) /\
  snd (add_transition "p1" origin net) = Returns tt.
Proof.
  repeat split. simpl. discriminate.
Qed.

(** C2, as it holds of the code.  [is_bounded] returns true exactly when no
    place of the net holds a negative count.  A net built from a fresh one by
    calls none of which passes a negative count to [add_place] has no
    negative count, and [is_bounded] returns true on it. *)
Theorem is_bounded_follows_token_signs (cs : list call) (net : PetriNet) :
  (is_bounded net = true <->
   forall k p, In (k, p) (Dict.items (places net)) -> 0 <= tokens p) /\
  (Forall nonneg_call cs ->
   (forall k p, In (k, p) (Dict.items (places (build cs))) -> 0 <= tokens p) /\
   is_bounded (build cs) = true).
Proof.
  split; [apply SimpleFacts.is_bounded_true|].
  intros Hcs.
  assert (H : SimpleInv.nonneg (build cs)).
  { unfold build.
    apply (SimpleFacts.perform_all_keeps nonneg_call SimpleInv.nonneg); auto.
    - intros c n. apply SimpleFacts.perform_nonneg.
    - intros k p []. }
  split; [exact H|]. now apply SimpleFacts.is_bounded_true.
Qed.

Lemma is_bounded_follows_token_signs_witness :
  is_bounded (build (small_net origin)) = true.
Proof.
  apply (proj2 (is_bounded_follows_token_signs (small_net origin) new_net)).
  unfold small_net. repeat constructor; simpl; lia.
Defined.

(** C2 as stated fails: [add_place] accepts a negative count, and
    [is_bounded] then returns false. *)
Lemma negative_tokens_unbound_the_net :
  let net := build [AddPlace "p1" (-1) origin] in
  Dict.get "p1" (places net) = Some (mkPlace "p1" (-1)) /\
  is_bounded net = false.
Proof.
  split; reflexivity.
Qed.

End Nodes.

(** ** Enabling *)

Section Enabling.
Import PetriNetSimple.

(** C9.  In every net built from a fresh one, each name that is a key of
    the input or output map of a transition of the net is a key of the places
    dictionary; hence [is_enabled], called on a transition of the net with
    the places of the net, and [has_live_transitions] return a value and
    raise no [KeyError]. *)
Theorem arc_maps_name_places (cs : list call) :
  (forall t pn,
     In t (Dict.values (transitions (build cs))) ->
     In pn (Dict.keys (input_arcs t)) \/ In pn (Dict.keys (output_arcs t)) ->
     In pn (Dict.keys (places (build cs)))) /\
  (forall t,
     In t (Dict.values (transitions (build cs))) ->
     exists b, is_enabled t (places (build cs)) = Returns b) /\
  (exists b, has_live_transitions (build cs) = Returns b).
Proof.
  destruct (SimpleFacts.build_named_closed cs) as [Hn Hc].
  split; [|split].
  - intros t pn Hin Hpn. apply DictFacts.In_values in Hin.
    destruct Hin as [k Hin]. apply (Hc _ _ Hin). exact Hpn.
  - intros t Hin. now apply SimpleFacts.closed_is_enabled_returns.
  - destruct (SimpleFacts.any_enabled_spec
                (Dict.values (transitions (build cs))) (places (build cs)))
      as (b & E & _).
    + intros t Hin. now apply SimpleFacts.closed_is_enabled_returns.
    + exists b. exact E.
Qed.

Lemma arc_maps_name_places_witness :
  In "p1" (Dict.keys (places (build (small_net origin)))).
Proof.
  apply (proj1 (arc_maps_name_places (small_net origin))
           (mkTransition "t1" [("p1", 1)] [("p2", 1)]) "p1").
  - simpl. left. reflexivity.
  - left. simpl. left. reflexivity.
Defined.

(** C5.  [is_enabled] returns true exactly when each pair (place, weight)
    of the transition's input map finds under [place] a place of the marking
    whose token count is at least [weight]; with an empty input map it
    returns true.  On a net built from a fresh one, [has_live_transitions]
    returns a value, which is true exactly when [is_enabled] returns true for
    some transition of the net. *)
Theorem is_enabled_weight_rule (t : Transition) (m : Dict.t Place) (cs : list call) :
  (is_enabled t m = Returns true <->
   forall place weight,
     In (place, weight) (Dict.items (input_arcs t)) ->
     exists p, Dict.get place m = Some p /\ tokens p >= weight) /\
  (input_arcs t = [] -> is_enabled t m = Returns true) /\
  (exists b,
     has_live_transitions (build cs) = Returns b /\
     (b = true <->
      exists t', In t' (Dict.values (transitions (build cs))) /\
                 is_enabled t' (places (build cs)) = Returns true)).
Proof.
  split; [|split].
  - apply SimpleFacts.all_supplied_true.
  - unfold is_enabled. intros ->. reflexivity.
  - apply SimpleFacts.any_enabled_spec. intros t' Hin.
    apply SimpleFacts.closed_is_enabled_returns; auto.
    apply SimpleFacts.build_named_closed.
Qed.

(** The transition [t1] of [small_net] asks one token of [p1], which holds
    one. *)
Lemma is_enabled_weight_rule_witness :
  is_enabled (mkTransition "t1" [("p1", 1)] [("p2", 1)])
    (places (build (small_net origin))) = Returns true.
Proof.
  apply (proj1 (is_enabled_weight_rule (mkTransition "t1" [("p1", 1)] [("p2", 1)])
                  (places (build (small_net origin))) [])).
  simpl. intros place weight [E|[]]. injection E as <- <-.
  exists (mkPlace "p1" 1). split; [reflexivity|simpl; lia].
Defined.

End Enabling.

(** ** The two variants agree *)

Section Agreement.

(** C8.  After two sequences of calls with the same arguments, one on the
    net of petrinetsimple.py and one on the net of tp101.py, the places, the
    transitions with their input and output maps, and the arc list are the
    same; [is_bounded] and [has_live_transitions] give the same result, and
    so does [is_enabled] on each transition. *)
Theorem variants_agree (cs1 cs2 : list call) :
  Forall2 same_call cs1 cs2 ->
  same_net (PetriNetSimple.build cs1) (TP101.build cs2) /\
  TP101.is_bounded (TP101.build cs2) = PetriNetSimple.is_bounded (PetriNetSimple.build cs1) /\
  TP101.has_live_transitions (TP101.build cs2) =
    PetriNetSimple.has_live_transitions (PetriNetSimple.build cs1) /\
  (forall t,
     TP101.is_enabled (as_tp101_transition t) (TP101.places (TP101.build cs2)) =
     PetriNetSimple.is_enabled t (PetriNetSimple.places (PetriNetSimple.build cs1))).
Proof.
  intros Hcs.
  assert (H : same_net (PetriNetSimple.build cs1) (TP101.build cs2)).
  { apply Variants.same_net_perform_all; [exact Hcs|apply Variants.same_net_new]. }
  split; [exact H|]. split; [|split].
  - now apply Variants.is_bounded_same.
  - now apply Variants.has_live_transitions_same.
  - intros t. destruct H as (Hp & _ & _). rewrite Hp.
    apply Variants.is_enabled_same.
Qed.

Lemma variants_agree_witness :
  TP101.has_live_transitions (TP101.build (small_net corner)) =
  PetriNetSimple.has_live_transitions (PetriNetSimple.build (small_net origin)).
Proof.
  apply (variants_agree (small_net origin) (small_net corner)).
  unfold small_net. repeat constructor.
Defined.

End Agreement.

(** ** The analyzer of tp1test.py *)

Section Analyzer.
Import TP1Test.

(** What is assumed of the iteration order of a set: each element of the
    source is listed, once. *)
Variable set_of : list string -> list string.
Hypothesis set_of_NoDup : forall xs, NoDup (set_of xs).
Hypothesis set_of_In : forall xs x, In x (set_of xs) <-> In x xs.

Lemma set_mem_In (x : string) (s : list string) :
  set_mem x s = true <-> In x s.
Proof.
  unfold set_mem. rewrite existsb_exists. split.
  - intros (y & Hin & E). apply String.eqb_eq in E. now subst.
  - intros Hin. exists x. split; [exact Hin|apply String.eqb_refl].
Qed.

Lemma truthy_In {A : Type} (l : list A) :
  truthy l = true <-> exists x, In x l.
Proof.
  destruct l as [|x rest]; simpl.
  - split; [discriminate|intros [x []]].
  - split; eauto.
Qed.

Lemma truthy_set_of (l : list string) : truthy (set_of l) = truthy l.
Proof.
  apply eq_true_iff_eq. rewrite !truthy_In. split; intros [x H]; exists x.
  - now apply set_of_In.
  - now apply set_of_In.
Qed.

Lemma all_marked_set_of (a : PetriNetAnalyzer) (l : list string) :
  all_marked a (set_of l) = all_marked a l.
Proof.
  apply eq_true_iff_eq. unfold all_marked. rewrite !forallb_forall.
  split; intros H x Hin; apply H; now apply set_of_In.
Qed.

(** *** Validation *)

Lemma validate_arcs_returns (ps ts : list string) (es : list (string * string)) :
  (forall src dest, In (src, dest) es ->
     (In src ps \/ In src ts) /\ (In dest ps \/ In dest ts)) ->
  validate_arcs ps ts es = Returns tt.
Proof.
  induction es as [|[src dest] rest IH]; simpl; intros H; [reflexivity|].
  destruct (H src dest (or_introl eq_refl)) as [Hs Hd].
  assert (Es : negb (set_mem src ps) && negb (set_mem src ts) = false).
  { destruct Hs as [Hs|Hs]; apply set_mem_In in Hs; rewrite Hs; simpl; auto.
    apply andb_false_r. }
  assert (Ed : negb (set_mem dest ps) && negb (set_mem dest ts) = false).
  { destruct Hd as [Hd|Hd]; apply set_mem_In in Hd; rewrite Hd; simpl; auto.
    apply andb_false_r. }
  rewrite Es, Ed. apply IH. intros s d Hin. apply H. now right.
Qed.

Lemma validate_arcs_raises (ps ts : list string) (es : list (string * string)) :
  (exists src dest, In (src, dest) es /\
     (~ (In src ps \/ In src ts) \/ ~ (In dest ps \/ In dest ts))) ->
  exists msg, validate_arcs ps ts es = Raises (ValueError msg).
Proof.
  induction es as [|[src dest] rest IH]; simpl; intros (s & d & Hin & Hbad);
    [destruct Hin|].
  destruct (negb (set_mem src ps) && negb (set_mem src ts)) eqn:Es; [eauto|].
  destruct (negb (set_mem dest ps) && negb (set_mem dest ts)) eqn:Ed; [eauto|].
  destruct Hin as [[= <- <-]|Hin].
  - exfalso.
    apply andb_false_iff in Es. apply andb_false_iff in Ed.
    rewrite !negb_false_iff, !set_mem_In in Es, Ed. tauto.
  - apply IH. eauto.
Qed.

Lemma validate_marking_returns (ps keys : list string) :
  (forall k, In k keys -> In k ps) -> validate_marking ps keys = Returns tt.
Proof.
  induction keys as [|k rest IH]; simpl; intros H; [reflexivity|].
  assert (E : set_mem k ps = true) by (apply set_mem_In, H; now left).
  rewrite E. simpl. apply IH. intros k' Hin. apply H. now right.
Qed.

Lemma validate_marking_raises (ps keys : list string) :
  (exists k, In k keys /\ ~ In k ps) ->
  exists msg, validate_marking ps keys = Raises (ValueError msg).
Proof.
  induction keys as [|k rest IH]; simpl; intros (k' & Hin & Hbad); [destruct Hin|].
  destruct (set_mem k ps) eqn:E; simpl; [|eauto].
  destruct Hin as [<-|Hin].
  - apply set_mem_In in E. contradiction.
  - apply IH. eauto.
Qed.

Lemma stripped_arcs_In (es : list (string * string)) (s d : string) :
  In (s, d) (stripped_arcs es) <->
  exists src dest, In (src, dest) es /\ s = strip src /\ d = strip dest.
Proof.
  unfold stripped_arcs. rewrite in_map_iff. split.
  - intros ([src dest] & [= <- <-] & Hin). eauto.
  - intros (src & dest & Hin & -> & ->). exists (src, dest). auto.
Qed.

Lemma fold_set_keys {V : Type} (f : string -> string) (m : list (string * V))
  (d : Dict.t V) (k : string) :
  In k (Dict.keys (fold_left (fun acc pv => Dict.set (f (fst pv)) (snd pv) acc) m d)) <->
  In k (Dict.keys d) \/ exists p v, In (p, v) m /\ k = f p.
Proof.
  revert d. induction m as [|[p v] rest IH]; intros d; simpl.
  - split; [auto|intros [H|(p & v & [] & _)]; exact H].
  - rewrite IH, DictFacts.keys_set. split.
    + intros [[->|H]|(p' & v' & Hin & ->)]; eauto 7.
    + intros [H|(p' & v' & [[= <- <-]|Hin] & ->)]; eauto 7.
Qed.

Lemma stripped_marking_keys (m : list (string * Z)) (k : string) :
  In k (Dict.keys (stripped_marking m)) <-> exists p v, In (p, v) m /\ k = strip p.
Proof.
  unfold stripped_marking. rewrite fold_set_keys. simpl. tauto.
Qed.

(** [load_network] step by step. *)
Lemma load_network_eq (ps ts : list string) (es : list (string * string))
  (m : list (string * Z)) (a0 : PetriNetAnalyzer) :
  load_network set_of ps ts es m a0 =
  let a1 := assigned set_of ps ts es m a0 in
  match validate_arcs (places a1) (transitions a1) (arcs a1) with
  | Raises e => (a1, Raises e)
  | Returns _ =>
      match validate_marking (places a1) (Dict.keys (marking a1)) with
      | Raises e => (a1, Raises e)
      | Returns _ => (with_graph_built a1, Returns tt)
      end
  end.
Proof.
  unfold load_network, _validate_network, _build_graph, bind, modify, lift, gets.
  simpl.
  destruct (validate_arcs (set_of ps) (set_of ts) (stripped_arcs es)); [|reflexivity].
  destruct (validate_marking (set_of ps) (Dict.keys (stripped_marking m)));
    reflexivity.
Qed.

(** What a successful load leaves in the fields. *)
Lemma load_network_returns (ps ts : list string) (es : list (string * string))
  (m : list (string * Z)) (a0 a : PetriNetAnalyzer) :
  load_network set_of ps ts es m a0 = (a, Returns tt) ->
  a = with_graph_built (assigned set_of ps ts es m a0).
Proof.
  rewrite load_network_eq. simpl.
  destruct (validate_arcs (set_of ps) (set_of ts) (stripped_arcs es)); [|discriminate].
  destruct (validate_marking (set_of ps) (Dict.keys (stripped_marking m)));
    [|discriminate].
  now intros [= <-].
Qed.

(** *** The two loops over the transitions *)

Lemma fold_append_filter {A : Type} (f : A -> bool) (l acc : list A) :
  fold_left (fun acc x => if f x then (acc ++ [x])%list else acc) l acc =
  (acc ++ filter f l)%list.
Proof.
  revert acc. induction l as [|x rest IH]; intros acc; simpl.
  - now rewrite app_nil_r.
  - rewrite IH. destruct (f x); [|reflexivity].
    now rewrite <- app_assoc.
Qed.

Lemma fold_count_filter {A : Type} (f : A -> bool) (l : list A) (n : Z) :
  fold_left (fun c x => if f x then c + 1 else c) l n =
  n + Z.of_nat (List.length (filter f l)).
Proof.
  revert n. induction l as [|x rest IH]; intros n; simpl.
  - lia.
  - rewrite IH. destruct (f x); simpl List.length; lia.
Qed.

Lemma get_enabled_transitions_filter (a : PetriNetAnalyzer) :
  get_enabled_transitions a =
  filter (fun t => truthy (sources_into a t) && all_marked a (sources_into a t))
    (transitions a).
Proof.
  unfold get_enabled_transitions.
  apply (fold_append_filter
           (fun t => truthy (sources_into a t) && all_marked a (sources_into a t))).
Qed.

Lemma analyze_liveness_count (a : PetriNetAnalyzer) :
  analyze_liveness set_of a =
  if truthy (transitions a)
  then (inject_Z (Z.of_nat (List.length (filter (counted_live set_of a) (transitions a)))) /
        inject_Z (Z.of_nat (List.length (transitions a))))%Q
  else 0%Q.
Proof.
  unfold analyze_liveness.
  rewrite (fold_count_filter (counted_live set_of a)). reflexivity.
Qed.

Lemma sources_into_In (a : PetriNetAnalyzer) (t p : string) :
  In p (sources_into a t) <-> input_of a t p.
Proof.
  unfold sources_into, input_of. rewrite in_map_iff. split.
  - intros ([s d] & <- & Hin). apply filter_In in Hin. simpl in Hin.
    destruct Hin as [Hin E]. apply String.eqb_eq in E. now subst.
  - intros Hin. exists (p, t). split; [reflexivity|].
    apply filter_In. split; [exact Hin|apply String.eqb_refl].
Qed.

Lemma targets_from_In (a : PetriNetAnalyzer) (t q : string) :
  In q (targets_from a t) <-> output_of a t q.
Proof.
  unfold targets_from, output_of. rewrite in_map_iff. split.
  - intros ([s d] & <- & Hin). apply filter_In in Hin. simpl in Hin.
    destruct Hin as [Hin E]. apply String.eqb_eq in E. now subst.
  - intros Hin. exists (t, q). split; [reflexivity|].
    apply filter_In. split; [exact Hin|apply String.eqb_refl].
Qed.

Lemma all_marked_held (a : PetriNetAnalyzer) (t : string) :
  all_marked a (sources_into a t) = true <->
  forall p, input_of a t p -> 0 < held a p.
Proof.
  unfold all_marked, held. rewrite forallb_forall. split.
  - intros H p Hin. apply sources_into_In in Hin. apply H in Hin. lia.
  - intros H p Hin. apply sources_into_In in Hin. apply H in Hin. lia.
Qed.

(** The test of [get_enabled_transitions] is the analyzer's enabling rule. *)
Lemma enabling_test_rule (a : PetriNetAnalyzer) (t : string) :
  truthy (sources_into a t) && all_marked a (sources_into a t) = true <->
  enabled_by_rule a t.
Proof.
  unfold enabled_by_rule. rewrite andb_true_iff, truthy_In, all_marked_held.
  split; intros [[p Hp] H]; (split; [exists p|exact H]); now apply sources_into_In.
Qed.

(** The test of [analyze_liveness] is structural liveness. *)
Lemma counted_live_rule (a : PetriNetAnalyzer) (t : string) :
  counted_live set_of a t = true <-> structurally_live a t.
Proof.
  unfold counted_live, structurally_live.
  rewrite !truthy_set_of, all_marked_set_of.
  rewrite !andb_true_iff, !truthy_In, all_marked_held.
  split.
  - intros [[[p Hp] [q Hq]] H]. split; [|split]; auto.
    + exists p. now apply sources_into_In.
    + exists q. now apply targets_from_In.
  - intros ([p Hp] & [q Hq] & H). split; [split|]; auto.
    + exists p. now apply sources_into_In.
    + exists q. now apply targets_from_In.
Qed.

Lemma counted_live_enabling_test (a : PetriNetAnalyzer) (t : string) :
  counted_live set_of a t = true ->
  truthy (sources_into a t) && all_marked a (sources_into a t) = true.
Proof.
  rewrite counted_live_rule, enabling_test_rule.
  unfold structurally_live, enabled_by_rule. tauto.
Qed.





(** A load whose stripped names are all declared returns. *)
Lemma load_network_accepts (ps ts : list string) (es : list (string * string))
  (m : list (string * Z)) (a0 : PetriNetAnalyzer) :
  (forall src dest, In (src, dest) es ->
     (In (strip src) ps \/ In (strip src) ts) /\
     (In (strip dest) ps \/ In (strip dest) ts)) ->
  (forall p v, In (p, v) m -> In (strip p) ps) ->
  load_network set_of ps ts es m a0 =
  (with_graph_built (assigned set_of ps ts es m a0), Returns tt).
Proof.
  intros Harcs Hmark. rewrite load_network_eq. cbv zeta.
  change (places (assigned set_of ps ts es m a0)) with (set_of ps).
  change (transitions (assigned set_of ps ts es m a0)) with (set_of ts).
  change (arcs (assigned set_of ps ts es m a0)) with (stripped_arcs es).
  change (marking (assigned set_of ps ts es m a0)) with (stripped_marking m).
  rewrite validate_arcs_returns.
  - rewrite validate_marking_returns; [reflexivity|].
    intros k Hk. apply stripped_marking_keys in Hk.
    destruct Hk as (p & v & Hin & ->). apply set_of_In. eauto.
  - intros s d Hin. apply stripped_arcs_In in Hin.
    destruct Hin as (src & dest & Hin & -> & ->).
    rewrite !set_of_In. apply (Harcs src dest Hin).
Qed.


(** *** Loading *)

(** C4, as it holds of the code.  The names compared with the declared
    places and transitions are the endpoints and marking names with
    surrounding white space removed.  When such an endpoint of some arc is
    neither a declared place nor a declared transition, or such a marking
    name is not a declared place, [load_network] raises [ValueError].  The
    validation comes before the graph is built: the graph is then the one
    from before the call.  The fields [places], [transitions], [arcs] and
    [marking] are assigned before the validation and hold the values of the
    failed call.  When all these names are declared, the call returns and the
    graph is rebuilt from the new fields. *)
Theorem load_network_validates (ps ts : list string) (es : list (string * string))
  (m : list (string * Z)) (a0 : PetriNetAnalyzer) :
  ((exists src dest, In (src, dest) es /\
      (~ (In (strip src) ps \/ In (strip src) ts) \/
       ~ (In (strip dest) ps \/ In (strip dest) ts))) \/
   (exists p v, In (p, v) m /\ ~ In (strip p) ps) ->
   exists a1 msg,
     load_network set_of ps ts es m a0 = (a1, Raises (ValueError msg)) /\
     graph a1 = graph a0 /\
     places a1 = set_of ps /\
     transitions a1 = set_of ts /\
     arcs a1 = stripped_arcs es /\
     marking a1 = stripped_marking m) /\
  ((forall src dest, In (src, dest) es ->
      (In (strip src) ps \/ In (strip src) ts) /\
      (In (strip dest) ps \/ In (strip dest) ts)) ->
   (forall p v, In (p, v) m -> In (strip p) ps) ->
   load_network set_of ps ts es m a0 =
   (with_graph_built (assigned set_of ps ts es m a0), Returns tt)).
Proof.
  split.
  - intros Hbad. exists (assigned set_of ps ts es m a0).
    rewrite load_network_eq. simpl.
    destruct (validate_arcs (set_of ps) (set_of ts) (stripped_arcs es))
      as [[]|e] eqn:Va.
    + destruct Hbad as [(src & dest & Hin & Hbad)|(p & v & Hin & Hbad)].
      * destruct (validate_arcs_raises (set_of ps) (set_of ts) (stripped_arcs es))
          as [msg E]; [|congruence].
        exists (strip src), (strip dest). split.
        -- apply stripped_arcs_In. eauto.
        -- rewrite !set_of_In. exact Hbad.
      * destruct (validate_marking_raises (set_of ps)
                    (Dict.keys (stripped_marking m))) as [msg E].
        -- exists (strip p). split.
           ++ apply stripped_marking_keys. eauto.
           ++ rewrite set_of_In. exact Hbad.
        -- rewrite E. exists msg. repeat split.
    + assert (Hv : exists msg, e = ValueError msg).
      { clear Hbad. revert Va.
        induction (stripped_arcs es) as [|[s d] rest IH]; simpl; [discriminate|].
        destruct (negb (set_mem s (set_of ps)) && negb (set_mem s (set_of ts)));
          [intros [= <-]; eauto|].
        destruct (negb (set_mem d (set_of ps)) && negb (set_mem d (set_of ts)));
          [intros [= <-]; eauto|].
        exact IH. }
      destruct Hv as [msg ->]. exists msg. repeat split.
  - apply load_network_accepts.
Qed.

(** *** Enabled transitions *)


(** *** Liveness *)


(** C10.  After a successful load, each transition that [analyze_liveness]
    counts, that is each structurally live declared transition, is listed by
    [get_enabled_transitions]; when [analyze_liveness] is above 0 the list is
    not empty. *)
Theorem live_transitions_are_enabled (ps ts : list string)
  (es : list (string * string)) (m : list (string * Z))
  (a0 a : PetriNetAnalyzer) :
  load_network set_of ps ts es m a0 = (a, Returns tt) ->
  (forall t, In t (transitions a) -> counted_live set_of a t = true ->
             In t (get_enabled_transitions a)) /\
  (forall t, In t ts -> structurally_live a t -> In t (get_enabled_transitions a)) /\
  ((0 < analyze_liveness set_of a)%Q -> get_enabled_transitions a <> []).
Proof.
  intros Hload. apply load_network_returns in Hload.
  assert (Hts : transitions a = set_of ts) by (subst a; reflexivity).
  assert (Hcount : forall t, In t (transitions a) -> counted_live set_of a t = true ->
                             In t (get_enabled_transitions a)).
  { intros t Hin Hlive. rewrite get_enabled_transitions_filter. apply filter_In.
    split; [exact Hin|]. now apply counted_live_enabling_test. }
  split; [exact Hcount|]. split.
  - intros t Hin Hlive. apply Hcount.
    + rewrite Hts. now apply set_of_In.
    + now apply counted_live_rule.
  - rewrite analyze_liveness_count. intros Hpos Hnil.
    destruct (truthy (transitions a)); [|discriminate Hpos].
    destruct (filter (counted_live set_of a) (transitions a)) as [|t rest] eqn:E.
    + simpl in Hpos. unfold Qdiv in Hpos. rewrite Qmult_0_l in Hpos.
      discriminate Hpos.
    + assert (Hin : In t (filter (counted_live set_of a) (transitions a)))
        by (rewrite E; now left).
      apply filter_In in Hin. destruct Hin as [Hin Hlive].
      apply (in_nil (a:=t)). rewrite <- Hnil. now apply Hcount.
Qed.

End Analyzer.

(** ** The analyzer on concrete data *)

Section AnalyzerSamples.
Import TP1Test.

Lemma first_occurrences_In (xs : list string) (x : string) :
  In x (first_occurrences xs) <-> In x xs.
Proof.
  induction xs as [|y rest IH]; simpl; [tauto|].
  rewrite filter_In, IH, negb_true_iff, String.eqb_neq.
  destruct (string_dec y x) as [->|Hne]; [tauto|].
  split; [tauto|]. intros [H|H]; [tauto|]. right. split; [exact H|congruence].
Qed.


(** An arc to the undeclared node [x] is refused; the fields are those of
    the refused call and the graph is the empty one of the fresh analyzer. *)
Lemma load_network_validates_witness :
  exists a1 msg,
    load_network first_occurrences ["p1"] ["t1"] [("p1", "x")] [] new_analyzer =
      (a1, Raises (ValueError msg)) /\
    graph a1 = graph new_analyzer /\
    places a1 = first_occurrences ["p1"] /\
    transitions a1 = first_occurrences ["t1"] /\
    arcs a1 = stripped_arcs [("p1", "x")] /\
    marking a1 = stripped_marking [].
Proof.
  apply (proj1 (load_network_validates first_occurrences first_occurrences_In
                  ["p1"] ["t1"] [("p1", "x")] [] new_analyzer)).
  left. exists "p1", "x". split; [simpl; auto|].
  right. simpl. intros [[H|[]]|[H|[]]]; discriminate H.
Defined.

(** C4 as stated fails twice.  A load refused for the undeclared node [x]
    leaves the places of the refused call in the analyzer, not those loaded
    before; and the endpoint [" t1"], which is none of the declared names, is
    accepted because it is compared after stripping. *)
Lemma failed_load_replaces_fields :
  let r := load_network first_occurrences ["p1"] ["t1"] [("p1", "x")] []
             scenario_loaded in
  snd r = Raises (ValueError "Invalid destination node in arc: x") /\
  places scenario_loaded = ["p1"; "p2"; "p3"] /\
  places (fst r) = ["p1"] /\
  places (fst r) <> places scenario_loaded /\
  ~ In " t1" (["p1"] ++ ["t1"])%list /\
  snd (load_network first_occurrences ["p1"] ["t1"] [("p1", " t1")] []
         new_analyzer) = Returns tt.
Proof.
  repeat split.
  - discriminate.
  - simpl. intros [H|[H|[]]]; discriminate H.
Qed.



Lemma live_transitions_are_enabled_witness :
  In "t1" (get_enabled_transitions scenario_loaded).
Proof.
  destruct (live_transitions_are_enabled first_occurrences first_occurrences_In
              scenario_places scenario_transitions scenario_arcs scenario_marking
              new_analyzer scenario_loaded) as [H _]; [reflexivity|].
  apply H; [simpl; auto|reflexivity].
Defined.

End AnalyzerSamples.

(** ** More on the net of petrinetsimple.py *)

Section NetBookkeeping.
Import PetriNetSimple.

Lemma perform_all_arcs (cs : list call) (net : PetriNet) :
  arcs (fst (perform_all cs net)) = (arcs net ++ Expected.arc_calls cs)%list.
Proof.
  revert net. induction cs as [|c cs IH]; intros net.
  - simpl. now rewrite app_nil_r.
  - rewrite SimpleFacts.perform_all_cons, IH.
    destruct c as [name k r|name r|source target w]; simpl Expected.arc_calls;
      try reflexivity.
    destruct (SimpleFacts.add_arc_cases source target w net)
      as [(t & p & _ & _ & E)|[(t & p & _ & _ & E)|(_ & _ & E)]];
      simpl perform; rewrite E; simpl; now rewrite <- app_assoc.
Qed.

(** X1.  The arc list of a built net is the list of the arcs passed to
    [add_arc], in the order of the calls: no arc is dropped, merged or
    reordered, whatever its endpoints. *)
Theorem arcs_record_every_call (cs : list call) :
  arcs (build cs) = Expected.arc_calls cs.
Proof.
  unfold build. now rewrite perform_all_arcs.
Qed.

Lemma perform_maps_within_arcs (c : call) (net : PetriNet) :
  SimpleInv.named net -> maps_within_arcs net ->
  maps_within_arcs (fst (perform c net)).
Proof.
  intros Hn Hm.
  destruct c as [name k r|name r|source target w]; simpl perform.
  - exact Hm.
  - intros k t Hin pn w. simpl in Hin.
    apply DictFacts.In_set in Hin. destruct Hin as [[-> ->]|Hin].
    + simpl. tauto.
    + apply (Hm k t Hin).
  - destruct (SimpleFacts.add_arc_cases source target w net)
      as [(t & p & Gt & Gp & E)|[(t & p & Gt & Gp & E)|(_ & _ & E)]];
      rewrite E; intros k t' Hin pn w'; simpl in Hin |- *;
      rewrite !in_app_iff.
    + apply DictFacts.get_In in Gt. apply DictFacts.get_In in Gp.
      apply DictFacts.In_set in Hin. destruct Hin as [[-> ->]|Hin].
      * simpl. split.
        -- intros H. apply DictFacts.In_set in H.
           destruct H as [[-> ->]|H].
           ++ right. rewrite (Hn _ _ Gp). now left.
           ++ left. now apply (Hm _ _ Gt).
        -- intros H. left. now apply (Hm _ _ Gt).
      * destruct (Hm _ _ Hin pn w'). split; auto.
    + apply DictFacts.get_In in Gt. apply DictFacts.get_In in Gp.
      apply DictFacts.In_set in Hin. destruct Hin as [[-> ->]|Hin].
      * simpl. split.
        -- intros H. left. now apply (Hm _ _ Gt).
        -- intros H. apply DictFacts.In_set in H.
           destruct H as [[-> ->]|H].
           ++ right. rewrite (Hn _ _ Gp). now left.
           ++ left. now apply (Hm _ _ Gt).
      * destruct (Hm _ _ Hin pn w'). split; auto.
    + destruct (Hm _ _ Hin pn w'). split; auto.
Qed.

(** X2.  In a built net the arc maps hold nothing that the arc list lacks:
    an entry (place, weight) of the input map of the transition stored under
    [k] is the arc (place, k, weight) of the list, and an entry of its output
    map is the arc (k, place, weight). *)
Theorem arc_maps_within_arc_list (cs : list call) :
  maps_within_arcs (build cs).
Proof.
  assert (H : SimpleInv.named (build cs) /\ maps_within_arcs (build cs)).
  { apply (SimpleFacts.build_keeps
             (fun net => SimpleInv.named net /\ maps_within_arcs net)).
    - split; intros k x [].
    - intros c net [Hn Hm]. split.
      + now apply SimpleFacts.perform_named.
      + now apply perform_maps_within_arcs. }
  apply H.
Qed.

Lemma arc_maps_within_arc_list_witness :
  In ("p1", "t1", 1) (arcs (build (small_net origin))).
Proof.
  apply (proj1 (arc_maps_within_arc_list (small_net origin) "t1"
                  (mkTransition "t1" [("p1", 1)] [("p2", 1)])
                  (or_introl eq_refl) "p1" 1)).
  simpl. left. reflexivity.
Defined.

Lemma perform_positions_cover (c : call) (net : PetriNet) :
  positions_cover net -> positions_cover (fst (perform c net)).
Proof.
  intros H.
  destruct c as [name k r|name r|source target w]; simpl perform.
  - intros n. simpl. rewrite !DictFacts.keys_set, (H n). tauto.
  - intros n. simpl. rewrite !DictFacts.keys_set, (H n). tauto.
  - destruct (SimpleFacts.add_arc_cases source target w net)
      as [(t & p & Gt & Gp & E)|[(t & p & Gt & Gp & E)|(_ & _ & E)]];
      rewrite E; intros n; simpl; rewrite ?DictFacts.keys_set, (H n);
      try tauto.
    + assert (In target (Dict.keys (transitions net)))
        by (apply DictFacts.mem_keys, DictFacts.mem_get; eauto).
      split; [tauto|]. intros [?|[->|?]]; tauto.
    + assert (In source (Dict.keys (transitions net)))
        by (apply DictFacts.mem_keys, DictFacts.mem_get; eauto).
      split; [tauto|]. intros [?|[->|?]]; tauto.
Qed.

(** X3.  In a built net a name has a layout position exactly when it is a
    place or a transition of the net; the endpoints of an arc that are
    neither have none. *)
Theorem every_node_has_a_position (cs : list call) :
  positions_cover (build cs).
Proof.
  apply (SimpleFacts.build_keeps positions_cover).
  - intros n. simpl. tauto.
  - intros c net. apply perform_positions_cover.
Qed.

Lemma perform_all_last_tokens (name : string) (cs : list call) (net : PetriNet) :
  SimpleInv.named net ->
  Dict.get name (places (fst (perform_all cs net))) =
  option_map (mkPlace name)
    (Expected.last_tokens name cs (option_map tokens (Dict.get name (places net)))).
Proof.
  revert net. induction cs as [|c cs IH]; intros net Hn.
  - simpl. destruct (Dict.get name (places net)) as [p|] eqn:G; [|reflexivity].
    simpl. apply DictFacts.get_In in G. apply Hn in G. destruct p. simpl in *.
    now subst.
  - rewrite SimpleFacts.perform_all_cons, IH
      by now apply SimpleFacts.perform_named.
    f_equal.
    destruct c as [n k r|n r|source target w]; simpl Expected.last_tokens.
    + simpl. destruct (String.eqb name n) eqn:E.
      * apply String.eqb_eq in E. subst n. now rewrite DictFacts.get_set_same.
      * apply String.eqb_neq in E. rewrite DictFacts.get_set_other; congruence.
    + reflexivity.
    + destruct (SimpleFacts.add_arc_cases source target w net)
        as [(t & p & _ & _ & E)|[(t & p & _ & _ & E)|(_ & _ & E)]];
        simpl perform; now rewrite E.
Qed.

(** X4.  What a built net holds under a name in [places] is the place with
    that name and the token count of the last [add_place] under the name; a
    name that no [add_place] passed is absent, and no later call removes a
    place. *)
Theorem place_holds_last_tokens (name : string) (cs : list call) :
  Dict.get name (places (build cs)) =
  option_map (mkPlace name) (Expected.last_tokens name cs None).
Proof.
  unfold build. rewrite perform_all_last_tokens; [reflexivity|].
  intros k p [].
Qed.

End NetBookkeeping.

(** ** More on enabling *)

Section EnablingMore.
Import PetriNetSimple.

(** X5.  Tokens never disable: a transition that [is_enabled] accepts under
    a marking is accepted under every marking that has the same places with
    at least as many tokens each. *)
Theorem is_enabled_monotone (t : Transition) (m m' : Dict.t Place) :
  (forall name p, Dict.get name m = Some p ->
     exists p', Dict.get name m' = Some p' /\ tokens p <= tokens p') ->
  is_enabled t m = Returns true ->
  is_enabled t m' = Returns true.
Proof.
  intros Hmore Hen. apply SimpleFacts.all_supplied_true.
  intros name w Hin.
  destruct (proj1 (SimpleFacts.all_supplied_true _ _) Hen name w Hin)
    as (p & G & Hge).
  destruct (Hmore name p G) as (p' & G' & Hle).
  exists p'. split; [exact G'|lia].
Qed.

Lemma is_enabled_monotone_witness :
  is_enabled (mkTransition "t1" [("p1", 1)] [("p2", 1)])
    [("p1", mkPlace "p1" 4); ("p2", mkPlace "p2" 0)] = Returns true.
Proof.
  apply (is_enabled_monotone (mkTransition "t1" [("p1", 1)] [("p2", 1)])
           (places (build (small_net origin)))).
  - intros name p. simpl.
    destruct (String.eqb name "p1").
    + intros [= <-]. eexists. split; [reflexivity|simpl; lia].
    + destruct (String.eqb name "p2"); [|discriminate].
      intros [= <-]. eexists. split; [reflexivity|simpl; lia].
  - reflexivity.
Defined.

(** X6.  On a built net [has_live_transitions] returns true as soon as some
    transition of the net has an empty input map, whatever the marking, and
    returns false when the net has no transition. *)
Theorem has_live_transitions_edge_cases (cs : list call) :
  ((exists t, In t (Dict.values (transitions (build cs))) /\ input_arcs t = []) ->
   has_live_transitions (build cs) = Returns true) /\
  (transitions (build cs) = [] ->
   has_live_transitions (build cs) = Returns false).
Proof.
  split.
  - intros (t & Hin & Hempty).
    destruct (SimpleFacts.any_enabled_spec
                (Dict.values (transitions (build cs))) (places (build cs)))
      as (b & E & Hb).
    + intros t' Hin'. apply SimpleFacts.closed_is_enabled_returns; auto.
      apply SimpleFacts.build_named_closed.
    + unfold has_live_transitions. rewrite E. f_equal. apply Hb.
      exists t. split; [exact Hin|]. unfold is_enabled. now rewrite Hempty.
  - intros E. unfold has_live_transitions. now rewrite E.
Qed.

(** A net with places and one transition without arcs counts as live. *)
Lemma has_live_transitions_edge_cases_witness :
  has_live_transitions (build (two_places ++ [AddTransition "t1" origin])) = Returns true.
Proof.
  apply (proj1 (has_live_transitions_edge_cases
                  (two_places ++ [AddTransition "t1" origin]))).
  exists (new_transition "t1"). split; [simpl; auto|reflexivity].
Defined.

End EnablingMore.

(** ** The analyzer's graph *)

Section GraphFacts.
Import TP1Test GraphView.

Lemma not_mem_keys {V : Type} (k : string) (d : Dict.t V) :
  Dict.mem k d = false <-> ~ In k (Dict.keys d).
Proof.
  rewrite <- DictFacts.mem_keys. destruct (Dict.mem k d); split; congruence.
Qed.

Lemma add_node_keys (attrs : Dict.t attr) (g : DiGraph) (n x : string) :
  In x (Dict.keys (node (add_node attrs g n))) <-> x = n \/ In x (Dict.keys (node g)).
Proof.
  unfold add_node. destruct (Dict.mem n (node g)) eqn:E; simpl.
  - rewrite DictFacts.keys_set. tauto.
  - rewrite !DictFacts.keys_set. tauto.
Qed.

Lemma add_node_get_other (attrs : Dict.t attr) (g : DiGraph) (n x : string) :
  x <> n -> Dict.get x (node (add_node attrs g n)) = Dict.get x (node g).
Proof.
  intros Hne. unfold add_node. destruct (Dict.mem n (node g)); simpl;
    rewrite ?DictFacts.get_set_other; congruence.
Qed.

Lemma add_node_get_same (attrs : Dict.t attr) (g : DiGraph) (n : string) :
  Dict.get n (node (add_node attrs g n)) =
  Some (Dict.update (Dict.get_default n Dict.empty (node g)) attrs).
Proof.
  unfold add_node. destruct (Dict.mem n (node g)) eqn:E; simpl.
  - apply DictFacts.get_set_same.
  - rewrite DictFacts.get_set_same. do 2 f_equal.
    unfold Dict.get_default. rewrite DictFacts.get_set_same.
    unfold Dict.mem in E. now destruct (Dict.get n (node g)).
Qed.

Lemma add_node_adjacency (attrs : Dict.t attr) (g : DiGraph) (n : string) :
  adjacency_within_nodes g -> adjacency_within_nodes (add_node attrs g n).
Proof.
  intros H x Hx. apply add_node_keys.
  unfold add_node in Hx. destruct (Dict.mem n (node g)); simpl in Hx.
  - right. now apply H.
  - apply DictFacts.keys_set in Hx. destruct Hx as [->|Hx]; [now left|].
    right. now apply H.
Qed.

Lemma add_node_has_edge (attrs : Dict.t attr) (g : DiGraph) (n u v : string) :
  adjacency_within_nodes g ->
  (has_edge (add_node attrs g n) u v <-> has_edge g u v).
Proof.
  intros H. unfold has_edge, add_node.
  destruct (Dict.mem n (node g)) eqn:E; simpl; [tauto|].
  apply not_mem_keys in E.
  destruct (string_dec u n) as [->|Hne].
  - rewrite DictFacts.get_set_same. split.
    + intros (out & [= <-] & []).
    + intros (out & G & _). exfalso. apply E, H.
      apply DictFacts.mem_keys, DictFacts.mem_get. eauto.
  - rewrite DictFacts.get_set_other by congruence. tauto.
Qed.

Lemma add_edge_keys (g : DiGraph) (u v x : string) :
  In x (Dict.keys (node (add_edge g (u, v)))) <->
  x = u \/ x = v \/ In x (Dict.keys (node g)).
Proof.
  unfold add_edge.
  destruct (Dict.mem u (node g)) eqn:Eu.
  - apply DictFacts.mem_keys in Eu.
    destruct (Dict.mem v (node g)) eqn:Ev; cbn [node succ].
    + apply DictFacts.mem_keys in Ev. split; [tauto|].
      intros [->|[->|?]]; assumption.
    + rewrite add_node_keys. split; [tauto|]. intros [->|[->|?]]; tauto.
  - destruct (Dict.mem v (node (add_node Dict.empty g u))) eqn:Ev; cbn [node succ].
    + apply DictFacts.mem_keys in Ev. rewrite add_node_keys in *.
      split; [tauto|]. intros [->|[->|?]]; tauto.
    + rewrite !add_node_keys. tauto.
Qed.

Lemma add_edge_get (g : DiGraph) (e : string * string) (x : string) :
  In x (Dict.keys (node g)) ->
  Dict.get x (node (add_edge g e)) = Dict.get x (node g).
Proof.
  intros Hx. destruct e as [u v]. unfold add_edge.
  assert (Hu : Dict.mem u (node g) = false -> x <> u).
  { intros E ->. apply not_mem_keys in E. contradiction. }
  destruct (Dict.mem u (node g)) eqn:Eu.
  - destruct (Dict.mem v (node g)) eqn:Ev; cbn [node succ]; [reflexivity|].
    apply add_node_get_other. intros ->. apply not_mem_keys in Ev. contradiction.
  - destruct (Dict.mem v (node (add_node Dict.empty g u))) eqn:Ev; cbn [node succ].
    + apply add_node_get_other. now apply Hu.
    + rewrite add_node_get_other.
      * apply add_node_get_other. now apply Hu.
      * intros ->. apply not_mem_keys in Ev. apply Ev, add_node_keys. now right.
Qed.

(** The graph before the last step of [add_edge]: both endpoints are
    nodes. *)
Lemma add_edge_prepared (g : DiGraph) (u v : string) :
  adjacency_within_nodes g ->
  exists g2,
    adjacency_within_nodes g2 /\
    (forall s d, has_edge g2 s d <-> has_edge g s d) /\
    In u (Dict.keys (node g2)) /\
    add_edge g (u, v) =
    {| node := node g2;
       succ := if existsb (String.eqb v) (Dict.get_default u [] (succ g2))
               then succ g2
               else Dict.set u (Dict.get_default u [] (succ g2) ++ [v])%list (succ g2) |}.
Proof.
  intros H. unfold add_edge.
  set (g1 := if Dict.mem u (node g) then g else add_node Dict.empty g u).
  assert (H1 : adjacency_within_nodes g1 /\
               (forall s d, has_edge g1 s d <-> has_edge g s d) /\
               In u (Dict.keys (node g1))).
  { unfold g1. destruct (Dict.mem u (node g)) eqn:Eu.
    - split; [exact H|]. split; [tauto|]. now apply DictFacts.mem_keys.
    - split; [now apply add_node_adjacency|]. split.
      + intros s d. now apply add_node_has_edge.
      + apply add_node_keys. now left. }
  destruct H1 as (A1 & E1 & U1).
  exists (if Dict.mem v (node g1) then g1 else add_node Dict.empty g1 v).
  destruct (Dict.mem v (node g1)) eqn:Ev.
  - repeat split; auto; apply E1.
  - split; [now apply add_node_adjacency|]. split; [|split].
    + intros s d. rewrite add_node_has_edge by exact A1. apply E1.
    + apply add_node_keys. now right.
    + reflexivity.
Qed.

Lemma existsb_eqb_In (v : string) (l : list string) :
  existsb (String.eqb v) l = true <-> In v l.
Proof.
  rewrite existsb_exists. split.
  - intros (y & Hin & E). apply String.eqb_eq in E. now subst.
  - intros Hin. exists v. split; [exact Hin|apply String.eqb_refl].
Qed.

Lemma add_edge_has_edge (g : DiGraph) (u v s d : string) :
  adjacency_within_nodes g ->
  (has_edge (add_edge g (u, v)) s d <-> has_edge g s d \/ (s = u /\ d = v)).
Proof.
  intros H. destruct (add_edge_prepared g u v H) as (g2 & A2 & E2 & U2 & ->).
  rewrite <- E2. unfold has_edge, Dict.get_default. simpl.
  destruct (Dict.get u (succ g2)) as [out|] eqn:G.
  - destruct (existsb (String.eqb v) out) eqn:Ex.
    + apply existsb_eqb_In in Ex. split; [tauto|].
      intros [?|[-> ->]]; eauto.
    + destruct (string_dec s u) as [->|Hne].
      * rewrite DictFacts.get_set_same, G. split.
        -- intros (o & [= <-] & Hin). apply in_app_iff in Hin.
           destruct Hin as [Hin|[<-|[]]]; eauto.
        -- intros [(o & [= <-] & Hin)|[_ ->]]; eexists; split; eauto;
             apply in_app_iff; simpl; auto.
      * rewrite DictFacts.get_set_other by congruence. split; [tauto|].
        intros [?|[? _]]; [assumption|contradiction].
  - simpl. destruct (string_dec s u) as [->|Hne].
    + rewrite DictFacts.get_set_same, G. split.
      * intros (o & [= <-] & [<-|[]]). auto.
      * intros [(o & [=] & _)|[_ ->]]. eexists. split; [reflexivity|now left].
    + rewrite DictFacts.get_set_other by congruence. split; [tauto|].
      intros [?|[? _]]; [assumption|contradiction].
Qed.

Lemma add_edge_adjacency (g : DiGraph) (e : string * string) :
  adjacency_within_nodes g -> adjacency_within_nodes (add_edge g e).
Proof.
  intros H. destruct e as [u v].
  destruct (add_edge_prepared g u v H) as (g2 & A2 & _ & U2 & ->).
  intros x Hx. simpl in *.
  destruct (existsb (String.eqb v) (Dict.get_default u [] (succ g2))).
  - now apply A2.
  - apply DictFacts.keys_set in Hx. destruct Hx as [->|Hx]; [exact U2|now apply A2].
Qed.

Lemma add_nodes_from_keys (attrs : Dict.t attr) (ns : list string) (g : DiGraph)
  (x : string) :
  In x (Dict.keys (node (add_nodes_from ns attrs g))) <->
  In x ns \/ In x (Dict.keys (node g)).
Proof.
  unfold add_nodes_from. revert g.
  induction ns as [|n rest IH]; intros g; simpl; [tauto|].
  rewrite IH, add_node_keys. intuition (subst; auto).
Qed.

Lemma add_nodes_from_adjacency (attrs : Dict.t attr) (ns : list string) (g : DiGraph) :
  adjacency_within_nodes g -> adjacency_within_nodes (add_nodes_from ns attrs g).
Proof.
  unfold add_nodes_from. revert g.
  induction ns as [|n rest IH]; intros g H; simpl; [exact H|].
  apply IH. now apply add_node_adjacency.
Qed.

Lemma add_nodes_from_has_edge (attrs : Dict.t attr) (ns : list string) (g : DiGraph)
  (u v : string) :
  adjacency_within_nodes g ->
  (has_edge (add_nodes_from ns attrs g) u v <-> has_edge g u v).
Proof.
  unfold add_nodes_from. revert g.
  induction ns as [|n rest IH]; intros g H; simpl; [tauto|].
  rewrite IH by now apply add_node_adjacency.
  now apply add_node_has_edge.
Qed.

Lemma add_nodes_from_get_other (attrs : Dict.t attr) (ns : list string) (g : DiGraph)
  (x : string) :
  ~ In x ns ->
  Dict.get x (node (add_nodes_from ns attrs g)) = Dict.get x (node g).
Proof.
  unfold add_nodes_from. revert g.
  induction ns as [|n rest IH]; intros g H; simpl; [reflexivity|].
  rewrite IH by (simpl in H; tauto).
  apply add_node_get_other. simpl in H. intros ->. tauto.
Qed.

(** After [add_nodes_from] each listed node carries both attributes. *)
Lemma add_nodes_from_attrs (b : Z) (kind : string) (ns : list string) (g : DiGraph)
  (x : string) :
  In x ns ->
  let g' := add_nodes_from ns [("bipartite", AInt b); ("node_type", AStr kind)] g in
  node_attr g' x "bipartite" = Some (AInt b) /\
  node_attr g' x "node_type" = Some (AStr kind).
Proof.
  unfold add_nodes_from, node_attr. revert g.
  induction ns as [|n rest IH]; intros g Hin; [destruct Hin|].
  simpl fold_left.
  destruct (in_dec string_dec x rest) as [Hr|Hr]; [now apply IH|].
  destruct Hin as [->|Hin]; [|contradiction].
  fold (add_nodes_from rest [("bipartite", AInt b); ("node_type", AStr kind)]
          (add_node [("bipartite", AInt b); ("node_type", AStr kind)] g x)).
  rewrite add_nodes_from_get_other by exact Hr.
  rewrite add_node_get_same. unfold Dict.update. simpl.
  rewrite DictFacts.get_set_same.
  rewrite DictFacts.get_set_other by discriminate.
  now rewrite DictFacts.get_set_same.
Qed.

Lemma add_edges_from_has_edge (es : list (string * string)) (g : DiGraph)
  (u v : string) :
  adjacency_within_nodes g ->
  (has_edge (add_edges_from es g) u v <-> has_edge g u v \/ In (u, v) es).
Proof.
  unfold add_edges_from. revert g.
  induction es as [|[s d] rest IH]; intros g H; cbn [fold_left In]; [tauto|].
  rewrite IH by now apply add_edge_adjacency.
  rewrite add_edge_has_edge by exact H.
  split.
  - intros [[?|[-> ->]]|?]; auto.
  - intros [?|[[= -> ->]|?]]; auto.
Qed.

Lemma add_edges_from_keys (es : list (string * string)) (g : DiGraph) (x : string) :
  In x (Dict.keys (node (add_edges_from es g))) <->
  In x (Dict.keys (node g)) \/ exists u v, In (u, v) es /\ (x = u \/ x = v).
Proof.
  unfold add_edges_from. revert g.
  induction es as [|[s d] rest IH]; intros g; cbn [fold_left In].
  - split; [tauto|]. intros [?|(u & v & [] & _)]. assumption.
  - rewrite IH, add_edge_keys. split.
    + intros [[->|[->|?]]|(u & v & Hin & Hx)]; eauto 8.
    + intros [?|(u & v & [[= -> ->]|Hin] & Hx)]; eauto 8; tauto.
Qed.

Lemma add_edges_from_get (es : list (string * string)) (g : DiGraph) (x : string) :
  In x (Dict.keys (node g)) ->
  Dict.get x (node (add_edges_from es g)) = Dict.get x (node g).
Proof.
  unfold add_edges_from. revert g.
  induction es as [|e rest IH]; intros g H; cbn [fold_left]; [reflexivity|].
  rewrite IH.
  - now apply add_edge_get.
  - destruct e as [u v]. apply add_edge_keys. tauto.
Qed.

Lemma validate_arcs_known (ps ts : list string) (es : list (string * string)) :
  validate_arcs ps ts es = Returns tt ->
  forall s d, In (s, d) es -> (In s ps \/ In s ts) /\ (In d ps \/ In d ts).
Proof.
  induction es as [|[s0 d0] rest IH]; simpl; intros H s d Hin; [destruct Hin|].
  destruct (negb (set_mem s0 ps) && negb (set_mem s0 ts)) eqn:Es; [discriminate|].
  destruct (negb (set_mem d0 ps) && negb (set_mem d0 ts)) eqn:Ed; [discriminate|].
  destruct Hin as [[= <- <-]|Hin]; [|now apply IH].
  apply andb_false_iff in Es. apply andb_false_iff in Ed.
  rewrite !negb_false_iff, !set_mem_In in Es, Ed. tauto.
Qed.

End GraphFacts.

Section LoadedGraph.
Import TP1Test GraphView.

Variable set_of : list string -> list string.
Hypothesis set_of_In : forall xs x, In x (set_of xs) <-> In x xs.

(** The graph that a successful load leaves, and what validation found. *)
Lemma loaded_graph (ps ts : list string) (es : list (string * string))
  (m : list (string * Z)) (a0 a : PetriNetAnalyzer) :
  load_network set_of ps ts es m a0 = (a, Returns tt) ->
  graph a =
    add_edges_from (stripped_arcs es)
      (add_nodes_from (set_of ts) transition_attrs
         (add_nodes_from (set_of ps) place_attrs new_graph)) /\
  arcs a = stripped_arcs es /\
  marking a = stripped_marking m /\
  validate_arcs (set_of ps) (set_of ts) (stripped_arcs es) = Returns tt /\
  validate_marking (set_of ps) (Dict.keys (stripped_marking m)) = Returns tt.
Proof.
  rewrite load_network_eq. cbv zeta.
  change (places (assigned set_of ps ts es m a0)) with (set_of ps).
  change (transitions (assigned set_of ps ts es m a0)) with (set_of ts).
  change (arcs (assigned set_of ps ts es m a0)) with (stripped_arcs es).
  change (marking (assigned set_of ps ts es m a0)) with (stripped_marking m).
  destruct (validate_arcs (set_of ps) (set_of ts) (stripped_arcs es)) as [[]|e];
    [|discriminate].
  destruct (validate_marking (set_of ps) (Dict.keys (stripped_marking m))) as [[]|e];
    [|discriminate].
  intros [= <-]. repeat split.
Qed.

Lemma new_graph_adjacency : adjacency_within_nodes new_graph.
Proof. intros n []. Qed.

(** X7.  After a successful load the nodes of the graph are the declared
    places and transitions and no others: the edges bring no node of their
    own.  Each declared transition is a node of type [transition] with
    [bipartite] 1, also when the name is declared as a place too; each other
    declared place is a node of type [place] with [bipartite] 0. *)
Theorem graph_nodes_are_declared (ps ts : list string) (es : list (string * string))
  (m : list (string * Z)) (a0 a : PetriNetAnalyzer) :
  load_network set_of ps ts es m a0 = (a, Returns tt) ->
  (forall n, In n (Dict.keys (node (graph a))) <-> In n ps \/ In n ts) /\
  (forall n, In n ts ->
     node_attr (graph a) n "node_type" = Some (AStr "transition") /\
     node_attr (graph a) n "bipartite" = Some (AInt 1)) /\
  (forall n, In n ps -> ~ In n ts ->
     node_attr (graph a) n "node_type" = Some (AStr "place") /\
     node_attr (graph a) n "bipartite" = Some (AInt 0)).
Proof.
  intros Hload. destruct (loaded_graph _ _ _ _ _ _ Hload) as (-> & _ & _ & Va & _).
  pose proof (validate_arcs_known _ _ _ Va) as Hknown.
  set (g1 := add_nodes_from (set_of ps) place_attrs new_graph).
  set (g2 := add_nodes_from (set_of ts) transition_attrs g1).
  assert (Hkeys : forall n, In n (Dict.keys (node g2)) <-> In n ps \/ In n ts).
  { intros n. unfold g2, g1. rewrite !add_nodes_from_keys, !set_of_In. simpl. tauto. }
  split; [|split].
  - intros n. rewrite add_edges_from_keys, Hkeys. split; [|tauto].
    intros [H|(u & v & Hin & Hn)]; [exact H|].
    destruct (Hknown u v Hin) as [Hu Hv]. rewrite !set_of_In in Hu, Hv.
    destruct Hn as [->| ->]; tauto.
  - intros n Hn. unfold node_attr.
    rewrite add_edges_from_get by (apply Hkeys; tauto).
    destruct (add_nodes_from_attrs 1 "transition" (set_of ts) g1 n) as [Hb Ht].
    + now apply set_of_In.
    + split; [exact Ht|exact Hb].
  - intros n Hp Hnt. unfold node_attr.
    rewrite add_edges_from_get by (apply Hkeys; tauto).
    unfold g2. rewrite add_nodes_from_get_other by now rewrite set_of_In.
    destruct (add_nodes_from_attrs 0 "place" (set_of ps) new_graph n) as [Hb Ht].
    + now apply set_of_In.
    + split; [exact Ht|exact Hb].
Qed.

(** X8.  After a successful load the edges of the graph are the arcs of the
    analyzer, that is the arcs passed to the load with their endpoints
    stripped: no arc is missing and no edge is added. *)
Theorem graph_edges_are_arcs (ps ts : list string) (es : list (string * string))
  (m : list (string * Z)) (a0 a : PetriNetAnalyzer) :
  load_network set_of ps ts es m a0 = (a, Returns tt) ->
  forall u v,
    has_edge (graph a) u v <->
    In (u, v) (arcs a) /\
    exists src dest, In (src, dest) es /\ u = strip src /\ v = strip dest.
Proof.
  intros Hload u v.
  destruct (loaded_graph _ _ _ _ _ _ Hload) as (-> & -> & _).
  rewrite add_edges_from_has_edge
    by (do 2 apply add_nodes_from_adjacency; apply new_graph_adjacency).
  rewrite !add_nodes_from_has_edge
    by (try apply add_nodes_from_adjacency; apply new_graph_adjacency).
  rewrite <- stripped_arcs_In. split; [|tauto].
  intros [(out & G & _)|H]; [discriminate G|tauto].
Qed.

End LoadedGraph.

(** ** Names and white space *)

Section Stripping.
Import TP1Test GraphView.

Lemma lstrip_starts_clean (s : string) : starts_clean (lstrip s).
Proof.
  induction s as [|c rest IH]; simpl; [exact I|].
  destruct (is_space c) eqn:E; [exact IH|exact E].
Qed.

Lemma lstrip_clean (s : string) : starts_clean s -> lstrip s = s.
Proof.
  destruct s as [|c rest]; simpl; [reflexivity|]. now intros ->.
Qed.

Lemma rstrip_starts_clean (s : string) : starts_clean s -> starts_clean (rstrip s).
Proof.
  destruct s as [|c rest]; simpl; [exact (fun H => H)|]. intros E.
  destruct (rstrip rest); [rewrite E|]; exact E.
Qed.

Lemma rstrip_idempotent (s : string) : rstrip (rstrip s) = rstrip s.
Proof.
  induction s as [|c rest IH]; simpl; [reflexivity|].
  destruct (rstrip rest) as [|c' kept] eqn:E.
  - destruct (is_space c) eqn:Ec; simpl; [reflexivity|]. now rewrite Ec.
  - change (rstrip (String c (String c' kept))) with
      (match rstrip (String c' kept) with
       | EmptyString => if is_space c then EmptyString else String c EmptyString
       | kept' => String c kept'
       end).
    now rewrite IH.
Qed.

Lemma strip_idempotent (s : string) : strip (strip s) = strip s.
Proof.
  unfold strip.
  rewrite (lstrip_clean (rstrip (lstrip s)))
    by apply rstrip_starts_clean, lstrip_starts_clean.
  apply rstrip_idempotent.
Qed.

Lemma stripped_arcs_idempotent (es : list (string * string)) :
  stripped_arcs (stripped_arcs es) = stripped_arcs es.
Proof.
  unfold stripped_arcs. rewrite map_map. apply map_ext.
  intros [src dest]. simpl. now rewrite !strip_idempotent.
Qed.

Lemma stripped_marking_entries (m : list (string * Z)) :
  stripped_marking (stripped_entries m) = stripped_marking m.
Proof.
  unfold stripped_marking, stripped_entries. generalize (@Dict.empty Z).
  induction m as [|[p v] rest IH]; intros d; simpl; [reflexivity|].
  now rewrite strip_idempotent, IH.
Qed.

(** X9.  A load does not see white space around the endpoints of the arcs
    and around the names of the marking: passing them stripped gives the
    same state and the same outcome, from any prior state. *)
Theorem load_network_ignores_outer_space (set_of : list string -> list string)
  (ps ts : list string) (es : list (string * string)) (m : list (string * Z))
  (a0 : PetriNetAnalyzer) :
  load_network set_of ps ts (stripped_arcs es) (stripped_entries m) a0 =
  load_network set_of ps ts es m a0.
Proof.
  unfold load_network.
  now rewrite stripped_arcs_idempotent, stripped_marking_entries.
Qed.

Lemma set_fresh {V : Type} (k : string) (v : V) (d : Dict.t V) :
  ~ In k (Dict.keys d) -> Dict.set k v d = (d ++ [(k, v)])%list.
Proof.
  induction d as [|[k' v'] rest IH]; simpl; intros H; [reflexivity|].
  destruct (String.eqb k k') eqn:E.
  - apply String.eqb_eq in E. subst k'. tauto.
  - rewrite IH by tauto. reflexivity.
Qed.

Lemma stripped_marking_values (m : list (string * Z)) (d : Dict.t Z) (v : Z) :
  In v (Dict.values
          (fold_left (fun acc pv => Dict.set (strip (fst pv)) (snd pv) acc) m d)) ->
  In v (Dict.values d) \/ exists p, In (p, v) m.
Proof.
  revert d. induction m as [|[p w] rest IH]; intros d; simpl; [auto|].
  intros H. apply IH in H. destruct H as [H|[q H]]; [|eauto].
  apply DictFacts.In_values in H. destruct H as [k H].
  apply DictFacts.In_set in H. destruct H as [[_ ->]|H]; [eauto|].
  left. apply DictFacts.In_values. eauto.
Qed.

Lemma stripped_marking_distinct (m : list (string * Z)) (d : Dict.t Z) :
  NoDup (map (fun pv => strip (fst pv)) m) ->
  (forall p v, In (p, v) m -> ~ In (strip p) (Dict.keys d)) ->
  fold_left (fun acc pv => Dict.set (strip (fst pv)) (snd pv) acc) m d =
  (d ++ stripped_entries m)%list.
Proof.
  revert d. induction m as [|[p w] rest IH]; intros d Hnd Hfresh; simpl.
  - now rewrite app_nil_r.
  - inversion Hnd as [|? ? Hnotin Hnd']; subst. simpl in Hnotin.
    rewrite set_fresh by (apply (Hfresh p w); now left).
    rewrite IH; [now rewrite <- app_assoc|exact Hnd'|].
    intros q v Hin Hk. unfold Dict.keys in Hk. rewrite map_app, in_app_iff in Hk.
    destruct Hk as [Hk|[Hk|[]]].
    + apply (Hfresh q v); [now right|exact Hk].
    + simpl in Hk. apply Hnotin. rewrite Hk.
      apply (in_map (fun pv => strip (fst pv)) rest (q, v) Hin).
Qed.

(** X10.  [analyze_boundedness] looks at the marking that the load kept.
    After a successful load it returns true when no entry passed to the load
    is negative; when the stripped names of the entries are pairwise
    distinct it returns true exactly in that case.  (Of two entries whose
    names agree after stripping only the later one is kept.) *)
Theorem analyze_boundedness_reads_marking (set_of : list string -> list string)
  (ps ts : list string) (es : list (string * string)) (m : list (string * Z))
  (a0 a : PetriNetAnalyzer) :
  load_network set_of ps ts es m a0 = (a, Returns tt) ->
  ((forall p v, In (p, v) m -> 0 <= v) -> analyze_boundedness a = true) /\
  (NoDup (map (fun pv => strip (fst pv)) m) ->
   (analyze_boundedness a = true <-> forall p v, In (p, v) m -> 0 <= v)).
Proof.
  intros Hload. apply load_network_returns in Hload. subst a.
  unfold analyze_boundedness. simpl marking.
  assert (Hpos : (forall p v, In (p, v) m -> 0 <= v) ->
                 forallb (fun v => v >=? 0) (Dict.values (stripped_marking m)) = true).
  { intros H. apply forallb_forall. intros v Hv.
    apply stripped_marking_values in Hv. destruct Hv as [[]|[p Hp]].
    apply H in Hp. lia. }
  split; [exact Hpos|].
  intros Hnd. split; [|exact Hpos].
  unfold stripped_marking. rewrite stripped_marking_distinct; [|exact Hnd|auto].
  simpl. rewrite forallb_forall. intros H p v Hin.
  assert (Hv : In v (Dict.values (stripped_entries m))).
  { apply DictFacts.In_values. exists (strip p).
    unfold stripped_entries. apply in_map_iff. exists (p, v). auto. }
  apply H in Hv. lia.
Qed.

End Stripping.

Section StrippingSamples.
Import TP1Test GraphView.

Lemma analyze_boundedness_reads_marking_witness :
  analyze_boundedness scenario_loaded = true.
Proof.
  destruct (analyze_boundedness_reads_marking first_occurrences scenario_places
              scenario_transitions scenario_arcs scenario_marking new_analyzer
              scenario_loaded) as [H _]; [reflexivity|].
  apply H. unfold scenario_marking. simpl.
  intros p v [[= <- <-]|[[= <- <-]|[[= <- <-]|[]]]]; lia.
Defined.

Lemma graph_nodes_are_declared_witness :
  node_attr (graph scenario_loaded) "t1" "node_type" = Some (AStr "transition").
Proof.
  destruct (graph_nodes_are_declared first_occurrences first_occurrences_In
              scenario_places scenario_transitions scenario_arcs scenario_marking
              new_analyzer scenario_loaded) as (_ & H & _); [reflexivity|].
  apply H. simpl. auto.
Defined.

Lemma graph_edges_are_arcs_witness :
  has_edge (graph scenario_loaded) "p1" "t1" <->
  In ("p1", "t1") (arcs scenario_loaded) /\
  exists src dest, In (src, dest) scenario_arcs /\ "p1" = strip src /\ "t1" = strip dest.
Proof.
  apply (graph_edges_are_arcs first_occurrences
           scenario_places scenario_transitions scenario_arcs scenario_marking
           new_analyzer scenario_loaded).
  reflexivity.
Defined.

End StrippingSamples.

(** ** The windows: what every run keeps *)

Module AppFacts.
Import AppRuntime AppView.

Lemma keeps_unit {S A : Type} (P : S -> Prop) (v : A) : keeps P (unit_ v).
Proof. intros s H. exact H. Qed.

Lemma keeps_read {S A : Type} (P : S -> Prop) (f : S -> A) : keeps P (read f).
Proof. intros s H. exact H. Qed.

Lemma keeps_try {S A : Type} (P : S -> Prop) (r : attempt A) : keeps P (try_ r).
Proof. intros s H. exact H. Qed.

Lemma keeps_update {S : Type} (P : S -> Prop) (f : S -> S) :
  (forall s, P s -> P (f s)) -> keeps P (update f).
Proof. intros Hf s H. now apply Hf. Qed.

Lemma keeps_then {S A B : Type} (P : S -> Prop) (c : G S A) (k : A -> G S B) :
  keeps P c -> (forall v, keeps P (k v)) -> keeps P (then_ c k).
Proof.
  intros Hc Hk s H. unfold then_. specialize (Hc s H).
  destruct (c s) as [s' [v|e]]; simpl in *; [now apply Hk|exact Hc].
Qed.

Lemma keeps_for_each {S A : Type} (P : S -> Prop) (xs : list A) (body : A -> G S unit) :
  (forall x, keeps P (body x)) -> keeps P (for_each xs body).
Proof.
  intros Hb. induction xs as [|x rest IH]; simpl.
  - apply keeps_unit.
  - apply keeps_then; [apply Hb|intros _; exact IH].
Qed.

Lemma keeps_from {S A : Type} (P : S -> Prop) (c : G S A) (s : S) :
  keeps P c -> P s -> P (fst (c s)).
Proof. intros H. apply H. Qed.

Lemma keeps_if {S A : Type} (P : S -> Prop) (b : bool) (c1 c2 : G S A) :
  keeps P c1 -> keeps P c2 -> keeps P (if b then c1 else c2).
Proof. now destruct b. Qed.

Lemma simple_perform_all_app (cs1 cs2 : list call) (net : PetriNetSimple.PetriNet) :
  fst (PetriNetSimple.perform_all (cs1 ++ cs2) net) =
  fst (PetriNetSimple.perform_all cs2 (fst (PetriNetSimple.perform_all cs1 net))).
Proof.
  revert net. induction cs1 as [|c cs1 IH]; intros net; [reflexivity|].
  rewrite <- app_comm_cons, !SimpleFacts.perform_all_cons. apply IH.
Qed.

Lemma simple_build_snoc (cs : list call) (c : call) :
  PetriNetSimple.build (cs ++ [c]) =
  fst (PetriNetSimple.perform c (PetriNetSimple.build cs)).
Proof.
  unfold PetriNetSimple.build. rewrite simple_perform_all_app.
  now rewrite SimpleFacts.perform_all_cons.
Qed.

Lemma tp101_perform_all_app (cs1 cs2 : list call) (net : TP101.PetriNet) :
  fst (TP101.perform_all (cs1 ++ cs2) net) =
  fst (TP101.perform_all cs2 (fst (TP101.perform_all cs1 net))).
Proof.
  revert net. induction cs1 as [|c cs1 IH]; intros net; [reflexivity|].
  rewrite <- app_comm_cons, !TP101Facts.tp101_perform_all_cons. apply IH.
Qed.

Lemma tp101_build_snoc (cs : list call) (c : call) :
  TP101.build (cs ++ [c]) = fst (TP101.perform c (TP101.build cs)).
Proof.
  unfold TP101.build. rewrite tp101_perform_all_app.
  now rewrite TP101Facts.tp101_perform_all_cons.
Qed.

(** A call made through the window of petrinetsimple.py extends the
    sequence of calls that built the net. *)
Lemma simple_on_net_keeps (Q : call -> Prop) (c : call) :
  Q c -> keeps (simple_net_built Q) (PetriNetSimpleApp.on_net (PetriNetSimple.perform c)).
Proof.
  intros Hq app (cs & Hcs & E). exists (cs ++ [c])%list. split.
  - apply Forall_app. auto.
  - rewrite simple_build_snoc, <- E. unfold PetriNetSimpleApp.on_net.
    destruct (PetriNetSimple.perform c (PetriNetSimpleApp.petri_net app)) as [net [v|e]];
      reflexivity.
Qed.

Lemma simple_count_draw_keeps (Q : call -> Prop) :
  keeps (simple_net_built Q) (update PetriNetSimpleApp.count_draw).
Proof. apply keeps_update. intros app H. exact H. Qed.

Lemma tp101_on_net_keeps (Q : call -> Prop) (c : call) :
  Q c -> keeps (tp101_net_built Q) (TP101App.on_net (TP101.perform c)).
Proof.
  intros Hq app (cs & Hcs & E). exists (cs ++ [c])%list. split.
  - apply Forall_app. auto.
  - rewrite tp101_build_snoc, <- E. unfold TP101App.on_net.
    destruct (TP101.perform c (TP101App.petri_net app)) as [net [v|e]];
      reflexivity.
Qed.

Lemma tp101_count_draw_keeps (Q : call -> Prop) :
  keeps (tp101_net_built Q) (update TP101App.count_draw).
Proof. apply keeps_update. intros app H. exact H. Qed.

Lemma simple_add_place_keeps (Q : call -> Prop) (rnd : nat -> Pos)
  (name : string) (k : Z) :
  (forall r, Q (AddPlace name k r)) ->
  keeps (simple_net_built Q) (PetriNetSimpleApp.add_place rnd name k).
Proof.
  intros Hq. unfold PetriNetSimpleApp.add_place.
  apply keeps_then; [apply keeps_read|intros i].
  apply keeps_then; [apply simple_count_draw_keeps|intros _].
  apply (simple_on_net_keeps Q (AddPlace name k (rnd i))). apply Hq.
Qed.

Lemma simple_add_transition_keeps (Q : call -> Prop) (rnd : nat -> Pos) (name : string) :
  (forall r, Q (AddTransition name r)) ->
  keeps (simple_net_built Q) (PetriNetSimpleApp.add_transition rnd name).
Proof.
  intros Hq. unfold PetriNetSimpleApp.add_transition.
  apply keeps_then; [apply keeps_read|intros i].
  apply keeps_then; [apply simple_count_draw_keeps|intros _].
  apply (simple_on_net_keeps Q (AddTransition name (rnd i))). apply Hq.
Qed.

Lemma tp101_add_place_keeps (Q : call -> Prop) (rnd : nat -> Pos)
  (name : string) (k : Z) :
  (forall r, Q (AddPlace name k r)) ->
  keeps (tp101_net_built Q) (TP101App.add_place rnd name k).
Proof.
  intros Hq. unfold TP101App.add_place.
  apply keeps_then; [apply keeps_read|intros i].
  apply keeps_then; [apply tp101_count_draw_keeps|intros _].
  apply (tp101_on_net_keeps Q (AddPlace name k (rnd i))). apply Hq.
Qed.

Lemma tp101_add_transition_keeps (Q : call -> Prop) (rnd : nat -> Pos) (name : string) :
  (forall r, Q (AddTransition name r)) ->
  keeps (tp101_net_built Q) (TP101App.add_transition rnd name).
Proof.
  intros Hq. unfold TP101App.add_transition.
  apply keeps_then; [apply keeps_read|intros i].
  apply keeps_then; [apply tp101_count_draw_keeps|intros _].
  apply (tp101_on_net_keeps Q (AddTransition name (rnd i))). apply Hq.
Qed.

Lemma tp101_add_arc_keeps (Q : call -> Prop) (source target : string) (w : Z) :
  Q (AddArc source target w) ->
  keeps (tp101_net_built Q) (TP101App.add_arc source target w).
Proof. apply (tp101_on_net_keeps Q (AddArc source target w)). Qed.

(** On the net of some sequence of calls the two queries of [analyze_net]
    return. *)
Lemma simple_built_queries_return (cs : list call) :
  exists b, PetriNetSimple.has_live_transitions (PetriNetSimple.build cs) = Returns b.
Proof.
  destruct (SimpleFacts.any_enabled_spec
              (Dict.values (PetriNetSimple.transitions (PetriNetSimple.build cs)))
              (PetriNetSimple.places (PetriNetSimple.build cs))) as (b & E & _).
  - intros t Hin. apply SimpleFacts.closed_is_enabled_returns; auto.
    apply SimpleFacts.build_named_closed.
  - exists b. exact E.
Qed.

Lemma same_call_refl (cs : list call) : Forall2 same_call cs cs.
Proof.
  induction cs as [|c cs IH]; constructor; auto.
  destruct c; simpl; auto.
Qed.

Lemma tp101_built_queries_return (cs : list call) :
  exists b, TP101.has_live_transitions (TP101.build cs) = Returns b.
Proof.
  destruct (simple_built_queries_return cs) as [b E]. exists b.
  rewrite <- E. apply Variants.has_live_transitions_same.
  apply Variants.same_net_perform_all; [apply same_call_refl|apply Variants.same_net_new].
Qed.

End AppFacts.

Section GeneratedNets.
Import AppRuntime AppView AppFacts.

Ltac keep_going :=
  repeat
    (cbv beta zeta;
     lazymatch goal with
     | |- keeps _ (unit_ _) => apply keeps_unit
     | |- keeps _ (read _) => apply keeps_read
     | |- keeps _ (try_ _) => apply keeps_try
     | |- keeps _ (if _ then _ else _) => apply keeps_if
     | |- keeps _ (then_ _ _) => apply keeps_then; [|intros ?]
     | |- keeps _ (for_each _ _) => apply keeps_for_each; intros ?
     end).

Lemma simple_generate_network_built (int_of_str : string -> option Z)
  (rnd : nat -> Pos) (app : PetriNetSimpleApp.PetriNetApp) :
  simple_net_built unit_weight
    (fst (PetriNetSimpleApp.generate_network int_of_str rnd app)).
Proof.
  unfold PetriNetSimpleApp.generate_network.
  unfold then_ at 1. cbn [update].
  match goal with
  | |- simple_net_built _ (fst (?c ?s)) => apply (keeps_from (simple_net_built unit_weight) c s)
  end.
  - keep_going.
    + apply simple_add_place_keeps. intros r. exact I.
    + apply simple_add_transition_keeps. intros r. exact I.
    + apply (simple_on_net_keeps unit_weight (AddArc _ _ 1)). reflexivity.
  - exists []. split; [constructor|reflexivity].
Qed.

Lemma tp101_generate_network_built (int_of_str : string -> option Z)
  (rnd : nat -> Pos) (app : TP101App.PetriNetApp) :
  tp101_net_built unit_weight (fst (TP101App.generate_network int_of_str rnd app)).
Proof.
  unfold TP101App.generate_network.
  unfold then_ at 1. cbn [update].
  match goal with
  | |- tp101_net_built _ (fst (?c ?s)) => apply (keeps_from (tp101_net_built unit_weight) c s)
  end.
  - keep_going.
    + apply tp101_add_place_keeps. intros r. exact I.
    + apply tp101_add_transition_keeps. intros r. exact I.
    + apply tp101_add_arc_keeps. reflexivity.
  - exists []. split; [constructor|reflexivity].
Qed.

Lemma tp101_load_net_file_built (int_of_str : string -> option Z)
  (str_of_int : Z -> option string) (rnd : nat -> Pos) (lines : list string)
  (app : TP101App.PetriNetApp) :
  tp101_net_built (fun _ => True)
    (fst (TP101App.load_net_file int_of_str str_of_int rnd lines app)).
Proof.
  unfold TP101App.load_net_file.
  unfold then_ at 1. cbn [update].
  match goal with
  | |- tp101_net_built _ (fst (?c ?s)) => apply (keeps_from (tp101_net_built (fun _ => True)) c s)
  end.
  - apply keeps_then; [|intros _].
    + apply keeps_for_each. intros line. unfold TP101App.load_line.
      destruct (PyStr.split_ws (PyStr.strip line)) as [|keyword more];
        [apply keeps_unit|].
      keep_going.
      * apply tp101_add_place_keeps. intros r. exact I.
      * apply tp101_add_transition_keeps. intros r. exact I.
      * apply tp101_add_arc_keeps. exact I.
    + unfold TP101App._update_form_fields. keep_going;
        apply keeps_update; intros s H; exact H.
  - exists []. split; [constructor|reflexivity].
Qed.

(** X11.  Whatever the four entries hold, and whether it ends with an error
    or not, [generate_network] leaves in either window the net of some
    sequence of [add_place], [add_transition] and [add_arc] calls on a fresh
    net in which every arc has weight 1; on that net [has_live_transitions],
    which [analyze_net] calls next, returns a value and raises no
    [KeyError]. *)
Theorem generate_network_leaves_a_built_net (int_of_str : string -> option Z)
  (rnd : nat -> Pos)
  (app1 : PetriNetSimpleApp.PetriNetApp) (app2 : TP101App.PetriNetApp) :
  let net1 := PetriNetSimpleApp.petri_net
                (fst (PetriNetSimpleApp.generate_network int_of_str rnd app1)) in
  let net2 := TP101App.petri_net
                (fst (TP101App.generate_network int_of_str rnd app2)) in
  (exists cs, Forall unit_weight cs /\ net1 = PetriNetSimple.build cs) /\
  (exists b, PetriNetSimple.has_live_transitions net1 = Returns b) /\
  (exists cs, Forall unit_weight cs /\ net2 = TP101.build cs) /\
  (exists b, TP101.has_live_transitions net2 = Returns b).
Proof.
  intros net1 net2.
  pose proof (simple_generate_network_built int_of_str rnd app1) as H1.
  pose proof (tp101_generate_network_built int_of_str rnd app2) as H2.
  split; [exact H1|]. split.
  - destruct H1 as (cs & _ & E). unfold net1. rewrite E.
    apply simple_built_queries_return.
  - split; [exact H2|].
    destruct H2 as (cs & _ & E). unfold net2. rewrite E.
    apply tp101_built_queries_return.
Qed.

(** X12.  Whatever the lines of the file, and whether it ends with an error
    or not, [load_net_file] leaves the net of some sequence of calls on a
    fresh net; on that net [has_live_transitions] returns a value and raises
    no [KeyError]. *)
Theorem load_net_file_leaves_a_built_net (int_of_str : string -> option Z)
  (str_of_int : Z -> option string) (rnd : nat -> Pos) (lines : list string)
  (app : TP101App.PetriNetApp) :
  let net := TP101App.petri_net
               (fst (TP101App.load_net_file int_of_str str_of_int rnd lines app)) in
  (exists cs, net = TP101.build cs) /\
  (exists b, TP101.has_live_transitions net = Returns b).
Proof.
  intros net.
  destruct (tp101_load_net_file_built int_of_str str_of_int rnd lines app)
    as (cs & _ & E).
  split; [exists cs; exact E|].
  unfold net. rewrite E. apply tp101_built_queries_return.
Qed.

End GeneratedNets.

(** ** The two windows side by side *)

Module AppVariants.
Import AppRuntime AppView.

Lemma along_unit {A : Type} (v : A) : along (unit_ v) (unit_ v).
Proof. intros a1 a2 H. split; [exact H|reflexivity]. Qed.

Lemma along_try {A : Type} (r : attempt A) : along (try_ r) (try_ r).
Proof. intros a1 a2 H. split; [exact H|reflexivity]. Qed.

Lemma along_read {A : Type} (f1 : PetriNetSimpleApp.PetriNetApp -> A)
  (f2 : TP101App.PetriNetApp -> A) :
  (forall a1 a2, same_app a1 a2 -> f1 a1 = f2 a2) -> along (read f1) (read f2).
Proof.
  intros Hf a1 a2 H. split; [exact H|]. simpl. f_equal. now apply Hf.
Qed.

Lemma along_then {A B : Type}
  (c1 : G PetriNetSimpleApp.PetriNetApp A) (c2 : G TP101App.PetriNetApp A)
  (k1 : A -> G PetriNetSimpleApp.PetriNetApp B) (k2 : A -> G TP101App.PetriNetApp B) :
  along c1 c2 -> (forall v, along (k1 v) (k2 v)) -> along (then_ c1 k1) (then_ c2 k2).
Proof.
  intros Hc Hk a1 a2 H. unfold then_. destruct (Hc a1 a2 H) as [Hs Hr].
  destruct (c1 a1) as [s1 r1], (c2 a2) as [s2 r2]. simpl in *. subst r2.
  destruct r1 as [v|e]; [now apply Hk|split; [exact Hs|reflexivity]].
Qed.

Lemma along_if {A : Type} (b : bool)
  (c1 d1 : G PetriNetSimpleApp.PetriNetApp A) (c2 d2 : G TP101App.PetriNetApp A) :
  along c1 c2 -> along d1 d2 -> along (if b then c1 else d1) (if b then c2 else d2).
Proof. now destruct b. Qed.

Lemma along_for_each {A : Type} (xs : list A)
  (b1 : A -> G PetriNetSimpleApp.PetriNetApp unit)
  (b2 : A -> G TP101App.PetriNetApp unit) :
  (forall x, along (b1 x) (b2 x)) -> along (for_each xs b1) (for_each xs b2).
Proof.
  intros Hb. induction xs as [|x rest IH]; simpl.
  - apply along_unit.
  - apply along_then; [apply Hb|intros _; exact IH].
Qed.

(** The same call made in both windows. *)
Lemma along_on_net (c1 c2 : call) :
  same_call c1 c2 ->
  along (PetriNetSimpleApp.on_net (PetriNetSimple.perform c1))
        (TP101App.on_net (TP101.perform c2)).
Proof.
  intros Hc a1 a2 (Hn & Hp & Ht & Ha & Hm).
  pose proof (Variants.same_net_perform c1 c2 _ _ Hc Hn) as Hn'.
  pose proof (SimpleFacts.perform_returns c1 (PetriNetSimpleApp.petri_net a1)) as R1.
  pose proof (TP101Facts.tp101_perform_returns c2 (TP101App.petri_net a2)) as R2.
  unfold PetriNetSimpleApp.on_net, TP101App.on_net.
  destruct (PetriNetSimple.perform c1 (PetriNetSimpleApp.petri_net a1)) as [n1 r1].
  destruct (TP101.perform c2 (TP101App.petri_net a2)) as [n2 r2].
  simpl in *. subst r1 r2. simpl. split; [|reflexivity].
  unfold same_app. simpl. split; [exact Hn'|repeat split; assumption].
Qed.

Lemma along_count_draw :
  along (update PetriNetSimpleApp.count_draw) (update TP101App.count_draw).
Proof. intros a1 a2 H. split; [exact H|reflexivity]. Qed.

Lemma along_add_place (rnd1 rnd2 : nat -> Pos) (name : string) (k : Z) :
  along (PetriNetSimpleApp.add_place rnd1 name k) (TP101App.add_place rnd2 name k).
Proof.
  intros a1 a2 H.
  unfold PetriNetSimpleApp.add_place, TP101App.add_place, then_, read. cbn [update].
  apply (along_on_net (AddPlace name k (rnd1 (PetriNetSimpleApp.drawn a1)))
                      (AddPlace name k (rnd2 (TP101App.drawn a2)))).
  - simpl. auto.
  - exact H.
Qed.

Lemma along_add_transition (rnd1 rnd2 : nat -> Pos) (name : string) :
  along (PetriNetSimpleApp.add_transition rnd1 name) (TP101App.add_transition rnd2 name).
Proof.
  intros a1 a2 H.
  unfold PetriNetSimpleApp.add_transition, TP101App.add_transition, then_, read.
  cbn [update].
  apply (along_on_net (AddTransition name (rnd1 (PetriNetSimpleApp.drawn a1)))
                      (AddTransition name (rnd2 (TP101App.drawn a2)))).
  - simpl. auto.
  - exact H.
Qed.

Lemma along_add_arc (source target : string) :
  along (PetriNetSimpleApp.add_arc source target) (TP101App.add_arc source target 1).
Proof.
  apply (along_on_net (AddArc source target 1) (AddArc source target 1)).
  simpl. auto.
Qed.

Lemma along_reset :
  along (update (PetriNetSimpleApp.set_petri_net (fun _ => PetriNetSimple.new_net)))
        (update (TP101App.set_petri_net (fun _ => TP101.new_net))).
Proof.
  intros a1 a2 (Hn & Hp & Ht & Ha & Hm). split; [|reflexivity].
  unfold same_app. simpl. split; [apply Variants.same_net_new|].
  repeat split; assumption.
Qed.

(** The guard of petrinetsimple.py around the token count changes
    nothing: without an entry the count is [int(0)]. *)
Lemma guarded_tokens {S : Type} (int_of_str : string -> option Z)
  (name : string) (markings : Dict.t string) :
  (if Dict.mem name markings
   then try_ (py_int int_of_str (get_or_zero name markings))
   else unit_ 0) =
  (try_ (py_int int_of_str (get_or_zero name markings)) : G S Z).
Proof.
  unfold Dict.mem, get_or_zero. now destruct (Dict.get name markings).
Qed.

End AppVariants.

Section GenerateAgree.
Import AppRuntime AppView AppVariants.

Ltac go_along :=
  repeat
    (cbv beta zeta;
     lazymatch goal with
     | |- along (unit_ _) (unit_ _) => apply along_unit
     | |- along (try_ _) (try_ _) => apply along_try
     | |- along (read _) (read _) =>
         apply along_read; intros ? ? (_ & ? & ? & ? & ?); congruence
     | |- along (if _ then _ else _) (if _ then _ else _) => apply along_if
     | |- along (then_ _ _) (then_ _ _) => apply along_then; [|intros ?]
     | |- along (for_each _ _) (for_each _ _) => apply along_for_each; intros ?
     end).

(** X13.  The two versions of [generate_network] do the same: started on
    the same entries they end with the same outcome and, whatever the draws
    of the layout, with nets that have the same places, transitions and arcs.
    The test [name in markings] that only petrinetsimple.py makes has no
    effect. *)
Theorem generate_network_variants_agree (int_of_str : string -> option Z)
  (rnd1 rnd2 : nat -> Pos)
  (app1 : PetriNetSimpleApp.PetriNetApp) (app2 : TP101App.PetriNetApp) :
  TP101App.places_entry app2 = PetriNetSimpleApp.places_entry app1 ->
  TP101App.transitions_entry app2 = PetriNetSimpleApp.transitions_entry app1 ->
  TP101App.arcs_entry app2 = PetriNetSimpleApp.arcs_entry app1 ->
  TP101App.marking_entry app2 = PetriNetSimpleApp.marking_entry app1 ->
  same_net
    (PetriNetSimpleApp.petri_net
       (fst (PetriNetSimpleApp.generate_network int_of_str rnd1 app1)))
    (TP101App.petri_net (fst (TP101App.generate_network int_of_str rnd2 app2))) /\
  snd (PetriNetSimpleApp.generate_network int_of_str rnd1 app1) =
  snd (TP101App.generate_network int_of_str rnd2 app2).
Proof.
  intros Hp Ht Ha Hm.
  assert (H : along (PetriNetSimpleApp.generate_network int_of_str rnd1)
                    (TP101App.generate_network int_of_str rnd2)).
  { unfold PetriNetSimpleApp.generate_network, TP101App.generate_network.
    go_along.
    - apply along_reset.
    - rewrite guarded_tokens. apply along_try.
    - apply along_add_place.
    - apply along_add_transition.
    - apply along_add_arc. }
  change (PetriNetSimpleApp.generate_network int_of_str rnd1 app1) with
    (PetriNetSimpleApp.generate_network int_of_str rnd1
       (PetriNetSimpleApp.set_petri_net (fun _ => PetriNetSimple.new_net) app1)).
  change (TP101App.generate_network int_of_str rnd2 app2) with
    (TP101App.generate_network int_of_str rnd2
       (TP101App.set_petri_net (fun _ => TP101.new_net) app2)).
  destruct (H (PetriNetSimpleApp.set_petri_net (fun _ => PetriNetSimple.new_net) app1)
              (TP101App.set_petri_net (fun _ => TP101.new_net) app2))
    as [(Hn & _) Hr].
  - split; [apply Variants.same_net_new|]. simpl. repeat split; assumption.
  - split; assumption.
Qed.

End GenerateAgree.

(** ** Splitting and joining *)

Module StrFacts.
Import Plain.

Lemma prefix_single (c x : ascii) (rest : string) :
  String.prefix (String c EmptyString) (String x rest) = Ascii.eqb x c.
Proof.
  cbn [String.prefix]. destruct (ascii_dec c x) as [->|Hne].
  - rewrite Ascii.eqb_refl. now destruct rest.
  - symmetry. apply Ascii.eqb_neq. congruence.
Qed.

Lemma split_single_cons (c : ascii) (a rest : string) :
  free_of c a = true ->
  PyStr.split (String c EmptyString) (a ++ String c rest) =
  a :: PyStr.split (String c EmptyString) rest.
Proof.
  unfold PyStr.split. induction a as [|x a IH]; intros Hfree.
  - change (EmptyString ++ String c rest) with (String c rest).
    cbn [PyStr.split_from]. rewrite prefix_single, Ascii.eqb_refl. reflexivity.
  - simpl in Hfree. apply andb_prop in Hfree. destruct Hfree as [Hx Hfree].
    apply negb_true_iff in Hx.
    change (String x a ++ String c rest) with (String x (a ++ String c rest)).
    cbn [PyStr.split_from]. rewrite prefix_single, Hx, (IH Hfree). reflexivity.
Qed.

Lemma split_single_none (c : ascii) (a : string) :
  free_of c a = true -> PyStr.split (String c EmptyString) a = [a].
Proof.
  unfold PyStr.split. induction a as [|x a IH]; intros Hfree; [reflexivity|].
  simpl in Hfree. apply andb_prop in Hfree. destruct Hfree as [Hx Hfree].
  apply negb_true_iff in Hx.
  cbn [PyStr.split_from]. rewrite prefix_single, Hx, (IH Hfree). reflexivity.
Qed.

Lemma free_of_app (c : ascii) (a b : string) :
  free_of c (a ++ b) = free_of c a && free_of c b.
Proof.
  induction a as [|x a IH]; simpl; [reflexivity|]. now rewrite IH, andb_assoc.
Qed.

Lemma join_cons (sep x y : string) (l : list string) :
  PyStr.join sep (x :: y :: l) = x ++ sep ++ PyStr.join sep (y :: l).
Proof. reflexivity. Qed.

Lemma join_lead (sep : string) (c : ascii) (y : string) (l : list string) :
  String c (PyStr.join sep (y :: l)) = PyStr.join sep (String c y :: l).
Proof. destruct l; reflexivity. Qed.

(** Splitting at the commas what was joined with a comma and a space: the
    pieces come back, each but the first behind a space. *)
Lemma split_join_comma (x : string) (l : list string) :
  Forall (fun y => free_of "," y = true) (x :: l) ->
  PyStr.split "," (PyStr.join ", " (x :: l)) = x :: map (String " ") l.
Proof.
  revert x. induction l as [|y l IH]; intros x H.
  - inversion H; subst. now apply split_single_none.
  - inversion H as [|? ? Hx Hl]; subst.
    rewrite join_cons.
    change (", " ++ PyStr.join ", " (y :: l))
      with (String "," (String " " (PyStr.join ", " (y :: l)))).
    rewrite split_single_cons by exact Hx.
    rewrite join_lead, IH; [reflexivity|].
    inversion Hl; subst. constructor; auto.
Qed.

Lemma prefix_arrow (x : ascii) (rest : string) :
  free_of ">" (String x EmptyString) = true ->
  match rest with
  | EmptyString => True
  | String y _ => Ascii.eqb y ">" = false \/ Ascii.eqb x "-" = false
  end ->
  String.prefix "->" (String x rest) = false.
Proof.
  intros _ H. cbn [String.prefix].
  destruct (ascii_dec "-" x) as [<-|Hne]; [|reflexivity].
  destruct rest as [|y rest]; [reflexivity|]. cbn [String.prefix].
  destruct (ascii_dec ">" y) as [<-|Hne']; [|reflexivity].
  destruct H as [H|H]; discriminate H.
Qed.

Lemma prefix_arrow_here (rest : string) :
  String.prefix "->" (String "-" (String ">" rest)) = true.
Proof.
  cbn [String.prefix].
  destruct (ascii_dec "-" "-") as [_|H]; [|now contradiction H].
  destruct (ascii_dec ">" ">") as [_|H]; [|now contradiction H].
  now destruct rest.
Qed.

Lemma split_arrow_cons (a rest : string) :
  free_of ">" a = true ->
  PyStr.split "->" (a ++ "->" ++ rest) = a :: PyStr.split "->" rest.
Proof.
  unfold PyStr.split. induction a as [|x a IH]; intros Hfree.
  - change (EmptyString ++ "->" ++ rest) with (String "-" (String ">" rest)).
    cbn [PyStr.split_from]. rewrite prefix_arrow_here. reflexivity.
  - simpl in Hfree. apply andb_prop in Hfree. destruct Hfree as [Hx Hfree].
    change (String x a ++ "->" ++ rest) with (String x (a ++ "->" ++ rest)).
    cbn [PyStr.split_from]. rewrite prefix_arrow.
    + now rewrite (IH Hfree).
    + simpl. now rewrite Hx.
    + destruct a as [|y a]; simpl.
      * left. reflexivity.
      * left. simpl in Hfree. apply andb_prop in Hfree.
        destruct Hfree as [Hy _]. now apply negb_true_iff in Hy.
Qed.

Lemma split_arrow_none (a : string) :
  free_of ">" a = true -> PyStr.split "->" a = [a].
Proof.
  unfold PyStr.split. induction a as [|x a IH]; intros Hfree; [reflexivity|].
  simpl in Hfree. apply andb_prop in Hfree. destruct Hfree as [Hx Hfree].
  cbn [PyStr.split_from]. rewrite prefix_arrow.
  - now rewrite (IH Hfree).
  - simpl. now rewrite Hx.
  - destruct a as [|y a]; [exact I|]. left.
    simpl in Hfree. apply andb_prop in Hfree. destruct Hfree as [Hy _].
    now apply negb_true_iff in Hy.
Qed.

Lemma rstrip_spaceless (s : string) : spaceless s = true -> TP1Test.rstrip s = s.
Proof.
  induction s as [|c rest IH]; simpl; [reflexivity|]. intros H.
  apply andb_prop in H. destruct H as [Hc Hrest]. apply negb_true_iff in Hc.
  rewrite (IH Hrest). destruct rest; [now rewrite Hc|reflexivity].
Qed.

Lemma plain_tidy (s : string) : plain s -> tidy s.
Proof.
  intros (Hne & Hs & _). split; [exact Hne|]. split.
  - destruct s as [|c rest]; [exact I|]. simpl in *.
    apply andb_prop in Hs. destruct Hs as [Hc _]. now apply negb_true_iff in Hc.
  - now apply rstrip_spaceless.
Qed.

Lemma rstrip_app (a b : string) :
  b <> EmptyString -> TP1Test.rstrip b = b -> TP1Test.rstrip (a ++ b) = a ++ b.
Proof.
  intros Hne Hb. induction a as [|c a IH]; [exact Hb|].
  change (String c a ++ b) with (String c (a ++ b)).
  cbn [TP1Test.rstrip]. rewrite IH.
  destruct (a ++ b) eqn:E; [|reflexivity].
  destruct a; simpl in E; [contradiction|discriminate].
Qed.

(** Two tidy texts stay tidy with anything between them. *)
Lemma tidy_around (a mid b : string) : tidy a -> tidy b -> tidy (a ++ mid ++ b).
Proof.
  intros (Ha & Sa & _) (Hb & _ & Rb). split; [|split].
  - destruct a; [contradiction|discriminate].
  - destruct a; [contradiction|exact Sa].
  - rewrite (rstrip_app a (mid ++ b)); [reflexivity| |].
    + destruct mid; [exact Hb|discriminate].
    + now apply rstrip_app.
Qed.

Lemma tidy_join (x : string) (l : list string) :
  Forall tidy (x :: l) -> tidy (PyStr.join ", " (x :: l)).
Proof.
  revert x. induction l as [|y l IH]; intros x H.
  - now inversion H.
  - inversion H; subst. rewrite join_cons. apply tidy_around; auto.
Qed.

Lemma strip_tidy (s : string) : tidy s -> PyStr.strip s = s.
Proof.
  intros (_ & Hs & Hr). unfold PyStr.strip, TP1Test.strip.
  rewrite (lstrip_clean s Hs). exact Hr.
Qed.

Lemma strip_behind_space (s : string) : tidy s -> PyStr.strip (String " " s) = s.
Proof.
  intros H. unfold PyStr.strip, TP1Test.strip.
  change (TP1Test.lstrip (String " " s)) with (TP1Test.lstrip s).
  now apply strip_tidy.
Qed.

Lemma nonempty_tidy (s : string) : tidy s -> AppRuntime.nonempty s = true.
Proof. intros (H & _). destruct s; [contradiction|reflexivity]. Qed.

End StrFacts.

(** ** From the net to the entries and back *)

Module RoundTrip.
Import AppRuntime Plain StrFacts.

Lemma then_run {S A B : Type} (c : G S A) (k : A -> G S B) (s s' : S) (v : A) :
  c s = (s', Done v) -> then_ c k s = k v s'.
Proof. intros H. unfold then_. now rewrite H. Qed.

Lemma guard_loop {S : Type} (t : string) (body : string -> G S unit) :
  (if nonempty t then for_each (PyStr.split "," t) body else unit_ tt) =
  for_each (if nonempty t then PyStr.split "," t else []) body.
Proof. now destruct (nonempty t). Qed.

Lemma plain_free_comma (s : string) : plain s -> free_of "," s = true.
Proof. intros H. apply H. Qed.

(** The pieces read back from an entry that holds tidy items without
    commas, joined with a comma and a space. *)
Lemma pieces_of_join (l : list string) :
  Forall tidy l -> Forall (fun y => free_of "," y = true) l ->
  (if nonempty (PyStr.strip (PyStr.join ", " l))
   then PyStr.split "," (PyStr.strip (PyStr.join ", " l))
   else []) = spaced l.
Proof.
  intros Ht Hf. destruct l as [|x l]; [reflexivity|].
  pose proof (tidy_join x l Ht) as Hj.
  rewrite (strip_tidy _ Hj), (nonempty_tidy _ Hj).
  now apply split_join_comma.
Qed.

Lemma fold_set_fresh {V : Type} (f : string -> V) (names : list string) (d : Dict.t V) :
  NoDup names -> (forall n, In n names -> ~ In n (Dict.keys d)) ->
  fold_left (fun acc n => Dict.set n (f n) acc) names d =
  (d ++ map (fun n => (n, f n)) names)%list.
Proof.
  revert d. induction names as [|n rest IH]; intros d Hnd Hfresh; simpl.
  - now rewrite app_nil_r.
  - inversion Hnd as [|? ? Hnotin Hnd']; subst.
    rewrite set_fresh by (apply Hfresh; now left).
    rewrite IH; [now rewrite <- app_assoc|exact Hnd'|].
    intros m Hm Hk. unfold Dict.keys in Hk. rewrite map_app, in_app_iff in Hk.
    destruct Hk as [Hk|[Hk|[]]].
    + apply (Hfresh m); [now right|exact Hk].
    + simpl in Hk. subst m. contradiction.
Qed.

Lemma keys_set_present {V : Type} (k : string) (v v0 : V) (d : Dict.t V) :
  Dict.get k d = Some v0 -> Dict.keys (Dict.set k v d) = Dict.keys d.
Proof.
  induction d as [|[k' v'] rest IH]; simpl; [discriminate|].
  destruct (String.eqb k k') eqn:E; simpl; [reflexivity|].
  intros H. now rewrite IH.
Qed.

Lemma spaced_jobs_pieces {A : Type} (text : A -> string) (items : list A) :
  map fst (spaced_jobs text items) = spaced (map text items).
Proof.
  destruct items as [|x rest]; [reflexivity|]. simpl. f_equal.
  rewrite !map_map. reflexivity.
Qed.

Lemma spaced_jobs_items {A : Type} (text : A -> string) (items : list A) :
  map snd (spaced_jobs text items) = items.
Proof.
  destruct items as [|x rest]; [reflexivity|]. simpl. f_equal.
  rewrite map_map. simpl. apply map_id.
Qed.

Lemma spaced_jobs_strip {A : Type} (text : A -> string) (items : list A) :
  Forall (fun x => tidy (text x)) items ->
  Forall (fun j => PyStr.strip (fst j) = text (snd j)) (spaced_jobs text items).
Proof.
  intros H. destruct items as [|x rest]; [constructor|].
  inversion H as [|? ? Hx Hrest]; subst. simpl. constructor.
  - simpl. now apply strip_tidy.
  - apply Forall_forall. intros j Hj. apply in_map_iff in Hj.
    destruct Hj as (y & <- & Hy). simpl. apply strip_behind_space.
    rewrite Forall_forall in Hrest. now apply Hrest.
Qed.

Section Loops.

Variable int_of_str : string -> option Z.
Variable rnd : nat -> Pos.

(** The loop over the places entry, when each piece gives a name and a
    token count. *)
Lemma places_loop (markings : Dict.t string) (jobs : list (string * (string * Z))) :
  Forall (fun j =>
            PyStr.strip (fst j) = fst (snd j) /\
            py_int int_of_str (get_or_zero (fst (snd j)) markings) = Done (snd (snd j)))
         jobs ->
  forall app, exists app',
    for_each (map fst jobs)
      (fun place =>
         (tokens <- try_ (py_int int_of_str (get_or_zero (PyStr.strip place) markings)) ;;
          TP101App.add_place rnd (PyStr.strip place) tokens)%app) app = (app', Done tt) /\
    entries app' = entries app /\
    TP101.places (TP101App.petri_net app') =
      fold_left (fun d nk => Dict.set (fst nk) (TP101.mkPlace (fst nk) (snd nk)) d)
        (map snd jobs) (TP101.places (TP101App.petri_net app)) /\
    TP101.transitions (TP101App.petri_net app') =
      TP101.transitions (TP101App.petri_net app) /\
    TP101.arcs (TP101App.petri_net app') = TP101.arcs (TP101App.petri_net app).
Proof.
  induction 1 as [|[piece [name k]] jobs [Hs Hk] _ IH]; intros app.
  - exists app. repeat split.
  - simpl in Hs, Hk. cbn [map fst for_each].
    set (app1 := fst (TP101App.add_place rnd name k app)).
    destruct (IH app1) as (app' & Hrun & He & Hp & Ht & Ha).
    exists app'. split; [|repeat split].
    + rewrite (then_run _ _ app app1 tt); [exact Hrun|].
      rewrite Hs, Hk. reflexivity.
    + rewrite He. reflexivity.
    + rewrite Hp. reflexivity.
    + rewrite Ht. reflexivity.
    + rewrite Ha. reflexivity.
Qed.

(** The loop over the transitions entry. *)
Lemma transitions_loop (jobs : list (string * string)) :
  Forall (fun j => PyStr.strip (fst j) = snd j) jobs ->
  forall app, exists app',
    for_each (map fst jobs)
      (fun transition => TP101App.add_transition rnd (PyStr.strip transition)) app =
      (app', Done tt) /\
    entries app' = entries app /\
    TP101.places (TP101App.petri_net app') = TP101.places (TP101App.petri_net app) /\
    TP101.transitions (TP101App.petri_net app') =
      fold_left (fun d n => Dict.set n (TP101.new_transition n) d)
        (map snd jobs) (TP101.transitions (TP101App.petri_net app)) /\
    TP101.arcs (TP101App.petri_net app') = TP101.arcs (TP101App.petri_net app).
Proof.
  induction 1 as [|[piece name] jobs Hs _ IH]; intros app.
  - exists app. repeat split.
  - simpl in Hs. cbn [map fst for_each].
    set (app1 := fst (TP101App.add_transition rnd name app)).
    destruct (IH app1) as (app' & Hrun & He & Hp & Ht & Ha).
    exists app'. split; [|repeat split].
    + rewrite (then_run _ _ app app1 tt); [exact Hrun|].
      rewrite Hs. reflexivity.
    + rewrite He. reflexivity.
    + rewrite Hp. reflexivity.
    + rewrite Ht. reflexivity.
    + rewrite Ha. reflexivity.
Qed.

Lemma add_arc_run (source target : string) (w : Z) (app : TP101App.PetriNetApp) :
  exists app',
    TP101App.add_arc source target w app = (app', Done tt) /\
    entries app' = entries app /\
    TP101.places (TP101App.petri_net app') = TP101.places (TP101App.petri_net app) /\
    Dict.keys (TP101.transitions (TP101App.petri_net app')) =
      Dict.keys (TP101.transitions (TP101App.petri_net app)) /\
    TP101.arcs (TP101App.petri_net app') =
      (TP101.arcs (TP101App.petri_net app) ++ [(source, target, w)])%list.
Proof.
  unfold TP101App.add_arc, TP101App.on_net.
  destruct (TP101Facts.tp101_add_arc_cases source target w (TP101App.petri_net app))
    as [(t & p & Gt & Gp & E)|[(t & p & Gt & Gp & E)|(_ & _ & E)]];
    rewrite E; eexists; (split; [reflexivity|]); simpl; repeat split;
    eapply keys_set_present; eassumption.
Qed.

(** The loop over the arcs entry, when each piece gives two endpoints. *)
Lemma arcs_loop (jobs : list (string * (string * string * Z))) :
  Forall (fun j =>
            unpack2 (PyStr.split "->" (PyStr.strip (fst j))) =
              Done (fst (fst (snd j)), snd (fst (snd j))) /\
            PyStr.strip (fst (fst (snd j))) = fst (fst (snd j)) /\
            PyStr.strip (snd (fst (snd j))) = snd (fst (snd j)))
         jobs ->
  forall app, exists app',
    for_each (map fst jobs)
      (fun arc =>
         (sd <- try_ (unpack2 (PyStr.split "->" (PyStr.strip arc))) ;;
          TP101App.add_arc (PyStr.strip (fst sd)) (PyStr.strip (snd sd)) 1)%app) app =
      (app', Done tt) /\
    entries app' = entries app /\
    TP101.places (TP101App.petri_net app') = TP101.places (TP101App.petri_net app) /\
    Dict.keys (TP101.transitions (TP101App.petri_net app')) =
      Dict.keys (TP101.transitions (TP101App.petri_net app)) /\
    TP101.arcs (TP101App.petri_net app') =
      (TP101.arcs (TP101App.petri_net app) ++ unit_arcs (map snd jobs))%list.
Proof.
  induction 1 as [|[piece [[src dst] w0]] jobs (Hu & Hs & Hd) _ IH]; intros app.
  - exists app. repeat split. simpl. now rewrite app_nil_r.
  - simpl in Hu, Hs, Hd. cbn [map fst for_each].
    destruct (add_arc_run src dst 1 app) as (app1 & Hrun1 & He1 & Hp1 & Ht1 & Ha1).
    destruct (IH app1) as (app' & Hrun & He & Hp & Ht & Ha).
    exists app'. split; [|repeat split].
    + rewrite (then_run _ _ app app1 tt); [exact Hrun|].
      rewrite Hu. cbn [try_ then_ fst snd]. rewrite Hs, Hd. exact Hrun1.
    + now rewrite He.
    + now rewrite Hp.
    + now rewrite Ht.
    + rewrite Ha, Ha1, <- app_assoc. reflexivity.
Qed.

End Loops.

Lemma guard_dict {S : Type} (t : string) :
  (if nonempty t
   then try_ (dict_of_pairs (map (PyStr.split "=") (PyStr.split "," t)))
   else unit_ Dict.empty) =
  (try_ (dict_of_pairs
           (map (PyStr.split "=") (if nonempty t then PyStr.split "," t else [])))
   : G S (Dict.t string)).
Proof. now destruct (nonempty t). Qed.

Lemma split_row (n v : string) :
  free_of "=" n = true -> free_of "=" v = true ->
  PyStr.split "=" (n ++ "=" ++ v) = [n; v].
Proof.
  intros Hn Hv. change (n ++ "=" ++ v) with (n ++ String "=" v).
  rewrite (split_single_cons "=" n v Hn). f_equal. now apply split_single_none.
Qed.

Lemma not_behind_space (n k : string) :
  GraphView.starts_clean n -> n <> String " " k.
Proof. intros H ->. simpl in H. discriminate H. Qed.

(** Entries written behind a space are not found under a tidy name. *)
Lemma dict_from_spaced (rows : list (string * string)) (d : Dict.t string) :
  exists m,
    dict_from (map (fun r => [String " " (fst r); snd r]) rows) d = Done m /\
    forall n, GraphView.starts_clean n -> Dict.get n m = Dict.get n d.
Proof.
  revert d. induction rows as [|[k v] rows IH]; intros d.
  - exists d. split; [reflexivity|auto].
  - cbn [map dict_from fst snd].
    destruct (IH (Dict.set (String " " k) v d)) as (m & E & Hget).
    exists m. split; [exact E|]. intros n Hn.
    rewrite (Hget n Hn). apply DictFacts.get_set_other.
    intros Heq. now apply (not_behind_space n k Hn).
Qed.

(** The dictionary that [generate_network] reads from a marking entry
    written by [_update_form_fields]: a tidy name finds the digits of the
    first place and nothing else. *)
Lemma markings_of_rows (rows : list (string * string)) :
  Forall (fun r => free_of "=" (fst r) = true /\ free_of "=" (snd r) = true) rows ->
  exists m,
    dict_of_pairs (map (PyStr.split "=") (spaced (map row_text rows))) = Done m /\
    forall n, GraphView.starts_clean n ->
      Dict.get n m =
      match rows with
      | [] => None
      | (n1, v1) :: _ => if String.eqb n n1 then Some v1 else None
      end.
Proof.
  intros H. destruct rows as [|[n1 v1] rows].
  - exists Dict.empty. split; [reflexivity|auto].
  - inversion H as [|? ? [Hn Hv] Hrows]; subst. simpl in Hn, Hv.
    destruct (dict_from_spaced rows (Dict.set n1 v1 Dict.empty)) as (m & E & Hget).
    exists m. split.
    + unfold dict_of_pairs. cbn [map spaced]. unfold row_text at 1. cbn [fst snd].
      rewrite (split_row n1 v1 Hn Hv). cbn [dict_from]. rewrite <- E. f_equal.
      rewrite !map_map. apply map_ext_in. intros [k v] Hin.
      rewrite Forall_forall in Hrows. destruct (Hrows _ Hin) as [Hk Hv'].
      simpl in Hk, Hv'. unfold row_text. cbn [fst snd].
      change (String " " (k ++ "=" ++ v)) with (String " " k ++ "=" ++ v).
      apply split_row; [|exact Hv']. simpl. exact Hk.
    + intros n Hn'. rewrite (Hget n Hn'). simpl.
      now destruct (String.eqb n n1).
Qed.

Lemma spaced_jobs_In {A : Type} (text : A -> string) (items : list A) (j : string * A) :
  In j (spaced_jobs text items) -> In (snd j) items.
Proof.
  intros H. rewrite <- (spaced_jobs_items text items). now apply in_map.
Qed.

Lemma fold_set_pairs {A V : Type} (g : string * A -> V) (l : list (string * A))
  (d : Dict.t V) :
  NoDup (map fst l) -> (forall x, In x l -> ~ In (fst x) (Dict.keys d)) ->
  fold_left (fun acc x => Dict.set (fst x) (g x) acc) l d =
  (d ++ map (fun x => (fst x, g x)) l)%list.
Proof.
  revert d. induction l as [|x rest IH]; intros d Hnd Hfresh; simpl.
  - now rewrite app_nil_r.
  - inversion Hnd as [|? ? Hnotin Hnd']; subst.
    rewrite set_fresh by (apply Hfresh; now left).
    rewrite IH; [now rewrite <- app_assoc|exact Hnd'|].
    intros y Hy Hk. unfold Dict.keys in Hk. rewrite map_app, in_app_iff in Hk.
    destruct Hk as [Hk|[Hk|[]]].
    + apply (Hfresh y); [now right|exact Hk].
    + simpl in Hk. apply Hnotin. rewrite Hk. now apply in_map.
Qed.

Lemma expected_places_names (items : list (string * TP101.Place)) :
  map fst (expected_places items) = map fst items.
Proof.
  destruct items as [|[n p] rest]; [reflexivity|]. simpl. f_equal.
  now rewrite map_map.
Qed.

Lemma expected_places_regenerated (items : list (string * TP101.Place)) :
  map (fun nk => (fst nk, TP101.mkPlace (fst nk) (snd nk))) (expected_places items) =
  regenerated_places items.
Proof.
  destruct items as [|[n p] rest]; [reflexivity|]. simpl. f_equal.
  now rewrite map_map.
Qed.

Section Printing.

Variable int_of_str : string -> option Z.
Variable str_of_int : Z -> option string.

Lemma printed_rows (items : list (string * TP101.Place)) :
  printable int_of_str str_of_int items ->
  exists rows,
    map fst rows = map fst items /\
    TP101App.marking_texts str_of_int items = Done (map row_text rows) /\
    Forall (fun r => plain (snd r)) rows /\
    match items, rows with
    | (n, p) :: _, (n', v) :: _ => n' = n /\ int_of_str v = Some (TP101.tokens p)
    | [], [] => True
    | _, _ => False
    end.
Proof.
  induction items as [|[n p] rest IH]; intros H.
  - exists []. repeat split. constructor.
  - destruct (H n p (or_introl eq_refl)) as (v & Hs & Hv & Hi).
    destruct IH as (rows & Hn & Ht & Hp & _).
    { intros n' p' Hin. apply (H n' p'). now right. }
    exists ((n, v) :: rows). repeat split.
    + simpl. now rewrite Hn.
    + cbn [TP101App.marking_texts]. rewrite Hs, Ht. reflexivity.
    + constructor; auto.
    + exact Hi.
Qed.

End Printing.

Lemma plain_row_tidy (r : string * string) :
  plain (fst r) -> plain (snd r) -> tidy (row_text r).
Proof. intros Hn Hv. apply tidy_around; now apply plain_tidy. Qed.

Lemma plain_arc_tidy (a : string * string * Z) :
  plain (fst (fst a)) -> plain (snd (fst a)) -> tidy (arc_text a).
Proof. intros Hs Hd. apply tidy_around; now apply plain_tidy. Qed.

Lemma plain_row_free (r : string * string) :
  plain (fst r) -> plain (snd r) -> free_of "," (row_text r) = true.
Proof.
  intros (_ & _ & Hn & _) (_ & _ & Hv & _). unfold row_text.
  rewrite !free_of_app, Hn, Hv. reflexivity.
Qed.

Lemma plain_arc_free (a : string * string * Z) :
  plain (fst (fst a)) -> plain (snd (fst a)) -> free_of "," (arc_text a) = true.
Proof.
  intros (_ & _ & Hs & _) (_ & _ & Hd & _). unfold arc_text.
  rewrite !free_of_app, Hs, Hd. reflexivity.
Qed.

Lemma plain_arc_unpack (a : string * string * Z) :
  plain (fst (fst a)) -> plain (snd (fst a)) ->
  unpack2 (PyStr.split "->" (arc_text a)) = Done (fst (fst a), snd (fst a)).
Proof.
  intros (_ & _ & _ & _ & Hs) (_ & _ & _ & _ & Hd). unfold arc_text.
  rewrite (split_arrow_cons _ _ Hs), (split_arrow_none _ Hd). reflexivity.
Qed.

End RoundTrip.

Section FormRoundTrip.
Import AppRuntime Plain StrFacts RoundTrip.

Variable int_of_str : string -> option Z.
Variable str_of_int : Z -> option string.
Variable rnd : nat -> Pos.

(** X14.  Filling the entries from the net with [_update_form_fields] and
    building the net again from them with [generate_network] does not give
    the net back.  For a net whose names are plain (no white space, comma,
    [=] or [>]) and whose token counts print and read back, both steps
    succeed; the places, the transitions and the arcs come back under the
    same names and in the same order, but only the first place keeps its
    token count, every other place has 0, and every arc has weight 1.  (The
    entries are joined with a comma and a space, and the space stays in the
    names of the marking.) *)
Theorem form_round_trip_loses_tokens_and_weights (app : TP101App.PetriNetApp) :
  let net := TP101App.petri_net app in
  NoDup (Dict.keys (TP101.places net)) ->
  NoDup (Dict.keys (TP101.transitions net)) ->
  Forall plain (Dict.keys (TP101.places net)) ->
  Forall plain (Dict.keys (TP101.transitions net)) ->
  Forall (fun a => plain (fst (fst a)) /\ plain (snd (fst a))) (TP101.arcs net) ->
  printable int_of_str str_of_int (Dict.items (TP101.places net)) ->
  exists app1 app2,
    TP101App._update_form_fields str_of_int app = (app1, Done tt) /\
    TP101App.generate_network int_of_str rnd app1 = (app2, Done tt) /\
    TP101.places (TP101App.petri_net app2) =
      regenerated_places (Dict.items (TP101.places net)) /\
    Dict.keys (TP101.transitions (TP101App.petri_net app2)) =
      Dict.keys (TP101.transitions net) /\
    TP101.arcs (TP101App.petri_net app2) = unit_arcs (TP101.arcs net).
Proof.
  intros net Hpd Htd Hpp Htp Hap Hprint.
  destruct (printed_rows int_of_str str_of_int _ Hprint)
    as (rows & Hrn & Htexts & Hrv & Hfirst).
  set (items := Dict.items (TP101.places net)) in *.
  set (names := Dict.keys (TP101.places net)) in *.
  set (tnames := Dict.keys (TP101.transitions net)) in *.
  assert (Hnames : names = map fst items) by reflexivity.
  assert (Hrows_plain : Forall (fun r => plain (fst r) /\ plain (snd r)) rows).
  { apply Forall_forall. intros r Hr. split.
    - rewrite Forall_forall in Hpp. apply Hpp. rewrite Hnames, <- Hrn.
      now apply in_map.
    - rewrite Forall_forall in Hrv. now apply Hrv. }
  set (app1 :=
         TP101App.mkApp net (PyStr.join ", " names) (PyStr.join ", " tnames)
           (PyStr.join ", " (map arc_text (TP101.arcs net)))
           (PyStr.join ", " (map row_text rows)) (TP101App.drawn app)).
  exists app1.
  assert (Hupdate : TP101App._update_form_fields str_of_int app = (app1, Done tt)).
  { unfold TP101App._update_form_fields, then_, read, update, try_. simpl.
    fold net items. rewrite Htexts. reflexivity. }
  set (app1r := TP101App.set_petri_net (fun _ => TP101.new_net) app1).
  (* the marking dictionary *)
  destruct (markings_of_rows rows) as (m & Hm & Hget).
  { apply Forall_forall. intros r Hr. rewrite Forall_forall in Hrows_plain.
    destruct (Hrows_plain r Hr) as [(_ & _ & _ & Hn & _) (_ & _ & _ & Hv & _)]. auto. }
  (* the places *)
  assert (Hpjobs :
    Forall (fun j =>
              PyStr.strip (fst j) = fst (snd j) /\
              py_int int_of_str (get_or_zero (fst (snd j)) m) = Done (snd (snd j)))
           (spaced_jobs fst (expected_places items))).
  { apply Forall_forall. intros j Hj. split.
    - assert (Hs : Forall (fun j => PyStr.strip (fst j) = fst (snd j))
                     (spaced_jobs fst (expected_places items))).
      { apply spaced_jobs_strip. apply Forall_forall. intros x Hx.
        apply plain_tidy. rewrite Forall_forall in Hpp. apply Hpp.
        rewrite Hnames, <- expected_places_names. now apply in_map. }
      rewrite Forall_forall in Hs. now apply Hs.
    - apply spaced_jobs_In in Hj. destruct (snd j) as [n k]. simpl.
      assert (Hn : GraphView.starts_clean n).
      { apply plain_tidy. rewrite Forall_forall in Hpp. apply Hpp.
        rewrite Hnames, <- expected_places_names. apply (in_map fst _ _ Hj). }
      unfold get_or_zero. rewrite (Hget n Hn).
      destruct items as [|[n1 p1] rest]; [destruct Hj|].
      destruct rows as [|[n1' v1] rows]; [destruct Hfirst|].
      destruct Hfirst as [-> Hint]. simpl in Hj. destruct Hj as [[= <- <-]|Hj].
      + rewrite String.eqb_refl. simpl. now rewrite Hint.
      + apply in_map_iff in Hj. destruct Hj as ([n' p'] & [= <- <-] & Hin).
        destruct (String.eqb n' n1) eqn:E; [|reflexivity].
        apply String.eqb_eq in E. subst n'. exfalso.
        rewrite Hnames in Hpd. simpl in Hpd.
        inversion Hpd as [|? ? Hnotin _]; subst. apply Hnotin.
        apply (in_map fst _ _ Hin). }
  destruct (places_loop int_of_str rnd m _ Hpjobs app1r)
    as (app2 & Hrun2 & He2 & Hp2 & Ht2 & Ha2).
  (* the transitions *)
  assert (Htjobs : Forall (fun j => PyStr.strip (fst j) = snd j)
                     (spaced_jobs (fun n : string => n) tnames)).
  { apply (spaced_jobs_strip (fun n : string => n)).
    apply Forall_forall. intros n Hn. apply plain_tidy.
    rewrite Forall_forall in Htp. now apply Htp. }
  destruct (transitions_loop rnd _ Htjobs app2)
    as (app3 & Hrun3 & He3 & Hp3 & Ht3 & Ha3).
  (* the arcs *)
  assert (Hajobs :
    Forall (fun j =>
              unpack2 (PyStr.split "->" (PyStr.strip (fst j))) =
                Done (fst (fst (snd j)), snd (fst (snd j))) /\
              PyStr.strip (fst (fst (snd j))) = fst (fst (snd j)) /\
              PyStr.strip (snd (fst (snd j))) = snd (fst (snd j)))
           (spaced_jobs arc_text (TP101.arcs net))).
  { assert (Hs : Forall (fun j => PyStr.strip (fst j) = arc_text (snd j))
                   (spaced_jobs arc_text (TP101.arcs net))).
    { apply spaced_jobs_strip. apply Forall_forall. intros a Ha.
      rewrite Forall_forall in Hap. destruct (Hap a Ha). now apply plain_arc_tidy. }
    apply Forall_forall. intros j Hj.
    rewrite Forall_forall in Hs. rewrite (Hs j Hj).
    apply spaced_jobs_In in Hj. rewrite Forall_forall in Hap.
    destruct (Hap _ Hj) as [Hsrc Hdst]. split; [|split].
    - now apply plain_arc_unpack.
    - now apply strip_tidy, plain_tidy.
    - now apply strip_tidy, plain_tidy. }
  destruct (arcs_loop _ Hajobs app3) as (app4 & Hrun4 & He4 & Hp4 & Ht4 & Ha4).
  exists app4. split; [exact Hupdate|]. split; [|split; [|split]].
  - unfold TP101App.generate_network. cbv zeta.
    rewrite (then_run _ _ app1 app1r tt eq_refl).
    rewrite (then_run _ _ app1r app1r _ eq_refl).
    change (TP101App.marking_entry app1r) with (PyStr.join ", " (map row_text rows)).
    rewrite guard_dict, pieces_of_join.
    + rewrite (then_run _ _ app1r app1r m) by (unfold try_; now rewrite Hm).
      rewrite (then_run _ _ app1r app1r _ eq_refl).
      change (TP101App.places_entry app1r) with (PyStr.join ", " names).
      rewrite guard_loop, pieces_of_join.
      * rewrite Hnames, <- expected_places_names, <- (spaced_jobs_pieces fst).
        rewrite (then_run _ _ app1r app2 tt Hrun2).
        rewrite (then_run _ _ app2 app2 _ eq_refl).
        assert (E2 : TP101App.transitions_entry app2 = PyStr.join ", " tnames)
          by (injection He2 as _ E _ _; exact E).
        rewrite E2, guard_loop, pieces_of_join.
        -- rewrite <- (map_id tnames) at 1.
           rewrite <- (spaced_jobs_pieces (fun n : string => n)).
           rewrite (then_run _ _ app2 app3 tt Hrun3).
           rewrite (then_run _ _ app3 app3 _ eq_refl).
           assert (E3 : TP101App.arcs_entry app3 =
                        PyStr.join ", " (map arc_text (TP101.arcs net))).
           { injection He3 as _ _ E _. rewrite E.
             injection He2 as _ _ E' _. exact E'. }
           rewrite E3, guard_loop, pieces_of_join.
           ++ rewrite <- (spaced_jobs_pieces arc_text). exact Hrun4.
           ++ apply Forall_forall. intros t Ht. apply in_map_iff in Ht.
              destruct Ht as (a & <- & Ha). rewrite Forall_forall in Hap.
              destruct (Hap a Ha). now apply plain_arc_tidy.
           ++ apply Forall_forall. intros t Ht. apply in_map_iff in Ht.
              destruct Ht as (a & <- & Ha). rewrite Forall_forall in Hap.
              destruct (Hap a Ha). now apply plain_arc_free.
        -- apply Forall_forall. intros n Hn. apply plain_tidy.
           rewrite Forall_forall in Htp. now apply Htp.
        -- apply Forall_forall. intros n Hn. apply plain_free_comma.
           rewrite Forall_forall in Htp. now apply Htp.
      * apply Forall_forall. intros n Hn. apply plain_tidy.
        rewrite Forall_forall in Hpp. now apply Hpp.
      * apply Forall_forall. intros n Hn. apply plain_free_comma.
        rewrite Forall_forall in Hpp. now apply Hpp.
    + apply Forall_forall. intros t Ht. apply in_map_iff in Ht.
      destruct Ht as (r & <- & Hr). rewrite Forall_forall in Hrows_plain.
      destruct (Hrows_plain r Hr). now apply plain_row_tidy.
    + apply Forall_forall. intros t Ht. apply in_map_iff in Ht.
      destruct Ht as (r & <- & Hr). rewrite Forall_forall in Hrows_plain.
      destruct (Hrows_plain r Hr). now apply plain_row_free.
  - rewrite Hp4, Hp3, Hp2. rewrite spaced_jobs_items.
    rewrite (fold_set_pairs (fun nk => TP101.mkPlace (fst nk) (snd nk))).
    + simpl. apply expected_places_regenerated.
    + rewrite expected_places_names, <- Hnames. exact Hpd.
    + intros x _ [].
  - rewrite Ht4, Ht3, Ht2. rewrite spaced_jobs_items.
    rewrite (fold_set_fresh TP101.new_transition); [|exact Htd|intros n _ []].
    simpl. unfold Dict.keys. rewrite map_map. simpl. apply map_id.
  - rewrite Ha4, Ha3, Ha2. rewrite spaced_jobs_items. reflexivity.
Qed.

End FormRoundTrip.

Section WindowSamples.
Import AppRuntime Plain Samples.

Lemma generate_network_variants_agree_witness :
  same_net
    (PetriNetSimpleApp.petri_net
       (fst (PetriNetSimpleApp.generate_network read_decimal fixed_draws typed_simple)))
    (TP101App.petri_net
       (fst (TP101App.generate_network read_decimal other_draws typed_tp101))) /\
  snd (PetriNetSimpleApp.generate_network read_decimal fixed_draws typed_simple) =
  snd (TP101App.generate_network read_decimal other_draws typed_tp101).
Proof.
  apply (generate_network_variants_agree read_decimal fixed_draws other_draws
           typed_simple typed_tp101); reflexivity.
Defined.

(** The net with 5 and 3 tokens and an arc of weight 2 comes back with 5 and
    0 tokens and weights 1. *)
Lemma form_round_trip_loses_tokens_and_weights_witness :
  exists app1 app2,
    TP101App._update_form_fields print_decimal marked_window = (app1, Done tt) /\
    TP101App.generate_network read_decimal fixed_draws app1 = (app2, Done tt) /\
    TP101.places (TP101App.petri_net app2) =
      [("p1", TP101.mkPlace "p1" 5); ("p2", TP101.mkPlace "p2" 0)] /\
    Dict.keys (TP101.transitions (TP101App.petri_net app2)) = ["t1"] /\
    TP101.arcs (TP101App.petri_net app2) = [("p1", "t1", 1); ("t1", "p2", 1)].
Proof.
  apply (form_round_trip_loses_tokens_and_weights read_decimal print_decimal
           fixed_draws marked_window).
  - simpl. repeat constructor; simpl; intuition discriminate.
  - simpl. repeat constructor; simpl; intuition discriminate.
  - simpl. repeat constructor; discriminate.
  - simpl. repeat constructor; discriminate.
  - simpl. repeat constructor; discriminate.
  - intros n p. simpl.
    intros [[= <- <-]|[[= <- <-]|[]]]; eexists; repeat split; discriminate.
Defined.

End WindowSamples.

(** ** Reading a net file line by line *)

Module FileFacts.
Import AppRuntime Plain.

Lemma for_each_app {S A : Type} (xs ys : list A) (body : A -> G S unit) (s : S) :
  for_each (xs ++ ys) body s =
  then_ (for_each xs body) (fun _ => for_each ys body) s.
Proof.
  revert s. induction xs as [|x xs IH]; intros s.
  - reflexivity.
  - cbn [app for_each]. unfold then_.
    destruct (body x s) as [s' [[]|k]]; [|reflexivity].
    rewrite IH. reflexivity.
Qed.

Section Lines.

Variable int_of_str : string -> option Z.
Variable rnd : nat -> Pos.

Lemma add_place_done (name : string) (k : Z) (s : TP101App.PetriNetApp) :
  snd (TP101App.add_place rnd name k s) = Done tt /\
  entries (fst (TP101App.add_place rnd name k s)) = entries s.
Proof. split; reflexivity. Qed.

Lemma add_transition_done (name : string) (s : TP101App.PetriNetApp) :
  snd (TP101App.add_transition rnd name s) = Done tt /\
  entries (fst (TP101App.add_transition rnd name s)) = entries s.
Proof. split; reflexivity. Qed.

Lemma add_arc_done (source target : string) (w : Z) (s : TP101App.PetriNetApp) :
  snd (TP101App.add_arc source target w s) = Done tt /\
  entries (fst (TP101App.add_arc source target w s)) = entries s.
Proof.
  destruct (RoundTrip.add_arc_run source target w s) as (s' & E & He & _).
  rewrite E. split; [reflexivity|exact He].
Qed.

(** A line changes no entry; a line that fails changes nothing at all, and
    whether a line fails does not depend on the state. *)
Lemma load_line_cases (line : string) (s : TP101App.PetriNetApp) :
  entries (fst (TP101App.load_line int_of_str rnd line s)) = entries s /\
  (forall k, snd (TP101App.load_line int_of_str rnd line s) = Failed k ->
             fst (TP101App.load_line int_of_str rnd line s) = s) /\
  (forall s', snd (TP101App.load_line int_of_str rnd line s') =
              snd (TP101App.load_line int_of_str rnd line s)).
Proof.
  unfold TP101App.load_line.
  destruct (PyStr.split_ws (PyStr.strip line)) as [|keyword more] eqn:Ew.
  - repeat split; discriminate.
  - destruct (String.eqb keyword "PLACE").
    + unfold then_, try_.
      destruct (item (keyword :: more) 1) as [name|k1];
        [|repeat split; congruence].
      destruct (TP101App.fourth_or int_of_str (keyword :: more) 0) as [tokens|k2];
        [|repeat split; congruence].
      destruct (add_place_done name tokens s) as [Hd He].
      split; [exact He|]. split.
      * intros k Hk. rewrite Hd in Hk. discriminate.
      * intros s'. destruct (add_place_done name tokens s') as [Hd' _]. congruence.
    + destruct (String.eqb keyword "TRANSITION").
      * unfold then_, try_.
        destruct (item (keyword :: more) 1) as [name|k1];
          [|repeat split; congruence].
        destruct (add_transition_done name s) as [Hd He].
        split; [exact He|]. split.
        -- intros k Hk. rewrite Hd in Hk. discriminate.
        -- intros s'. destruct (add_transition_done name s') as [Hd' _]. congruence.
      * destruct (String.eqb keyword "ARC"); [|repeat split; discriminate].
        unfold then_, try_.
        destruct (item (keyword :: more) 1) as [src|k1];
          [|repeat split; congruence].
        destruct (item (keyword :: more) 2) as [dst|k2];
          [|repeat split; congruence].
        destruct (TP101App.fourth_or int_of_str (keyword :: more) 1) as [w|k3];
          [|repeat split; congruence].
        destruct (add_arc_done src dst w s) as [Hd He].
        split; [exact He|]. split.
        -- intros k Hk. rewrite Hd in Hk. discriminate.
        -- intros s'. destruct (add_arc_done src dst w s') as [Hd' _]. congruence.
Qed.

Lemma load_lines_entries (lines : list string) (s : TP101App.PetriNetApp) :
  entries (fst (for_each lines (TP101App.load_line int_of_str rnd) s)) = entries s.
Proof.
  revert s. induction lines as [|line lines IH]; intros s; [reflexivity|].
  simpl. unfold then_.
  destruct (load_line_cases line s) as (He & _ & _).
  destruct (TP101App.load_line int_of_str rnd line s) as [s' [[]|k]]; simpl in *.
  - now rewrite IH.
  - exact He.
Qed.

Lemma good_lines_done (good : list string) (app : TP101App.PetriNetApp) :
  (forall line, In line good ->
     snd (TP101App.load_line int_of_str rnd line app) = Done tt) ->
  forall s, snd (for_each good (TP101App.load_line int_of_str rnd) s) = Done tt.
Proof.
  induction good as [|line good IH]; intros H s; [reflexivity|].
  simpl. unfold then_.
  pose proof (H line (or_introl eq_refl)) as Hl.
  destruct (load_line_cases line s) as (_ & _ & Hind).
  rewrite (Hind app) in Hl.
  destruct (TP101App.load_line int_of_str rnd line s) as [s' r]. simpl in Hl.
  subst r. apply IH. intros l Hin. apply H. now right.
Qed.

Lemma update_form_fields_net (str_of_int : Z -> option string)
  (s : TP101App.PetriNetApp) :
  TP101App.petri_net (fst (TP101App._update_form_fields str_of_int s)) =
  TP101App.petri_net s.
Proof.
  unfold TP101App._update_form_fields, then_, read, update, try_. simpl.
  destruct (TP101App.marking_texts str_of_int
              (Dict.items (TP101.places (TP101App.petri_net s)))); reflexivity.
Qed.

Lemma load_net_file_steps (str_of_int : Z -> option string) (lines : list string)
  (app : TP101App.PetriNetApp) :
  TP101App.load_net_file int_of_str str_of_int rnd lines app =
  then_ (for_each lines (TP101App.load_line int_of_str rnd))
    (fun _ => TP101App._update_form_fields str_of_int)
    (TP101App.set_petri_net (fun _ => TP101.new_net) app).
Proof. reflexivity. Qed.

End Lines.

End FileFacts.

Section NetFile.
Import AppRuntime Plain FileFacts.

Variable int_of_str : string -> option Z.
Variable str_of_int : Z -> option string.
Variable rnd : nat -> Pos.

(** X15.  A line that raises cuts the file short.  When the lines before it
    are read without error and it raises, [load_net_file] ends with its
    error, the lines after it are not read, the net is the one that the lines
    before it give, and the four entries are left as they were: they no
    longer describe the net.  Whether a line raises does not depend on the
    lines before it. *)
Theorem load_net_file_stops_at_bad_line (good rest : list string) (bad : string)
  (k : error_class) (app : TP101App.PetriNetApp) :
  (forall line, In line good ->
     snd (TP101App.load_line int_of_str rnd line app) = Done tt) ->
  snd (TP101App.load_line int_of_str rnd bad app) = Failed k ->
  let r := TP101App.load_net_file int_of_str str_of_int rnd (good ++ bad :: rest) app in
  snd r = Failed k /\
  entries (fst r) = entries app /\
  TP101App.petri_net (fst r) =
  TP101App.petri_net (fst (TP101App.load_net_file int_of_str str_of_int rnd good app)).
Proof.
  intros Hgood Hbad.
  set (s0 := TP101App.set_petri_net (fun _ => TP101.new_net) app).
  pose proof (good_lines_done _ _ good app Hgood s0) as Hdone.
  pose proof (load_lines_entries int_of_str rnd good s0) as Hent.
  destruct (for_each good (TP101App.load_line int_of_str rnd) s0) as [s1 r1] eqn:E1.
  simpl in Hdone, Hent. subst r1.
  destruct (load_line_cases int_of_str rnd bad s1) as (_ & Hsame & Hind).
  rewrite (Hind app) in Hbad.
  assert (Ecut : for_each (good ++ bad :: rest) (TP101App.load_line int_of_str rnd) s0 =
                 (s1, Failed k)).
  { rewrite for_each_app. unfold then_ at 1. rewrite E1. cbn [for_each]. unfold then_.
    specialize (Hsame k Hbad).
    destruct (TP101App.load_line int_of_str rnd bad s1) as [s2 r2]. simpl in *.
    now subst. }
  rewrite !load_net_file_steps. fold s0.
  unfold then_. rewrite Ecut, E1. cbn [fst snd].
  split; [reflexivity|]. split; [exact Hent|].
  now rewrite update_form_fields_net.
Qed.

(** X16.  A line without words, and a line whose first word is none of
    [PLACE], [TRANSITION] and [ARC], is passed over: the file with the line
    removed gives the same net, the same entries and the same outcome. *)
Theorem load_net_file_skips_other_lines (before after : list string) (line : string)
  (app : TP101App.PetriNetApp) :
  match PyStr.split_ws (PyStr.strip line) with
  | [] => True
  | keyword :: _ => keyword <> "PLACE" /\ keyword <> "TRANSITION" /\ keyword <> "ARC"
  end ->
  TP101App.load_net_file int_of_str str_of_int rnd (before ++ line :: after) app =
  TP101App.load_net_file int_of_str str_of_int rnd (before ++ after) app.
Proof.
  intros Hline.
  assert (Hskip : TP101App.load_line int_of_str rnd line = unit_ tt).
  { unfold TP101App.load_line.
    destruct (PyStr.split_ws (PyStr.strip line)) as [|keyword more]; [reflexivity|].
    destruct Hline as (H1 & H2 & H3).
    apply String.eqb_neq in H1, H2, H3. now rewrite H1, H2, H3. }
  rewrite !load_net_file_steps.
  unfold then_ at 1 2. rewrite !for_each_app. unfold then_ at 1 2.
  destruct (for_each before (TP101App.load_line int_of_str rnd)
              (TP101App.set_petri_net (fun _ => TP101.new_net) app)) as [s1 [[]|k]];
    [|reflexivity].
  cbn [for_each]. rewrite Hskip. reflexivity.
Qed.

End NetFile.

Section NetFileSamples.
Import AppRuntime Plain Samples.

(** A line that holds [PLACE] alone raises [IndexError]; the place of the
    line before it is in the net and the entries stay empty. *)
Lemma load_net_file_stops_at_bad_line_witness :
  let r := TP101App.load_net_file read_decimal print_decimal fixed_draws
             (["PLACE p1 at 5"] ++ "PLACE" :: ["TRANSITION t1"]) marked_window in
  snd r = Failed IndexErrorClass /\
  entries (fst r) = entries marked_window /\
  TP101App.petri_net (fst r) =
  TP101App.petri_net
    (fst (TP101App.load_net_file read_decimal print_decimal fixed_draws
            ["PLACE p1 at 5"] marked_window)).
Proof.
  apply (load_net_file_stops_at_bad_line read_decimal print_decimal fixed_draws
           ["PLACE p1 at 5"] ["TRANSITION t1"] "PLACE" IndexErrorClass marked_window).
  - intros line [<-|[]]. reflexivity.
  - reflexivity.
Defined.

Lemma load_net_file_skips_other_lines_witness :
  TP101App.load_net_file read_decimal print_decimal fixed_draws
    (["PLACE p1 at 5"] ++ "# a remark" :: ["TRANSITION t1"]) marked_window =
  TP101App.load_net_file read_decimal print_decimal fixed_draws
    (["PLACE p1 at 5"] ++ ["TRANSITION t1"]) marked_window.
Proof.
  apply (load_net_file_skips_other_lines read_decimal print_decimal fixed_draws
           ["PLACE p1 at 5"] ["TRANSITION t1"] "# a remark" marked_window).
  simpl. repeat split; discriminate.
Defined.

End NetFileSamples.

(** ** The analyzer behind its window *)

Module GuiFacts.
Import AppRuntime GuiView.

Lemma unpack_arcs_pairs (pairs : list (string * string)) :
  TP1TestGui.unpack_arcs (map as_list pairs) = Done (TP1Test.stripped_arcs pairs).
Proof.
  induction pairs as [|[src dest] rest IH]; [reflexivity|].
  cbn [map TP1TestGui.unpack_arcs as_list unpack2 fst snd]. rewrite IH. reflexivity.
Qed.

Lemma unpack_arcs_fails (arcs : list (list string)) :
  (exists arc, In arc arcs /\ List.length arc <> 2%nat) ->
  TP1TestGui.unpack_arcs arcs = Failed ValueErrorClass.
Proof.
  induction arcs as [|arc rest IH]; intros (bad & Hin & Hlen); [destruct Hin|].
  cbn [TP1TestGui.unpack_arcs].
  destruct arc as [|a [|b [|c more]]]; try reflexivity.
  cbn [unpack2]. destruct Hin as [<-|Hin]; [now contradiction Hlen|].
  rewrite IH by eauto. reflexivity.
Qed.

Section Reading.

Variable int_of_str : string -> option Z.

Lemma int_marking_reads (items : list (string * string)) (typed : list (string * Z))
  (d : Dict.t Z) :
  reads_as int_of_str items typed ->
  TP1TestGui.int_marking int_of_str items d =
  Done (fold_left (fun acc pv => Dict.set (TP1Test.strip (fst pv)) (snd pv) acc) typed d).
Proof.
  intros H. revert d. induction H as [|[k v] [k' z] items typed [Hk Hv] _ IH]; intros d.
  - reflexivity.
  - simpl in Hk, Hv. cbn [TP1TestGui.int_marking py_int fold_left fst snd].
    rewrite Hv, Hk. apply IH.
Qed.

Lemma int_marking_fails (items : list (string * string)) (d : Dict.t Z) :
  (exists k v, In (k, v) items /\ int_of_str v = None) ->
  TP1TestGui.int_marking int_of_str items d = Failed ValueErrorClass.
Proof.
  revert d. induction items as [|[k v] rest IH]; intros d (k' & v' & Hin & Hv);
    [destruct Hin|].
  cbn [TP1TestGui.int_marking py_int].
  destruct (int_of_str v) as [z|] eqn:E; [|reflexivity].
  apply IH. destruct Hin as [[= <- <-]|Hin]; [congruence|eauto].
Qed.

End Reading.

End GuiFacts.

Section LoadOnStrings.
Import AppRuntime GuiView GuiFacts.

Variable int_of_str : string -> option Z.
Variable set_of : list string -> list string.

Lemma raw_load_is_typed_load (ps ts : list string) (pairs : list (string * string))
  (marking : Dict.t string) (typed : list (string * Z))
  (a0 : TP1Test.PetriNetAnalyzer) :
  reads_as int_of_str (Dict.items marking) typed ->
  TP1TestGui.load_network int_of_str set_of ps ts (map as_list pairs) marking a0 =
  typed_load set_of ps ts pairs typed a0.
Proof.
  intros Hread.
  unfold TP1TestGui.load_network, typed_load, TP1TestGui.of_analyzer.
  rewrite load_network_eq.
  unfold then_, update, try_.
  rewrite unpack_arcs_pairs, (int_marking_reads int_of_str _ typed _ Hread).
  fold (TP1Test.stripped_marking typed).
  unfold TP1Test._validate_network, TP1Test._build_graph, bind, lift, modify, gets.
  cbv zeta. simpl.
  destruct (TP1Test.validate_arcs (set_of ps) (set_of ts) (TP1Test.stripped_arcs pairs))
    as [[]|e]; [|reflexivity].
  destruct (TP1Test.validate_marking (set_of ps)
              (Dict.keys (TP1Test.stripped_marking typed))) as [[]|e]; reflexivity.
Qed.

(** X17.  [load_network] as the window calls it, with arcs given as lists of
    strings and marking values given as strings.  When each arc is a list of
    two strings and each value is the text of an integer, it does what the
    load of the pairs and integers does: same final state, same outcome.
    When some arc is not a list of two, it raises [ValueError] with only the
    places and the transitions replaced.  When the arcs are lists of two and
    some value is not the text of an integer, it raises [ValueError] with the
    places, the transitions and the arcs replaced and the marking and the
    graph as before. *)
Theorem load_network_on_strings (ps ts : list string) (arcs : list (list string))
  (pairs : list (string * string)) (marking : Dict.t string)
  (typed : list (string * Z)) (a0 : TP1Test.PetriNetAnalyzer) :
  (arcs = map as_list pairs ->
   reads_as int_of_str (Dict.items marking) typed ->
   TP1TestGui.load_network int_of_str set_of ps ts arcs marking a0 =
   typed_load set_of ps ts pairs typed a0) /\
  ((exists arc, In arc arcs /\ List.length arc <> 2%nat) ->
   TP1TestGui.load_network int_of_str set_of ps ts arcs marking a0 =
   (with_nodes set_of ps ts a0, Failed ValueErrorClass)) /\
  (arcs = map as_list pairs ->
   (exists k v, In (k, v) (Dict.items marking) /\ int_of_str v = None) ->
   TP1TestGui.load_network int_of_str set_of ps ts arcs marking a0 =
   (TP1Test.set_arcs (TP1Test.stripped_arcs pairs) (with_nodes set_of ps ts a0),
    Failed ValueErrorClass)).
Proof.
  split; [|split].
  - intros ->. apply raw_load_is_typed_load.
  - intros Hbad. unfold TP1TestGui.load_network, then_, update, try_.
    now rewrite (unpack_arcs_fails arcs Hbad).
  - intros -> Hbad. unfold TP1TestGui.load_network, then_, update, try_.
    rewrite unpack_arcs_pairs.
    now rewrite (int_marking_fails int_of_str _ _ Hbad).
Qed.

End LoadOnStrings.

(** ** From the entries of the analyzer window to the analyzer *)

Module EntryFacts.
Import AppRuntime Plain StrFacts RoundTrip GuiView GuiFacts.

Lemma split_join_bare (x : string) (l : list string) :
  Forall (fun y => free_of "," y = true) (x :: l) ->
  PyStr.split "," (PyStr.join "," (x :: l)) = x :: l.
Proof.
  revert x. induction l as [|y l IH]; intros x H.
  - inversion H; subst. now apply split_single_none.
  - inversion H as [|? ? Hx Hl]; subst. rewrite join_cons.
    change (x ++ "," ++ PyStr.join "," (y :: l))
      with (x ++ String "," (PyStr.join "," (y :: l))).
    rewrite (split_single_cons "," x _ Hx). f_equal. now apply IH.
Qed.

Lemma filter_all {A : Type} (f : A -> bool) (l : list A) :
  Forall (fun x => f x = true) l -> filter f l = l.
Proof.
  induction 1 as [|x l Hx _ IH]; simpl; [reflexivity|]. now rewrite Hx, IH.
Qed.

Lemma holds_strip (piece x : string) : tidy x -> holds piece x -> PyStr.strip piece = x.
Proof.
  intros Hx [->| ->]; [now apply strip_tidy|now apply strip_behind_space].
Qed.

Lemma holds_spaced (l : list string) : Forall2 holds (spaced l) l.
Proof.
  destruct l as [|x l]; [constructor|]. simpl. constructor; [now left|].
  induction l as [|y l IH]; simpl; constructor; [now right|exact IH].
Qed.

Lemma holds_same (l : list string) : Forall2 holds l l.
Proof. induction l; constructor; [now left|assumption]. Qed.

(** The pieces read from an entry that lists tidy items without commas. *)
Lemma pieces_of_entry (sep : string) (l : list string) :
  sep = "," \/ sep = ", " ->
  Forall tidy l -> Forall (fun y => free_of "," y = true) l ->
  exists ps, TP1TestGui.pieces (PyStr.join sep l) = ps /\ Forall2 holds ps l.
Proof.
  intros Hsep Ht Hf. destruct l as [|x l].
  - exists []. split; [destruct Hsep as [->| ->]; reflexivity|constructor].
  - assert (Hsplit : exists ps,
              PyStr.split "," (PyStr.join sep (x :: l)) = ps /\ Forall2 holds ps (x :: l)).
    { destruct Hsep as [->| ->].
      - rewrite (split_join_bare x l Hf). eexists; split; [reflexivity|apply holds_same].
      - rewrite (split_join_comma x l Hf). eexists; split; [reflexivity|].
        apply (holds_spaced (x :: l)). }
    destruct Hsplit as (ps & Hps & Hholds). exists ps. split; [|exact Hholds].
    unfold TP1TestGui.pieces. rewrite Hps. apply filter_all.
    clear Hps Hf. revert Ht. induction Hholds as [|p y ps l' Hp _ IH]; intros Ht;
      [constructor|].
    inversion Ht; subst. constructor; [|now apply IH].
    rewrite (holds_strip p y); [now apply nonempty_tidy|assumption|assumption].
Qed.

Lemma strip_pieces (ps l : list string) :
  Forall tidy l -> Forall2 holds ps l -> map PyStr.strip ps = l.
Proof.
  intros Ht H. induction H as [|p y ps l Hp _ IH]; [reflexivity|].
  inversion Ht; subst. simpl. rewrite (holds_strip p y), IH; auto.
Qed.

Lemma plain_pair_tidy (a : string * string) :
  plain (fst a) -> plain (snd a) -> tidy (pair_text a).
Proof. intros Hs Hd. apply tidy_around; now apply plain_tidy. Qed.

Lemma plain_pair_free (a : string * string) :
  plain (fst a) -> plain (snd a) -> free_of "," (pair_text a) = true.
Proof.
  intros (_ & _ & Hs & _) (_ & _ & Hd & _). unfold pair_text.
  rewrite !free_of_app, Hs, Hd. reflexivity.
Qed.

Lemma split_pair (a : string * string) :
  plain (fst a) -> plain (snd a) -> PyStr.split "->" (pair_text a) = as_list a.
Proof.
  intros (_ & _ & _ & _ & Hs) (_ & _ & _ & _ & Hd). unfold pair_text.
  rewrite (split_arrow_cons _ _ Hs), (split_arrow_none _ Hd). reflexivity.
Qed.

Lemma arcs_of_pieces (ps : list string) (pairs : list (string * string)) :
  Forall (fun a => plain (fst a) /\ plain (snd a)) pairs ->
  Forall2 holds ps (map pair_text pairs) ->
  map (fun a => PyStr.split "->" (PyStr.strip a)) ps = map as_list pairs.
Proof.
  intros Hp. revert ps. induction Hp as [|a pairs [Hs Hd] _ IH]; intros ps H.
  - inversion H. reflexivity.
  - inversion H as [|p ? ps' ? Hhold Hrest]; subst. simpl.
    rewrite (holds_strip p (pair_text a)); [|now apply plain_pair_tidy|exact Hhold].
    rewrite (split_pair a Hs Hd). f_equal. now apply IH.
Qed.

(** The keys and values that the marking entry is split into. *)
Lemma rows_of_pieces (ps : list string) (rows : list (string * string)) :
  Forall (fun r => plain (fst r) /\ plain (snd r)) rows ->
  Forall2 holds ps (map row_text rows) ->
  exists keyed,
    map (PyStr.split "=") ps = map as_list keyed /\
    Forall2 (fun k r => holds (fst k) (fst r) /\ snd k = snd r) keyed rows.
Proof.
  intros Hp. revert ps. induction Hp as [|r rows [Hn Hv] _ IH]; intros ps H.
  - inversion H. exists []. split; constructor.
  - inversion H as [|p ? ps' ? Hhold Hrest]; subst.
    destruct (IH ps' Hrest) as (keyed & Hsplit & Hkeyed).
    assert (Fn : free_of "=" (fst r) = true) by apply Hn.
    assert (Fv : free_of "=" (snd r) = true) by apply Hv.
    destruct Hhold as [->| ->].
    + exists ((fst r, snd r) :: keyed). split.
      * simpl. rewrite Hsplit. f_equal. now apply split_row.
      * constructor; [split; [now left|reflexivity]|exact Hkeyed].
    + exists ((String " " (fst r), snd r) :: keyed). split.
      * simpl. rewrite Hsplit. f_equal.
        change (String " " (row_text r)) with (String " " (fst r) ++ "=" ++ snd r).
        now apply split_row.
      * constructor; [split; [now right|reflexivity]|exact Hkeyed].
Qed.

Lemma dict_from_fresh (keyed : list (string * string)) (d : Dict.t string) :
  NoDup (map fst keyed) ->
  (forall k, In k (map fst keyed) -> ~ In k (Dict.keys d)) ->
  dict_from (map as_list keyed) d = Done (d ++ keyed)%list.
Proof.
  revert d. induction keyed as [|[k v] keyed IH]; intros d Hnd Hfresh.
  - simpl. now rewrite app_nil_r.
  - inversion Hnd as [|? ? Hk Hrest]; subst.
    cbn [map as_list fst snd dict_from].
    rewrite (set_fresh k v d) by (apply Hfresh; now left).
    rewrite IH; [now rewrite <- app_assoc|exact Hrest|].
    intros k' Hin. unfold Dict.keys. rewrite map_app, in_app_iff.
    intros [H|[<-|[]]]; [|exact (Hk Hin)].
    apply (Hfresh k'); [now right|exact H].
Qed.

Lemma keyed_distinct (keyed rows : list (string * string)) :
  Forall (fun r => plain (fst r) /\ plain (snd r)) rows ->
  Forall2 (fun k r => holds (fst k) (fst r) /\ snd k = snd r) keyed rows ->
  NoDup (map fst rows) -> NoDup (map fst keyed).
Proof.
  intros Hp H Hnd. apply (NoDup_map_inv PyStr.strip).
  replace (map PyStr.strip (map fst keyed)) with (map fst rows); [exact Hnd|].
  clear Hnd. induction H as [|k r keyed rows [Hk _] _ IH]; [reflexivity|].
  inversion Hp as [|? ? [Hn _] Hrest]; subst. simpl.
  rewrite (holds_strip (fst k) (fst r)); [|now apply plain_tidy|exact Hk].
  f_equal. now apply IH.
Qed.

Lemma keyed_reads_as (int_of_str : string -> option Z)
  (keyed rows : list (string * string)) (typed : list (string * Z)) :
  Forall (fun r => plain (fst r) /\ plain (snd r)) rows ->
  Forall2 (fun k r => holds (fst k) (fst r) /\ snd k = snd r) keyed rows ->
  reads_as int_of_str rows typed -> reads_as int_of_str keyed typed.
Proof.
  unfold reads_as. intros Hp H. revert typed.
  induction H as [|k r keyed rows [Hk Hv] _ IH]; intros typed Hread.
  - inversion Hread. constructor.
  - inversion Hp as [|? ? [Hn _] Hrest]; subst.
    inversion Hread as [|? kz ? typed' [Hname Hint] Hmore]; subst.
    constructor; [|now apply IH]. split.
    + rewrite Hname.
      change (PyStr.strip (fst r) = PyStr.strip (fst k)).
      rewrite (holds_strip (fst k) (fst r)); [|now apply plain_tidy|exact Hk].
      apply strip_tidy. now apply plain_tidy.
    + now rewrite Hv.
Qed.

End EntryFacts.

Section AnalyzeEntries.
Import AppRuntime Plain StrFacts RoundTrip GuiView GuiFacts EntryFacts.

Variable int_of_str : string -> option Z.
Variable set_of : list string -> list string.

(** X18.  What [_analyze] loads from the entries of the window.  Let the
    entries list places, transitions, arcs [src->dest] and marking rows
    [name=value], separated by a comma or by a comma and a space, with plain
    names and values (not empty, without white space, comma, [=] or [>]), at
    least one place, one transition and one arc, and each place at most once
    in the marking.  When the values read as the integers of [typed], then
    [_analyze] does to the analyzer what [load_network] does with these
    places, transitions, arcs and that marking, with the same outcome: the
    space after a comma changes nothing. *)
Theorem analyze_reads_the_entries (gui : TP1TestGui.PetriNetGUI) (sep : string)
  (ps ts : list string) (pairs : list (string * string))
  (rows : list (string * string)) (typed : list (string * Z)) :
  sep = "," \/ sep = ", " ->
  gui_entries gui = typed_entries sep ps ts pairs rows ->
  ps <> [] -> ts <> [] -> pairs <> [] ->
  Forall plain ps -> Forall plain ts ->
  Forall (fun a => plain (fst a) /\ plain (snd a)) pairs ->
  Forall (fun r => plain (fst r) /\ plain (snd r)) rows ->
  NoDup (map fst rows) ->
  reads_as int_of_str rows typed ->
  TP1TestGui._analyze int_of_str set_of gui =
  (let (a, r) := typed_load set_of ps ts pairs typed (TP1TestGui.analyzer gui) in
   (TP1TestGui.set_analyzer a gui, r)).
Proof.
  intros Hsep Hentries Hps Hts Hpairs Pps Pts Ppairs Prows Hnd Hread.
  unfold gui_entries, typed_entries in Hentries.
  injection Hentries as Eps Ets Earcs Erows.
  assert (Tps : Forall tidy ps) by (eapply Forall_impl; [|exact Pps]; apply plain_tidy).
  assert (Tts : Forall tidy ts) by (eapply Forall_impl; [|exact Pts]; apply plain_tidy).
  assert (Fps : Forall (fun y => free_of "," y = true) ps)
    by (eapply Forall_impl; [|exact Pps]; apply plain_free_comma).
  assert (Fts : Forall (fun y => free_of "," y = true) ts)
    by (eapply Forall_impl; [|exact Pts]; apply plain_free_comma).
  destruct (pieces_of_entry sep ps Hsep Tps Fps) as (pp & Epp & Hpp).
  destruct (pieces_of_entry sep ts Hsep Tts Fts) as (pt & Ept & Hpt).
  destruct (pieces_of_entry sep (map pair_text pairs) Hsep) as (pa & Epa & Hpa).
  { apply Forall_map. eapply Forall_impl; [|exact Ppairs].
    intros a [Hs Hd]. now apply plain_pair_tidy. }
  { apply Forall_map. eapply Forall_impl; [|exact Ppairs].
    intros a [Hs Hd]. now apply plain_pair_free. }
  destruct (pieces_of_entry sep (map row_text rows) Hsep) as (pr & Epr & Hpr).
  { apply Forall_map. eapply Forall_impl; [|exact Prows].
    intros r [Hn Hv]. now apply plain_row_tidy. }
  { apply Forall_map. eapply Forall_impl; [|exact Prows].
    intros r [Hn Hv]. now apply plain_row_free. }
  destruct (rows_of_pieces pr rows Prows Hpr) as (keyed & Hsplit & Hkeyed).
  unfold TP1TestGui._analyze, TP1TestGui._parse_inputs.
  rewrite Eps, Ets, Earcs, Erows, Epp, Ept, Epa, Epr.
  rewrite (strip_pieces pp ps Tps Hpp), (strip_pieces pt ts Tts Hpt).
  rewrite (arcs_of_pieces pa pairs Ppairs Hpa), Hsplit.
  unfold dict_of_pairs.
  rewrite (dict_from_fresh keyed Dict.empty (keyed_distinct keyed rows Prows Hkeyed Hnd))
    by (intros k _ []).
  cbv zeta.
  destruct ps as [|p0 ps']; [contradiction|].
  destruct ts as [|t0 ts']; [contradiction|].
  destruct pairs as [|a0 pairs']; [contradiction|].
  change (Dict.empty ++ keyed)%list with keyed.
  cbn [map].
  change (as_list a0 :: map as_list pairs') with (map as_list (a0 :: pairs')).
  rewrite (raw_load_is_typed_load int_of_str set_of (p0 :: ps') (t0 :: ts')
             (a0 :: pairs') keyed typed (TP1TestGui.analyzer gui)
             (keyed_reads_as int_of_str keyed rows typed Prows Hkeyed Hread)).
  reflexivity.
Qed.

End AnalyzeEntries.

Section AnalyzeSamples.
Import AppRuntime Plain GuiView Samples.

Lemma load_network_on_strings_witness :
  TP1TestGui.load_network read_decimal TP1Test.first_occurrences
    ["p1"; "p2"] ["t1"] [["p1"; "t1"]; ["t1"; "p2"]] [("p1", "1"); (" p2", "0")]
    TP1Test.new_analyzer =
  typed_load TP1Test.first_occurrences ["p1"; "p2"] ["t1"]
    [("p1", "t1"); ("t1", "p2")] [("p1", 1); ("p2", 0)] TP1Test.new_analyzer /\
  TP1TestGui.load_network read_decimal TP1Test.first_occurrences
    ["p1"; "p2"] ["t1"] [["p1"; "t1"; "p2"]] [("p1", "1")] TP1Test.new_analyzer =
  (with_nodes TP1Test.first_occurrences ["p1"; "p2"] ["t1"] TP1Test.new_analyzer,
   Failed ValueErrorClass) /\
  TP1TestGui.load_network read_decimal TP1Test.first_occurrences
    ["p1"; "p2"] ["t1"] [["p1"; "t1"]] [("p1", "one")] TP1Test.new_analyzer =
  (TP1Test.set_arcs (TP1Test.stripped_arcs [("p1", "t1")])
     (with_nodes TP1Test.first_occurrences ["p1"; "p2"] ["t1"] TP1Test.new_analyzer),
   Failed ValueErrorClass).
Proof.
  split; [|split].
  - apply (proj1 (load_network_on_strings read_decimal TP1Test.first_occurrences
             ["p1"; "p2"] ["t1"] [["p1"; "t1"]; ["t1"; "p2"]]
             [("p1", "t1"); ("t1", "p2")] [("p1", "1"); (" p2", "0")]
             [("p1", 1); ("p2", 0)] TP1Test.new_analyzer)).
    + reflexivity.
    + repeat constructor.
  - apply (proj1 (proj2 (load_network_on_strings read_decimal TP1Test.first_occurrences
             ["p1"; "p2"] ["t1"] [["p1"; "t1"; "p2"]] [] [("p1", "1")] []
             TP1Test.new_analyzer))).
    exists ["p1"; "t1"; "p2"]. split; [now left|discriminate].
  - apply (proj2 (proj2 (load_network_on_strings read_decimal TP1Test.first_occurrences
             ["p1"; "p2"] ["t1"] [["p1"; "t1"]] [("p1", "t1")] [("p1", "one")] []
             TP1Test.new_analyzer))).
    + reflexivity.
    + exists "p1", "one". split; [now left|reflexivity].
Defined.

Lemma analyze_reads_the_entries_witness :
  TP1TestGui._analyze read_decimal TP1Test.first_occurrences spaced_window =
  (let (a, r) :=
     typed_load TP1Test.first_occurrences ["p1"; "p2"; "p3"] ["t1"; "t2"; "t3"]
       [("p1", "t1"); ("t1", "p2"); ("p2", "t2")] [("p1", 1); ("p2", 0); ("p3", 2)]
       (TP1TestGui.analyzer spaced_window) in
   (TP1TestGui.set_analyzer a spaced_window, r)).
Proof.
  apply (analyze_reads_the_entries read_decimal TP1Test.first_occurrences
           spaced_window ", " ["p1"; "p2"; "p3"] ["t1"; "t2"; "t3"]
           [("p1", "t1"); ("t1", "p2"); ("p2", "t2")]
           [("p1", "1"); ("p2", "0"); ("p3", "2")]
           [("p1", 1); ("p2", 0); ("p3", 2)]).
  - now right.
  - reflexivity.
  - discriminate.
  - discriminate.
  - discriminate.
  - repeat constructor; discriminate.
  - repeat constructor; discriminate.
  - repeat constructor; discriminate.
  - repeat constructor; discriminate.
  - repeat constructor; simpl; intuition discriminate.
  - repeat constructor.
Defined.

End AnalyzeSamples.

(** ** The graph that is drawn *)

Module NetGraphFacts.
Import PetriNetSimple NetGraph NetGraphView.

Lemma keys_set_NoDup {V : Type} (k : string) (v : V) (d : Dict.t V) :
  NoDup (Dict.keys d) -> NoDup (Dict.keys (Dict.set k v d)).
Proof.
  induction d as [|[k0 v0] rest IH]; simpl; intros H.
  - constructor; [intros []|constructor].
  - inversion H as [|? ? Hk0 Hrest]; subst.
    destruct (String.eqb k k0) eqn:E; simpl.
    + constructor; assumption.
    + constructor; [|now apply IH].
      intros Hin. apply (DictFacts.keys_set k k0 v rest) in Hin.
      apply String.eqb_neq in E. destruct Hin as [->|Hin]; [now apply E|now apply Hk0].
Qed.

Lemma In_get {V : Type} (k : string) (v : V) (d : Dict.t V) :
  NoDup (Dict.keys d) -> In (k, v) d -> Dict.get k d = Some v.
Proof.
  induction d as [|[k0 v0] rest IH]; simpl; intros Hnd Hin; [destruct Hin|].
  inversion Hnd as [|? ? Hk0 Hrest]; subst.
  destruct (String.eqb k k0) eqn:E.
  - apply String.eqb_eq in E. subst k0. destruct Hin as [[= ->]|Hin]; [reflexivity|].
    exfalso. apply Hk0. change k with (fst (k, v)). now apply in_map.
  - destruct Hin as [[= <- <-]|Hin]; [now rewrite String.eqb_refl in E|now apply IH].
Qed.

Lemma get_absent {V : Type} (k : string) (d : Dict.t V) :
  Dict.mem k d = false -> ~ In k (Dict.keys d).
Proof.
  intros H Hin. apply DictFacts.mem_keys in Hin. congruence.
Qed.

(** *** The tables stay well kept *)

Lemma new_graph_well_kept : well_kept new_graph.
Proof.
  repeat split; simpl; try constructor; try tauto; intros u out [].
Qed.

Lemma add_node_well_kept (g : DiGraph) (np : string * Pos) :
  well_kept g -> well_kept (add_node g np).
Proof.
  intros (Hn & Ha & Hin & Hk). destruct np as [n p]. unfold add_node. simpl.
  destruct (Dict.mem n (adj g)) eqn:E; repeat split; simpl.
  - now apply keys_set_NoDup.
  - exact Ha.
  - exact Hin.
  - intros H. apply DictFacts.keys_set in H. destruct H as [->|H].
    + now apply DictFacts.mem_keys.
    + now apply Hk.
  - intros H. apply DictFacts.keys_set. right. now apply Hk.
  - now apply keys_set_NoDup.
  - now apply keys_set_NoDup.
  - intros u out H. apply DictFacts.In_set in H. destruct H as [[_ ->]|H].
    + constructor.
    + now apply (Hin u).
  - intros H. apply DictFacts.keys_set in H. apply DictFacts.keys_set.
    destruct H as [->|H]; [now left|right; now apply Hk].
  - intros H. apply DictFacts.keys_set in H. apply DictFacts.keys_set.
    destruct H as [->|H]; [now left|right; now apply Hk].
Qed.

Lemma touch_eq (n : string) (g : DiGraph) :
  well_kept g ->
  (Dict.mem n (adj g) = true /\ touch n g = g) \/
  (Dict.mem n (adj g) = false /\
   touch n g = {| node := (node g ++ [(n, None)])%list;
                  adj := (adj g ++ [(n, Dict.empty)])%list |}).
Proof.
  intros (_ & _ & _ & Hk). unfold touch.
  destruct (Dict.mem n (adj g)) eqn:E; [now left|right]. split; [reflexivity|].
  pose proof (get_absent n (adj g) E) as Ha.
  rewrite (set_fresh n None (node g)) by (intros H; now apply Ha, Hk).
  now rewrite (set_fresh n Dict.empty (adj g)) by exact Ha.
Qed.

Lemma touch_well_kept (n : string) (g : DiGraph) :
  well_kept g -> well_kept (touch n g).
Proof.
  intros Hg. pose proof Hg as (Hn & Ha & Hin & Hk). unfold touch.
  destruct (Dict.mem n (adj g)) eqn:E; [exact Hg|]. repeat split; simpl.
  - now apply keys_set_NoDup.
  - now apply keys_set_NoDup.
  - intros u out H. apply DictFacts.In_set in H. destruct H as [[_ ->]|H].
    + constructor.
    + now apply (Hin u).
  - intros H. apply DictFacts.keys_set in H. apply DictFacts.keys_set.
    destruct H as [->|H]; [now left|right; now apply Hk].
  - intros H. apply DictFacts.keys_set in H. apply DictFacts.keys_set.
    destruct H as [->|H]; [now left|right; now apply Hk].
Qed.

Lemma touch_mem (n m : string) (g : DiGraph) :
  Dict.mem m (adj (touch n g)) = String.eqb m n || Dict.mem m (adj g).
Proof.
  unfold touch. destruct (Dict.mem n (adj g)) eqn:E; simpl.
  - destruct (String.eqb m n) eqn:Em; [|reflexivity].
    apply String.eqb_eq in Em. now subst m.
  - apply DictFacts.mem_set.
Qed.

Lemma touch_nodes (n m : string) (g : DiGraph) :
  well_kept g -> (In m (nodes (touch n g)) <-> m = n \/ In m (nodes g)).
Proof.
  intros Hg. pose proof Hg as (_ & _ & _ & Hk). unfold nodes.
  destruct (touch_eq n g Hg) as [[E ->]|[E ->]].
  - split; [tauto|]. intros [->|H]; [|exact H].
    apply Hk. now apply DictFacts.mem_keys.
  - simpl. unfold Dict.keys. rewrite map_app, in_app_iff. simpl. intuition.
Qed.

Lemma touch_positions (n : string) (g : DiGraph) :
  well_kept g -> get_node_attributes_pos (touch n g) = get_node_attributes_pos g.
Proof.
  intros Hg. destruct (touch_eq n g Hg) as [[E ->]|[E ->]]; [reflexivity|].
  unfold get_node_attributes_pos. simpl. rewrite flat_map_app. simpl.
  apply app_nil_r.
Qed.

Lemma touch_weight (n u v : string) (g : DiGraph) :
  weight (touch n g) u v = weight g u v.
Proof.
  unfold touch. destruct (Dict.mem n (adj g)) eqn:E; [reflexivity|].
  unfold weight. simpl. destruct (String.eqb_spec n u) as [->|Hne].
  - rewrite DictFacts.get_set_same. unfold Dict.mem in E.
    now destruct (Dict.get u (adj g)).
  - now rewrite DictFacts.get_set_other.
Qed.

Lemma add_edge_well_kept (g : DiGraph) (a : string * string * Z) :
  well_kept g -> well_kept (add_edge g a).
Proof.
  intros Hg. destruct a as [[u v] w]. unfold add_edge.
  pose proof (touch_well_kept v _ (touch_well_kept u g Hg)) as (Hn & Ha & Hin & Hk).
  assert (Hu : In u (Dict.keys (adj (touch v (touch u g))))).
  { apply DictFacts.mem_keys. rewrite !touch_mem, String.eqb_refl.
    now rewrite orb_true_r. }
  repeat split; simpl.
  - exact Hn.
  - now apply keys_set_NoDup.
  - intros u' out H. apply DictFacts.In_set in H. destruct H as [[_ ->]|H].
    + apply keys_set_NoDup. unfold Dict.get_default.
      destruct (Dict.get u (adj (touch v (touch u g)))) as [out0|] eqn:G.
      * apply (Hin u). now apply DictFacts.get_In.
      * constructor.
    + now apply (Hin u').
  - intros H. apply DictFacts.keys_set. right. now apply Hk.
  - intros H. apply DictFacts.keys_set in H. destruct H as [->|H]; now apply Hk.
Qed.

Lemma add_edge_positions (g : DiGraph) (a : string * string * Z) :
  well_kept g -> get_node_attributes_pos (add_edge g a) = get_node_attributes_pos g.
Proof.
  intros Hg. destruct a as [[u v] w]. unfold add_edge.
  change (get_node_attributes_pos (touch v (touch u g)) = get_node_attributes_pos g).
  rewrite touch_positions by now apply touch_well_kept.
  now apply touch_positions.
Qed.

Lemma add_edge_nodes (g : DiGraph) (u v : string) (w : Z) (m : string) :
  well_kept g ->
  (In m (nodes (add_edge g (u, v, w))) <-> m = u \/ m = v \/ In m (nodes g)).
Proof.
  intros Hg. unfold add_edge.
  change (In m (nodes (touch v (touch u g))) <-> m = u \/ m = v \/ In m (nodes g)).
  rewrite touch_nodes by now apply touch_well_kept.
  rewrite touch_nodes by exact Hg. tauto.
Qed.

Lemma add_edge_weight (g : DiGraph) (u v : string) (w : Z) (u' v' : string) :
  weight (add_edge g (u, v, w)) u' v' =
  if String.eqb u' u && String.eqb v' v then Some w else weight g u' v'.
Proof.
  rewrite <- (touch_weight u u' v' g), <- (touch_weight v u' v' (touch u g)).
  unfold add_edge. generalize (touch v (touch u g)). intros g2.
  unfold weight. simpl. destruct (String.eqb_spec u' u) as [->|Hne]; simpl.
  - rewrite DictFacts.get_set_same. unfold Dict.get_default.
    destruct (String.eqb_spec v' v) as [->|Hv].
    + now rewrite DictFacts.get_set_same.
    + rewrite DictFacts.get_set_other by congruence.
      now destruct (Dict.get u (adj g2)).
  - rewrite DictFacts.get_set_other by congruence. reflexivity.
Qed.

(** *** The two loops *)

Lemma nodes_loop_well_kept (items : list (string * Pos)) (g : DiGraph) :
  well_kept g -> well_kept (fold_left add_node items g).
Proof.
  revert g. induction items as [|np items IH]; intros g Hg; [exact Hg|].
  simpl. apply IH. now apply add_node_well_kept.
Qed.

Lemma edges_loop_well_kept (arcs : list (string * string * Z)) (g : DiGraph) :
  well_kept g -> well_kept (fold_left add_edge arcs g).
Proof.
  revert g. induction arcs as [|a arcs IH]; intros g Hg; [exact Hg|].
  simpl. apply IH. now apply add_edge_well_kept.
Qed.

Lemma add_node_nodes (g : DiGraph) (n : string) (p : Pos) (m : string) :
  In m (nodes (add_node g (n, p))) <-> m = n \/ In m (nodes g).
Proof. unfold nodes, add_node. simpl. apply DictFacts.keys_set. Qed.

Lemma nodes_loop_nodes (items : list (string * Pos)) (g : DiGraph) (m : string) :
  In m (nodes (fold_left add_node items g)) <-> In m (map fst items) \/ In m (nodes g).
Proof.
  revert g. induction items as [|[n p] items IH]; intros g; simpl; [tauto|].
  rewrite IH, add_node_nodes. intuition.
Qed.

Lemma nodes_loop_bare (items : list (string * Pos)) (g : DiGraph) :
  (forall u out, In (u, out) (adj g) -> out = Dict.empty) ->
  forall u out, In (u, out) (adj (fold_left add_node items g)) -> out = Dict.empty.
Proof.
  revert g. induction items as [|[n p] items IH]; intros g Hg; [exact Hg|].
  simpl. apply IH. intros u out. unfold add_node. simpl.
  destruct (Dict.mem n (adj g)); [apply Hg|].
  intros H. apply DictFacts.In_set in H. destruct H as [[_ ->]|H]; [reflexivity|].
  now apply (Hg u).
Qed.

Lemma nodes_loop_fresh (items : list (string * Pos)) (g : DiGraph) :
  NoDup (map fst items) ->
  (forall n, In n (map fst items) -> ~ In n (nodes g)) ->
  node (fold_left add_node items g) =
  (node g ++ map (fun np => (fst np, Some (snd np))) items)%list.
Proof.
  revert g. induction items as [|[n p] items IH]; intros g Hnd Hfresh.
  - simpl. now rewrite app_nil_r.
  - inversion Hnd as [|? ? Hn Hrest]; subst. simpl.
    rewrite IH; [|exact Hrest|].
    + simpl. rewrite (set_fresh n (Some p) (node g)) by (apply Hfresh; now left).
      now rewrite <- app_assoc.
    + intros m Hm. rewrite add_node_nodes.
      intros [->|H]; [exact (Hn Hm)|]. apply (Hfresh m); [now right|exact H].
Qed.

Lemma positions_of_items (items : list (string * Pos)) :
  flat_map (fun na : string * option Pos =>
              match snd na with
              | Some p => [(fst na, p)]
              | None => []
              end)
    (map (fun np => (fst np, Some (snd np))) items) = items.
Proof.
  induction items as [|[n p] items IH]; simpl; [reflexivity|]. now rewrite IH.
Qed.

Lemma edges_loop_positions (arcs : list (string * string * Z)) (g : DiGraph) :
  well_kept g ->
  get_node_attributes_pos (fold_left add_edge arcs g) = get_node_attributes_pos g.
Proof.
  revert g. induction arcs as [|a arcs IH]; intros g Hg; [reflexivity|].
  cbn [fold_left]. rewrite IH by now apply add_edge_well_kept.
  now apply add_edge_positions.
Qed.

Lemma edges_loop_nodes (arcs : list (string * string * Z)) (g : DiGraph) (m : string) :
  well_kept g ->
  (In m (nodes (fold_left add_edge arcs g)) <->
   (exists a, In a arcs /\ (m = fst (fst a) \/ m = snd (fst a))) \/ In m (nodes g)).
Proof.
  revert g. induction arcs as [|[[u v] w] arcs IH]; intros g Hg; cbn [fold_left].
  - split; [auto|]. intros [(a & [] & _)|H]; exact H.
  - rewrite IH by now apply add_edge_well_kept.
    rewrite add_edge_nodes by exact Hg. split.
    + intros [(a & Hin & Ha)|[->|[->|H]]].
      * left. exists a. split; [now right|exact Ha].
      * left. exists (u, v, w). split; [now left|simpl; auto].
      * left. exists (u, v, w). split; [now left|simpl; auto].
      * now right.
    + intros [(a & [<-|Hin] & Ha)|H].
      * simpl in Ha. tauto.
      * left. eauto.
      * tauto.
Qed.

Lemma edges_loop_weight (arcs : list (string * string * Z)) (g : DiGraph) (u v : string) :
  weight (fold_left add_edge arcs g) u v = last_weight_from u v (weight g u v) arcs.
Proof.
  revert g. induction arcs as [|[[u0 v0] w] arcs IH]; intros g; [reflexivity|].
  cbn [fold_left]. rewrite IH, add_edge_weight. reflexivity.
Qed.

(** *** Reading the edges *)

Lemma pairs_NoDup (u : string) (l : list string) :
  NoDup l -> NoDup (map (pair u) l).
Proof.
  induction 1 as [|x l Hx _ IH]; simpl; constructor; [|exact IH].
  intros H. apply in_map_iff in H. destruct H as (y & [= ->] & Hy). now apply Hx.
Qed.

Lemma edges_once (g : DiGraph) : well_kept g -> NoDup (edges g).
Proof.
  intros (_ & Ha & Hin & _). unfold edges. revert Ha Hin.
  induction (adj g) as [|[u out] rest IH]; intros Ha Hin; simpl; [constructor|].
  inversion Ha as [|? ? Hu Hrest]; subst. apply NoDup_app.
  - rewrite <- (map_map fst (pair u)). apply pairs_NoDup.
    apply (Hin u). now left.
  - apply IH; [exact Hrest|]. intros u' out' H. apply (Hin u'). now right.
  - intros [a b] H1 H2. apply in_map_iff in H1. destruct H1 as (vw & [= <- <-] & _).
    apply in_flat_map in H2. destruct H2 as ([u' out'] & Hin' & H2).
    apply in_map_iff in H2. destruct H2 as (vw' & [= -> _] & _).
    apply Hu. change u with (fst (u, out')). now apply in_map.
Qed.

Lemma edges_weight (g : DiGraph) (u v : string) :
  well_kept g -> (In (u, v) (edges g) <-> exists w, weight g u v = Some w).
Proof.
  intros (_ & Ha & Hin & _). unfold edges, weight. rewrite in_flat_map. split.
  - intros ([u' out] & Hout & H). apply in_map_iff in H.
    destruct H as ([v' w] & E & Hv). simpl in E. injection E as -> ->.
    rewrite (@In_get (Dict.t Z) u out (adj g) Ha Hout). exists w.
    apply In_get; [now apply (Hin u)|exact Hv].
  - intros (w & H). destruct (Dict.get u (adj g)) as [out|] eqn:G; [|discriminate].
    exists (u, out). split; [now apply DictFacts.get_In|].
    apply in_map_iff. exists (v, w). split; [reflexivity|now apply DictFacts.get_In].
Qed.

Lemma last_weight_from_some (u v : string) (arcs : list (string * string * Z))
  (acc : option Z) (w : Z) :
  last_weight_from u v acc arcs = Some w -> acc = Some w \/ In (u, v, w) arcs.
Proof.
  revert acc. induction arcs as [|[[u0 v0] w0] arcs IH]; intros acc; simpl; [auto|].
  intros H. apply IH in H. destruct H as [H|H]; [|auto].
  destruct (String.eqb_spec u u0) as [->|]; simpl in H; [|auto].
  destruct (String.eqb_spec v v0) as [->|]; simpl in H; [|auto].
  injection H as ->. auto.
Qed.

Lemma last_weight_from_kept (u v : string) (arcs : list (string * string * Z))
  (acc : option Z) :
  acc <> None -> last_weight_from u v acc arcs <> None.
Proof.
  revert acc. induction arcs as [|a arcs IH]; intros acc H; [exact H|].
  simpl. apply IH.
  destruct (String.eqb u (fst (fst a)) && String.eqb v (snd (fst a))); [discriminate|exact H].
Qed.

Lemma last_weight_from_found (u v : string) (arcs : list (string * string * Z))
  (acc : option Z) (w : Z) :
  In (u, v, w) arcs -> last_weight_from u v acc arcs <> None.
Proof.
  revert acc. induction arcs as [|a arcs IH]; intros acc; [intros []|].
  intros [->|H]; simpl.
  - rewrite !String.eqb_refl. simpl. now apply last_weight_from_kept.
  - now apply IH.
Qed.

Lemma first_graph_well_kept (net : PetriNet) :
  well_kept (fold_left add_node (Dict.items (pos net)) new_graph).
Proof. apply nodes_loop_well_kept, new_graph_well_kept. Qed.

Lemma first_graph_weight (net : PetriNet) (u v : string) :
  weight (fold_left add_node (Dict.items (pos net)) new_graph) u v = None.
Proof.
  unfold weight.
  destruct (Dict.get u (adj (fold_left add_node (Dict.items (pos net)) new_graph)))
    as [out|] eqn:G; [|reflexivity].
  apply DictFacts.get_In in G.
  apply (nodes_loop_bare (Dict.items (pos net)) new_graph) in G; [now subst out|].
  intros u' out' [].
Qed.

Lemma graph_well_kept (net : PetriNet) : well_kept (get_networkx_graph net).
Proof. apply edges_loop_well_kept, first_graph_well_kept. Qed.

Lemma graph_nodes (net : PetriNet) (n : string) :
  In n (nodes (get_networkx_graph net)) <->
  arc_end net n \/ In n (Dict.keys (pos net)).
Proof.
  unfold get_networkx_graph.
  rewrite edges_loop_nodes by apply first_graph_well_kept.
  rewrite nodes_loop_nodes. unfold arc_end, Dict.keys, Dict.items. simpl. tauto.
Qed.

Lemma graph_positions (net : PetriNet) :
  NoDup (Dict.keys (pos net)) ->
  get_node_attributes_pos (get_networkx_graph net) = Dict.items (pos net).
Proof.
  intros Hnd. unfold get_networkx_graph.
  rewrite edges_loop_positions by apply first_graph_well_kept.
  unfold get_node_attributes_pos.
  rewrite nodes_loop_fresh; [|exact Hnd|intros n _ []].
  apply positions_of_items.
Qed.

(** The layout of a built net names each node once. *)
Lemma build_pos_NoDup (cs : list call) : NoDup (Dict.keys (pos (build cs))).
Proof.
  apply (SimpleFacts.build_keeps (fun net => NoDup (Dict.keys (pos net)))).
  - constructor.
  - intros c net H. destruct c as [name k r|name r|source target w]; simpl perform.
    + rewrite SimpleFacts.add_place_eq. simpl. now apply keys_set_NoDup.
    + rewrite SimpleFacts.add_transition_eq. simpl. now apply keys_set_NoDup.
    + destruct (SimpleFacts.add_arc_cases source target w net)
        as [(t & p & _ & _ & E)|[(t & p & _ & _ & E)|(_ & _ & E)]];
        rewrite E; exact H.
Qed.

Lemma build_positions_cover (cs : list call) : positions_cover (build cs).
Proof.
  apply (SimpleFacts.build_keeps positions_cover).
  - intros n. simpl. tauto.
  - intros c net. apply perform_positions_cover.
Qed.

Lemma get_none_keys {V : Type} (k : string) (d : Dict.t V) :
  Dict.get k d = None <-> ~ In k (Dict.keys d).
Proof.
  rewrite <- DictFacts.mem_keys. unfold Dict.mem.
  destruct (Dict.get k d); split; congruence.
Qed.

End NetGraphFacts.

Section DrawnGraph.
Import PetriNetSimple NetGraph NetGraphView NetGraphFacts.

(** X19.  The edges of the graph that [get_networkx_graph] returns, for any
    net.  [G.edges()] lists each pair once, and lists a pair exactly when an
    arc with these ends is recorded in [arcs]; the [weight] of the edge is the
    weight of the last such arc.  So an arc that [add_arc] recorded without
    finding a place and a transition is drawn like the others, and of two
    arcs between the same ends only the later weight is kept. *)
Theorem graph_edges_follow_arcs (net : PetriNet) :
  let G := get_networkx_graph net in
  NoDup (edges G) /\
  (forall u v, In (u, v) (edges G) <-> exists w, In (u, v, w) (arcs net)) /\
  (forall u v, weight G u v = last_weight u v (arcs net)).
Proof.
  intros G.
  assert (Hw : forall u v, weight G u v = last_weight u v (arcs net)).
  { intros u v. unfold G, get_networkx_graph.
    rewrite edges_loop_weight, first_graph_weight. reflexivity. }
  split; [apply edges_once, graph_well_kept|]. split; [|exact Hw].
  intros u v. rewrite (edges_weight G u v (graph_well_kept net)), Hw. split.
  - intros (w & H). exists w. apply last_weight_from_some in H.
    destruct H as [H|H]; [discriminate|exact H].
  - intros (w & H). pose proof (last_weight_from_found u v (arcs net) None w H) as Hs.
    unfold last_weight. destruct (last_weight_from u v None (arcs net)) as [w'|].
    + now exists w'.
    + now contradiction Hs.
Qed.

(** X20.  The positions that [_draw_network] reads from the graph of a built
    net.  [nx.get_node_attributes(G, 'pos')] is the layout of the net, entry
    by entry.  Each node that [_draw_network] draws as a place or as a
    transition has a position there, so the lookups [pos[node]] succeed.  A
    node of the graph has no position exactly when it is an end of a
    recorded arc that is neither a place nor a transition. *)
Theorem drawn_nodes_have_positions (cs : list call) :
  let net := build cs in
  let G := get_networkx_graph net in
  get_node_attributes_pos G = Dict.items (pos net) /\
  (forall n, In n (place_nodes net G) \/ In n (transition_nodes net G) ->
             exists p, Dict.get n (get_node_attributes_pos G) = Some p) /\
  (forall n, In n (nodes G) /\ Dict.get n (get_node_attributes_pos G) = None <->
             arc_end net n /\
             ~ In n (Dict.keys (places net)) /\ ~ In n (Dict.keys (transitions net))).
Proof.
  intros net G.
  pose proof (graph_positions net (build_pos_NoDup cs)) as Hpos.
  pose proof (build_positions_cover cs) as Hcover.
  fold net in Hpos, Hcover. fold G in Hpos.
  split; [exact Hpos|]. rewrite Hpos. unfold Dict.items. split.
  - intros n Hn.
    assert (Hin : In n (Dict.keys (pos net))).
    { apply Hcover. unfold place_nodes, transition_nodes in Hn.
      rewrite !filter_In, !DictFacts.mem_keys in Hn. tauto. }
    apply DictFacts.mem_keys, DictFacts.mem_get in Hin. exact Hin.
  - intros n. rewrite get_none_keys. unfold G. rewrite graph_nodes.
    rewrite (Hcover n). tauto.
Qed.

End DrawnGraph.
